(** * Voro++ 2D particle containers ([container_2d.cc])

    A shallow embedding of the block storage of [container_2d] and
    [container_poly_2d]: the grid geometry and the two remapping routines,
    serial insertion with memory doubling, the two-phase parallel insertion
    with its overflow buffer, the reconciliation pass, [clear], and the
    container side of [find_voronoi_cell].

    Conventions of the model.
    - A C++ [double] is a primitive binary64 float; arithmetic is IEEE
      round-to-nearest-even, one rounding per operation.
    - A C++ [int] is a [Z].  Signed overflow and the conversion to [int] of
      a double that is a NaN, an infinity or beyond the range of [int] are
      undefined in C++; the definitions compute on [Z] as the source does
      where its arithmetic is defined, and [checked_put_remap] carries the
      limits of [int] through the remapping of a particle.
    - A heap array is a list of cells; a cell that was never written is
      [None].  An access outside the allocated range is reported as
      [Undefined].
    - The source keeps four parallel arrays [co], [mem], [id], [p] indexed by
      block; here they are one list of per-block records.  [p[b]] packs [ps]
      doubles per slot; a cell of the model's [p] is the tuple of one slot.
      The two packed overflow arrays are one array of records. *)

From Stdlib Require Import ZArith Bool List Lia Floats Permutation.
From stdpp Require Import base option list list_numbers.

Open Scope Z_scope.

(** ** Outcomes of a call *)

Inductive outcome (A : Type) : Type :=
| Ok (a : A)
| Fatal        (* voro_fatal_error: message on stderr, then exit(status) *)
| Undefined    (* access outside an allocated array *)
| Diverges.    (* a loop that does not exit *)

Arguments Ok {A} a.
Arguments Fatal {A}.
Arguments Undefined {A}.
Arguments Diverges {A}.

Definition obind {A B} (m : outcome A) (f : A -> outcome B) : outcome B :=
  match m with
  | Ok a => f a
  | Fatal => Fatal
  | Undefined => Undefined
  | Diverges => Diverges
  end.

Notation "x <-- m ;; k" := (obind m (fun x => k))
  (at level 100, m at next level, right associativity).

Definition outcome_map {A B} (f : A -> B) (m : outcome A) : outcome B :=
  x <-- m ;; Ok (f x).

(** ** Numeric helpers *)

(** Conversion of an [int] to [double] (exact below 2^53). *)
Definition of_int (z : Z) : float :=
  SF2Prim (binary_normalize prec emax z 0 false).

(** Modelled from the spec: [step_int] is declared in the absent header of
    [voro_base_2d]; the spec gives it as the floor of its argument.  On a NaN
    or an infinity, where no floor exists and the C++ conversion is
    undefined, the model returns 0. *)
Definition step_int (a : float) : Z :=
  match Prim2SF a with
  | S754_finite s m e => Z.shiftl (if s then Z.neg m else Z.pos m) e
  | _ => 0
  end.

(** Modelled from the spec: [step_mod] is declared in the absent header; the
    spec gives it as the true modulo, in [0,b) for positive b. *)
Definition step_mod (a b : Z) : Z := a mod b.

(** Modelled from the spec: [step_div] is declared in the absent header; it is
    the integer division that rounds toward minus infinity. *)
Definition step_div (a b : Z) : Z := a / b.

(** Modelled from the spec: [max_particle_memory] is a constant of the absent
    [config_2d.hh]; the spec gives 2^24 entries. *)
Definition max_particle_memory : Z := 16777216.

(** ** Heap arrays *)

Abbreviation arr A := (list (option A)) (only parsing).

(** [new T[n]] *)
Definition new_arr {A} (n : Z) : arr A := replicate (Z.to_nat n) None.

Definition alen {A} (a : arr A) : Z := Z.of_nat (length a).

Definition in_range {A} (a : arr A) (i : Z) : bool :=
  (0 <=? i) && (i <? alen a).

(** [a[i]] read: [None] outside the array or on a cell never written. *)
Definition arr_get {A} (a : arr A) (i : Z) : option A :=
  if in_range a i then mjoin (a !! Z.to_nat i) else None.

(** [a[i]=v] *)
Definition arr_set {A} (a : arr A) (i : Z) (v : A) : outcome (arr A) :=
  if in_range a i then Ok (<[Z.to_nat i := Some v]> a) else Undefined.

(** [for(l=0;l<n;l++) dst[l]=src[l];] *)
Definition arr_copy {A} (dst src : arr A) (n : Z) : outcome (arr A) :=
  if (n <=? alen src) && (n <=? alen dst)
  then Ok (take (Z.to_nat n) src ++ drop (Z.to_nat n) dst)
  else Undefined.

(** ** Data model *)

(** The fields of [voro_base_2d] and the geometric fields of
    [container_base_2d]. *)
Record geometry : Type := {
  ax : float; bx : float; ay : float; by_ : float;
  nx : Z; ny : Z; nxy : Z;
  x_prd : bool; y_prd : bool;
  boxx : float; boxy : float; xsp : float; ysp : float
}.

(** Block [b]: [co[b]], [mem[b]], [id[b]], [p[b]]. *)
Record block : Type := {
  co : Z;
  mem : Z;
  id : arr Z;
  p : arr (list float)
}.

(** One record of the overflow buffer: the triple
    [ijk_m_id_overflow[3i..3i+2]] and the coordinates at [p_overflow]. *)
Record overflow_rec : Type := {
  o_ij : Z;
  o_m : Z;
  o_id : Z;
  o_p : list float
}.

(** [container_2d], and the storage part of [container_poly_2d]. *)
Record container : Type := {
  geo : geometry;
  ps : Z;
  blocks : list block;
  overflow_mem_numPt : Z;
  overflowPtCt : Z;
  overflow : arr overflow_rec
}.

(** [container_poly_2d]: the storage with [ps = 3], the per-thread maxima
    [max_r[0..nt)] (the list has [nt] cells) and [max_radius]. *)
Record container_poly : Type := {
  con : container;
  max_r : list float;
  max_radius : float
}.

Definition set_blocks (s : container) (bs : list block) : container :=
  {| geo := geo s; ps := ps s; blocks := bs;
     overflow_mem_numPt := overflow_mem_numPt s;
     overflowPtCt := overflowPtCt s; overflow := overflow s |}.

Definition set_overflow (s : container) (cap cnt : Z) (o : arr overflow_rec)
  : container :=
  {| geo := geo s; ps := ps s; blocks := blocks s;
     overflow_mem_numPt := cap; overflowPtCt := cnt; overflow := o |}.

Definition set_con (c : container_poly) (s : container) : container_poly :=
  {| con := s; max_r := max_r c; max_radius := max_radius c |}.

(** Block [ij] of the container; [None] when [ij] is not a block index. *)
Definition block_at (bs : list block) (ij : Z) : option block :=
  if 0 <=? ij then bs !! Z.to_nat ij else None.

Definition blk (s : container) (ij : Z) : option block :=
  block_at (blocks s) ij.

Definition get_block (bs : list block) (ij : Z) : outcome block :=
  match block_at bs ij with
  | Some b => Ok b
  | None => Undefined
  end.

Definition put_block (bs : list block) (ij : Z) (b : block) : list block :=
  <[Z.to_nat ij := b]> bs.

(** ** Construction *)

(** [voro_base_2d(nx,ny,boxx,boxy)] with [boxx=(bx-ax)/nx], [xsp=1/boxx]. *)
Definition mk_geometry (ax_ bx_ ay_ by__ : float) (nx_ ny_ : Z)
    (x_prd_ y_prd_ : bool) : geometry :=
  let boxx_ := ((bx_ - ax_) / of_int nx_)%float in
  let boxy_ := ((by__ - ay_) / of_int ny_)%float in
  {| ax := ax_; bx := bx_; ay := ay_; by_ := by__;
     nx := nx_; ny := ny_; nxy := nx_ * ny_;
     x_prd := x_prd_; y_prd := y_prd_;
     boxx := boxx_; boxy := boxy_;
     xsp := (1 / boxx_)%float; ysp := (1 / boxy_)%float |}.

Definition new_block (init_mem : Z) : block :=
  {| co := 0; mem := init_mem; id := new_arr init_mem; p := new_arr init_mem |}.

(** [container_base_2d::container_base_2d] followed by the member
    initialisers of the derived class ([overflow_mem_numPt(64)],
    [overflowPtCt(0)]). *)
Definition new_container (ax_ bx_ ay_ by__ : float) (nx_ ny_ : Z)
    (x_prd_ y_prd_ : bool) (init_mem ps_ : Z) : container :=
  {| geo := mk_geometry ax_ bx_ ay_ by__ nx_ ny_ x_prd_ y_prd_;
     ps := ps_;
     blocks := replicate (Z.to_nat (nx_ * ny_)) (new_block init_mem);
     overflow_mem_numPt := 64; overflowPtCt := 0; overflow := new_arr 64 |}.

Definition container_2d_new (ax_ bx_ ay_ by__ : float) (nx_ ny_ : Z)
    (x_prd_ y_prd_ : bool) (init_mem : Z) : container :=
  new_container ax_ bx_ ay_ by__ nx_ ny_ x_prd_ y_prd_ init_mem 2.

(** Modelled from the spec: [max_radius] is initialised by the absent base
    class of [container_poly_2d]; the spec gives its initial value as 0. *)
Definition container_poly_2d_new (ax_ bx_ ay_ by__ : float) (nx_ ny_ : Z)
    (x_prd_ y_prd_ : bool) (init_mem number_thread : Z) : container_poly :=
  {| con := new_container ax_ bx_ ay_ by__ nx_ ny_ x_prd_ y_prd_ init_mem 3;
     max_r := replicate (Z.to_nat number_thread) 0%float;
     max_radius := 0%float |}.

(** ** Remapping ([container_base_2d]) *)

(** [put_remap(ij,x,y)]: [None] is the [false] return; on [true] the block
    index and the remapped position.  The indices are computed on [Z];
    [checked_put_remap] below keeps them in an [int], and returns this
    result wherever the arithmetic of the source is defined. *)
Definition put_remap (g : geometry) (x y : float) : option (Z * float * float) :=
  let ij := step_int ((x - ax g) * xsp g)%float in
  let rx :=
    if x_prd g then
      let l := step_mod ij (nx g) in
      Some (l, (x + boxx g * of_int (l - ij))%float)
    else if (ij <? 0) || (ij >=? nx g) then None
    else Some (ij, x) in
  match rx with
  | None => None
  | Some (ij, x) =>
    let j := step_int ((y - ay g) * ysp g)%float in
    let ry :=
      if y_prd g then
        let l := step_mod j (ny g) in
        Some (l, (y + boxy g * of_int (l - j))%float)
      else if (j <? 0) || (j >=? ny g) then None
      else Some (j, y) in
    match ry with
    | None => None
    | Some (j, y) => Some (ij + nx g * j, x, y)
    end
  end.

(** The range of a 32-bit [int]. *)
Definition int_min : Z := -2147483648.
Definition int_max : Z := 2147483647.

Definition is_int (z : Z) : Prop := int_min <= z <= int_max.

(** An [int] result of the source: beyond the range of [int] the signed
    arithmetic, or the conversion from [double], has no defined value. *)
Definition to_int (z : Z) : outcome Z :=
  if (int_min <=? z) && (z <=? int_max) then Ok z else Undefined.

(** A double that is neither a NaN nor an infinity. *)
Definition finite (a : float) : Prop :=
  match Prim2SF a with
  | S754_zero _ | S754_finite _ _ _ => True
  | _ => False
  end.

(** [step_int] with its result in an [int]: a NaN, an infinity or a floor
    beyond [int] cannot be converted. *)
Definition checked_step_int (a : float) : outcome Z :=
  match Prim2SF a with
  | S754_zero _ | S754_finite _ _ _ => to_int (step_int a)
  | _ => Undefined
  end.

(** [put_remap(ij,x,y)] with every [int] of the source kept in range: the
    index [ij], the difference [l-ij] that is converted to [double], the
    index [j] (computed only once the x direction has passed) and
    [ij+=nx*j]. *)
Definition checked_put_remap (g : geometry) (x y : float)
  : outcome (option (Z * float * float)) :=
  ij <-- checked_step_int ((x - ax g) * xsp g)%float ;;
  rx <-- (if x_prd g then
            let l := step_mod ij (nx g) in
            d <-- to_int (l - ij) ;;
            Ok (Some (l, (x + boxx g * of_int d)%float))
          else if (ij <? 0) || (ij >=? nx g) then Ok None
          else Ok (Some (ij, x))) ;;
  match rx with
  | None => Ok None
  | Some (ij, x) =>
    j <-- checked_step_int ((y - ay g) * ysp g)%float ;;
    ry <-- (if y_prd g then
              let l := step_mod j (ny g) in
              d <-- to_int (l - j) ;;
              Ok (Some (l, (y + boxy g * of_int d)%float))
            else if (j <? 0) || (j >=? ny g) then Ok None
            else Ok (Some (j, y))) ;;
    match ry with
    | None => Ok None
    | Some (j, y) =>
      nj <-- to_int (nx g * j) ;;
      r <-- to_int (ij + nj) ;;
      Ok (Some (r, x, y))
    end
  end.

(** The outputs of a successful [remap]. *)
Record remapped : Type := {
  r_ai : Z; r_aj : Z; r_ci : Z; r_cj : Z;
  r_x : float; r_y : float; r_ij : Z
}.

(** [remap(ai,aj,ci,cj,x,y,ij)] *)
Definition remap (g : geometry) (x y : float) : option remapped :=
  let ci := step_int ((x - ax g) * xsp g)%float in
  let rx :=
    if (ci <? 0) || (ci >=? nx g) then
      if x_prd g then
        let ai := step_div ci (nx g) in
        Some (ai, (x - of_int ai * (bx g - ax g))%float, ci - ai * nx g)
      else None
    else Some (0, x, ci) in
  match rx with
  | None => None
  | Some (ai, x, ci) =>
    let cj := step_int ((y - ay g) * ysp g)%float in
    let ry :=
      if (cj <? 0) || (cj >=? ny g) then
        if y_prd g then
          let aj := step_div cj (ny g) in
          Some (aj, (y - of_int aj * (by_ g - ay g))%float, cj - aj * ny g)
        else None
      else Some (0, y, cj) in
    match ry with
    | None => None
    | Some (aj, y, cj) =>
      Some {| r_ai := ai; r_aj := aj; r_ci := ci; r_cj := cj;
              r_x := x; r_y := y; r_ij := ci + nx g * cj |}
    end
  end.

(** [point_inside(x,y)] of a container without walls. *)
Definition point_inside (g : geometry) (x y : float) : bool :=
  if (x <? ax g)%float || (bx g <? x)%float
     || (y <? ay g)%float || (by_ g <? y)%float
  then false else true.

(** ** Block memory ([container_base_2d]) *)

Definition set_co (b : block) (c : Z) : block :=
  {| co := c; mem := mem b; id := id b; p := p b |}.

(** [id[ij][m]=n; pp=p[ij]+ps*m; *(pp++)=x; ...] *)
Definition store (b : block) (m n : Z) (cs : list float) : outcome block :=
  idp <-- arr_set (id b) m n ;;
  pp <-- arr_set (p b) m cs ;;
  Ok {| co := co b; mem := mem b; id := idp; p := pp |}.

(** [add_particle_memory(i)], on block [i]: the new arrays receive the first
    [co[i]] slots of the old ones. *)
Definition add_particle_memory (b : block) : outcome block :=
  let nmem := Z.shiftl (mem b) 1 in
  if nmem >? max_particle_memory then Fatal
  else
    idp <-- arr_copy (new_arr nmem) (id b) (co b) ;;
    pp <-- arr_copy (new_arr nmem) (p b) (co b) ;;
    Ok {| co := co b; mem := nmem; id := idp; p := pp |}.

(** [put_locate_block(ij,x,y)]: [None] is the [false] return. *)
Definition put_locate_block (s : container) (x y : float)
  : outcome (option (container * Z * float * float)) :=
  match put_remap (geo s) x y with
  | Some (ij, x, y) =>
    b <-- get_block (blocks s) ij ;;
    if co b =? mem b then
      b' <-- add_particle_memory b ;;
      Ok (Some (set_blocks s (put_block (blocks s) ij b'), ij, x, y))
    else Ok (Some (s, ij, x, y))
  | None => Ok None
  end.

(** ** Serial insertion *)

(** The body shared by [container_2d::put] and [container_poly_2d::put];
    [rest] holds the doubles stored after x and y.  The flag tells whether
    the position was accepted. *)
Definition put_coords (s : container) (n : Z) (x y : float) (rest : list float)
  : outcome (container * bool) :=
  r <-- put_locate_block s x y ;;
  match r with
  | Some (s', ij, x, y) =>
    b <-- get_block (blocks s') ij ;;
    b' <-- store b (co b) n (x :: y :: rest) ;;
    Ok (set_blocks s' (put_block (blocks s') ij (set_co b' (co b + 1))), true)
  | None => Ok (s, false)
  end.

(** [container_2d::put(n,x,y)] *)
Definition container_2d_put (s : container) (n : Z) (x y : float)
  : outcome container :=
  outcome_map fst (put_coords s n x y []).

Definition fmax (a r : float) : float := if (a <? r)%float then r else a.

(** [container_poly_2d::put(n,x,y,r)] *)
Definition container_poly_2d_put (c : container_poly) (n : Z) (x y r : float)
  : outcome container_poly :=
  sa <-- put_coords (con c) n x y [r] ;;
  Ok {| con := fst sa; max_r := max_r c;
        max_radius := if snd sa then fmax (max_radius c) r else max_radius c |}.

(** ** Parallel insertion *)

(** A [put_parallel] call has two atomic parts: the captured increment
    [m=co[ij]++], and then either the direct write of slot [m] or the critical
    section that appends to the overflow buffer.  Between the two the call
    holds its locals [ij], [m], [i] and the coordinates. *)

(** First part: [put_remap] and [m=co[ij]++] *)
Definition put_parallel_reserve (s : container) (i : Z) (x y : float)
    (rest : list float) : outcome (container * option overflow_rec) :=
  match put_remap (geo s) x y with
  | Some (ij, x, y) =>
    b <-- get_block (blocks s) ij ;;
    Ok (set_blocks s (put_block (blocks s) ij (set_co b (co b + 1))),
        Some {| o_ij := ij; o_m := co b; o_id := i; o_p := x :: y :: rest |})
  | None => Ok (s, None)
  end.

(** The critical section: [opti=overflowPtCt++], the doubling of the overflow
    arrays when they are full, and the write of record [opti]. *)
Definition overflow_append (s : container) (r : overflow_rec)
  : outcome container :=
  let opti := overflowPtCt s in
  let cnt := opti + 1 in
  co' <-- (if cnt >? overflow_mem_numPt s then
             let old := overflow_mem_numPt s in
             o <-- arr_copy (new_arr (old * 2)) (overflow s) old ;;
             Ok (old * 2, o)
           else Ok (overflow_mem_numPt s, overflow s)) ;;
  o' <-- arr_set (snd co') opti r ;;
  Ok (set_overflow s (fst co') cnt o').

(** Second part: the branch on [m<mem[ij]] *)
Definition put_parallel_commit (s : container) (r : overflow_rec)
  : outcome container :=
  b <-- get_block (blocks s) (o_ij r) ;;
  if o_m r <? mem b then
    b' <-- store b (o_m r) (o_id r) (o_p r) ;;
    Ok (set_blocks s (put_block (blocks s) (o_ij r) b'))
  else overflow_append s r.

(** A call that runs without another thread in between *)
Definition put_parallel_coords (s : container) (i : Z) (x y : float)
    (rest : list float) : outcome container :=
  sr <-- put_parallel_reserve s i x y rest ;;
  match snd sr with
  | Some r => put_parallel_commit (fst sr) r
  | None => Ok (fst sr)
  end.

(** [container_2d::put_parallel(i,x,y)] *)
Definition container_2d_put_parallel (s : container) (i : Z) (x y : float)
  : outcome container :=
  put_parallel_coords s i x y [].

(** ** Reconciliation *)

(** [while(m>=nmem){nmem=2*nmem;}]; [None] when the fuel runs out. *)
Fixpoint double_until (fuel : nat) (m nmem : Z) : option Z :=
  if m >=? nmem then
    match fuel with
    | O => None
    | S f => double_until f m (2 * nmem)
    end
  else Some nmem.

(** The copy of [add_particle_memory] inlined in [put_reconcile_overflow]:
    the new arrays receive the first [mem[ij]] slots of the old ones. *)
Definition grow_block (b : block) (nmem : Z) : outcome block :=
  if nmem >? max_particle_memory then Fatal
  else
    idp <-- arr_copy (new_arr nmem) (id b) (mem b) ;;
    pp <-- arr_copy (new_arr nmem) (p b) (mem b) ;;
    Ok {| co := co b; mem := nmem; id := idp; p := pp |}.

(** One iteration of the loop of [put_reconcile_overflow], on the block of
    the record. *)
Definition reconcile_block (b : block) (r : overflow_rec) : outcome block :=
  b1 <-- (if o_m r >=? mem b then
            match double_until (S (Z.to_nat (o_m r))) (o_m r) (2 * mem b) with
            | Some nmem => grow_block b nmem
            | None => Diverges
            end
          else Ok b) ;;
  store b1 (o_m r) (o_id r) (o_p r).

Definition reconcile_record (bs : list block) (r : overflow_rec)
  : outcome (list block) :=
  b <-- get_block bs (o_ij r) ;;
  b' <-- reconcile_block b r ;;
  Ok (put_block bs (o_ij r) b').

Fixpoint reconcile_loop (rs : list (option overflow_rec)) (bs : list block)
  : outcome (list block) :=
  match rs with
  | [] => Ok bs
  | None :: _ => Undefined
  | Some r :: rs' => bs' <-- reconcile_record bs r ;; reconcile_loop rs' bs'
  end.

(** [container_2d::put_reconcile_overflow()], and the second loop of the
    poly version. *)
Definition put_reconcile_overflow (s : container) : outcome container :=
  if overflowPtCt s <=? alen (overflow s) then
    bs <-- reconcile_loop (take (Z.to_nat (overflowPtCt s)) (overflow s))
                          (blocks s) ;;
    Ok (set_overflow (set_blocks s bs) (overflow_mem_numPt s) 0 (overflow s))
  else Undefined.

(** [container_poly_2d::put_reconcile_overflow()]: the first loop folds
    [max_r] into [max_radius] and zeroes it. *)
Definition container_poly_2d_put_reconcile_overflow (c : container_poly)
  : outcome container_poly :=
  let mr := fold_left fmax (max_r c) (max_radius c) in
  s <-- put_reconcile_overflow (con c) ;;
  Ok {| con := s; max_r := replicate (length (max_r c)) 0%float;
        max_radius := mr |}.

(** ** Clear *)

(** [container_2d::clear()] *)
Definition clear (s : container) : container :=
  set_blocks s (map (fun b => set_co b 0) (blocks s)).

(** [container_poly_2d::clear()] *)
Definition container_poly_2d_clear (c : container_poly) : container_poly :=
  {| con := clear (con c); max_r := max_r c; max_radius := 0%float |}.

(** ** Parallel batches *)

(** A batch of [put_parallel] calls run by several threads is a sequence of
    atomic parts: [Reserve] starts a call (first part), [Commit k] finishes
    the k-th call among those started and not yet finished (second part).
    Every interleaving of the threads is such a sequence; a batch is over
    when no call is left in flight. *)
Inductive action : Type :=
| Reserve (i : Z) (x y : float) (rest : list float)
| Commit (k : nat).

Definition par_step (a : action) (st : container * list overflow_rec)
  : outcome (container * list overflow_rec) :=
  match a with
  | Reserve i x y rest =>
    sr <-- put_parallel_reserve (fst st) i x y rest ;;
    Ok (fst sr, match snd sr with
                | Some r => snd st ++ [r]
                | None => snd st
                end)
  | Commit k =>
    match snd st !! k with
    | Some r =>
      s' <-- put_parallel_commit (fst st) r ;;
      Ok (s', delete k (snd st))
    | None => Ok st
    end
  end.

Fixpoint run_schedule (sched : list action)
    (st : container * list overflow_rec)
  : outcome (container * list overflow_rec) :=
  match sched with
  | [] => Ok st
  | a :: sched' => st' <-- par_step a st ;; run_schedule sched' st'
  end.

(** The poly calls also carry the thread number [ithread] and the radius. *)
Inductive poly_action : Type :=
| PReserve (ithread : Z) (i : Z) (x y r : float)
| PCommit (k : nat).

Record in_flight : Type := {
  f_thread : Z;
  f_r : float;
  f_rec : overflow_rec
}.

(** [if(max_r[ithread]<r) {max_r[ithread]=r;}] *)
Definition update_max_r (mr : list float) (ithread : Z) (r : float)
  : outcome (list float) :=
  match (if 0 <=? ithread then mr !! Z.to_nat ithread else None) with
  | Some a => Ok (<[Z.to_nat ithread := fmax a r]> mr)
  | None => Undefined
  end.

Definition poly_par_step (a : poly_action)
    (st : container_poly * list in_flight)
  : outcome (container_poly * list in_flight) :=
  match a with
  | PReserve t i x y r =>
    sr <-- put_parallel_reserve (con (fst st)) i x y [r] ;;
    Ok (set_con (fst st) (fst sr),
        match snd sr with
        | Some o => snd st ++ [{| f_thread := t; f_r := r; f_rec := o |}]
        | None => snd st
        end)
  | PCommit k =>
    match snd st !! k with
    | Some f =>
      s' <-- put_parallel_commit (con (fst st)) (f_rec f) ;;
      mr <-- update_max_r (max_r (fst st)) (f_thread f) (f_r f) ;;
      Ok ({| con := s'; max_r := mr; max_radius := max_radius (fst st) |},
          delete k (snd st))
    | None => Ok st
    end
  end.

Fixpoint poly_run_schedule (sched : list poly_action)
    (st : container_poly * list in_flight)
  : outcome (container_poly * list in_flight) :=
  match sched with
  | [] => Ok st
  | a :: sched' => st' <-- poly_par_step a st ;; poly_run_schedule sched' st'
  end.

(** [container_poly_2d::put_parallel(i,x,y,r)] run by thread [ithread]
    without another thread in between *)
Definition container_poly_2d_put_parallel (c : container_poly)
    (ithread i : Z) (x y r : float) : outcome container_poly :=
  st <-- poly_run_schedule [PReserve ithread i x y r; PCommit 0] (c, []) ;;
  Ok (fst st).

(** ** Point location *)

(** [particle_record_2d], the result of the search. *)
Record particle_record_2d : Type := {
  w_ij : Z; w_l : Z; w_di : Z; w_dj : Z
}.

Section PointLocation.

(** [voro_compute_2d::find_voronoi_cell(x,y,ci,cj,ij,w,mrs)] lives in a
    file that is not part of this development; it is a parameter. *)
Variable vc_find_voronoi_cell :
  container -> float -> float -> Z -> Z -> Z -> particle_record_2d.

Definition image_shift (prd : bool) (a c d n : Z) : Z :=
  if prd then
    let c' := c + d in
    if (c' <? 0) || (c' >=? n) then a + step_div c' n else a
  else a.

(** [find_voronoi_cell(x,y,rx,ry,pid)] of both containers: [Ok None] is
    the [false] return. *)
Definition find_voronoi_cell (s : container) (x y : float)
  : outcome (option (float * float * Z)) :=
  match remap (geo s) x y with
  | None => Ok None
  | Some r =>
    let w := vc_find_voronoi_cell s (r_x r) (r_y r) (r_ci r) (r_cj r)
                                  (r_ij r) in
    if w_ij w =? -1 then Ok None
    else
      let g := geo s in
      let ai := image_shift (x_prd g) (r_ai r) (r_ci r) (w_di w) (nx g) in
      let aj := image_shift (y_prd g) (r_aj r) (r_cj r) (w_dj w) (ny g) in
      match blk s (w_ij w) with
      | Some b =>
        match arr_get (p b) (w_l w), arr_get (id b) (w_l w) with
        | Some (px :: py :: _), Some pid =>
          Ok (Some ((px + of_int ai * (bx g - ax g))%float,
                    (py + of_int aj * (by_ g - ay g))%float, pid))
        | _, _ => Undefined
        end
      | None => Undefined
      end
  end.

End PointLocation.

(** ** Readings of a state *)

(** The particle held by slot [m] of a block. *)
Definition slot (b : block) (m : Z) : option (Z * list float) :=
  match arr_get (id b) m, arr_get (p b) m with
  | Some n, Some cs => Some (n, cs)
  | _, _ => None
  end.

(** The stored particles of a block, slots [0..co). *)
Definition entries (b : block) : list (option (Z * list float)) :=
  slot b <$> seqZ 0 (co b).

Definition sum_co (bs : list block) : Z :=
  foldr (fun b acc => co b + acc) 0 bs.

Definition total_co (s : container) : Z := sum_co (blocks s).

(** * Properties *)

(** ** Remapping *)

Lemma range_test_false (i n : Z) :
  (i <? 0) || (i >=? n) = false <-> 0 <= i < n.
Proof.
  rewrite orb_false_iff, Z.ltb_ge, Z.geb_leb, Z.leb_gt. lia.
Qed.

Lemma range_test_true (i n : Z) :
  (i <? 0) || (i >=? n) = true <-> ~ (0 <= i < n).
Proof.
  rewrite <- range_test_false.
  destruct ((i <? 0) || (i >=? n)); intuition congruence.
Qed.

(** The raw block index of a coordinate along one axis. *)
Definition axis_index (lo sp v : float) : Z := step_int ((v - lo) * sp)%float.

(** [put_remap] as one case distinction on the two raw indices. *)
Lemma put_remap_cases (g : geometry) (u v : float) :
  put_remap g u v =
    let iu := axis_index (ax g) (xsp g) u in
    let jv := axis_index (ay g) (ysp g) v in
    if negb (x_prd g) && ((iu <? 0) || (iu >=? nx g)) then None
    else if negb (y_prd g) && ((jv <? 0) || (jv >=? ny g)) then None
    else Some ((if x_prd g then iu mod nx g else iu)
               + nx g * (if y_prd g then jv mod ny g else jv),
               if x_prd g
               then (u + boxx g * of_int (iu mod nx g - iu))%float else u,
               if y_prd g
               then (v + boxy g * of_int (jv mod ny g - jv))%float else v).
Proof.
  unfold put_remap, axis_index, step_mod.
  destruct (x_prd g), (y_prd g); simpl;
    repeat match goal with
           | |- context [if ?b || ?c then _ else _] => destruct (b || c)
           end; reflexivity.
Qed.

Lemma put_remap_range (g : geometry) (x y : float) (ij : Z) (x' y' : float) :
  0 < nx g -> 0 < ny g ->
  put_remap g x y = Some (ij, x', y') -> 0 <= ij < nx g * ny g.
Proof.
  intros Hnx Hny. rewrite put_remap_cases. cbv zeta.
  set (i := axis_index (ax g) (xsp g) x).
  set (j := axis_index (ay g) (ysp g) y).
  pose proof (Z.mod_pos_bound i (nx g) Hnx) as Hi.
  pose proof (Z.mod_pos_bound j (ny g) Hny) as Hj.
  destruct ((i <? 0) || (i >=? nx g)) eqn:Ei;
    [apply range_test_true in Ei | apply range_test_false in Ei];
    (destruct ((j <? 0) || (j >=? ny g)) eqn:Ej;
     [apply range_test_true in Ej | apply range_test_false in Ej]);
    destruct (x_prd g), (y_prd g); simpl; intros H;
    try discriminate; injection H as <- _ _; nia.
Qed.

(** The conversions of [checked_put_remap] succeed inside the range. *)
Lemma to_int_Ok (z : Z) : is_int z -> to_int z = Ok z.
Proof.
  intros [H1 H2]. unfold to_int.
  replace (int_min <=? z) with true by (symmetry; apply Z.leb_le; exact H1).
  replace (z <=? int_max) with true by (symmetry; apply Z.leb_le; exact H2).
  reflexivity.
Qed.

Lemma checked_step_int_Ok (a : float) :
  finite a -> is_int (step_int a) -> checked_step_int a = Ok (step_int a).
Proof.
  intros Hf Hi. unfold checked_step_int, finite in *.
  destruct (Prim2SF a); try destruct Hf; apply to_int_Ok; exact Hi.
Qed.

(** Where the doubles are finite and the integers fit in an [int],
    [checked_put_remap] returns what [put_remap] computes. *)
Lemma checked_put_remap_defined (g : geometry) (x y : float) :
  0 < nx g -> 0 < ny g -> nx g * ny g <= int_max ->
  let i := axis_index (ax g) (xsp g) x in
  let j := axis_index (ay g) (ysp g) y in
  finite ((x - ax g) * xsp g) -> is_int i ->
  (x_prd g = true -> is_int (i mod nx g - i)) ->
  finite ((y - ay g) * ysp g) -> is_int j ->
  (y_prd g = true -> is_int (j mod ny g - j)) ->
  checked_put_remap g x y = Ok (put_remap g x y).
Proof.
  intros Hnx Hny Hnxy i j Hfx Hi Hdx Hfy Hj Hdy.
  pose proof (Z.mod_pos_bound i (nx g) Hnx) as Hmi.
  pose proof (Z.mod_pos_bound j (ny g) Hny) as Hmj.
  assert (Hfit : forall a b, 0 <= a < nx g -> 0 <= b < ny g ->
            to_int (nx g * b) = Ok (nx g * b) /\
            to_int (a + nx g * b) = Ok (a + nx g * b)).
  { intros a b Ha Hb. unfold int_max in Hnxy.
    split; apply to_int_Ok; unfold is_int, int_min, int_max; nia. }
  unfold checked_put_remap, put_remap, step_mod.
  rewrite (checked_step_int_Ok _ Hfx Hi). cbn [obind].
  fold (axis_index (ax g) (xsp g) x). fold i.
  rewrite (checked_step_int_Ok _ Hfy Hj).
  fold (axis_index (ay g) (ysp g) y). fold j.
  destruct (x_prd g) eqn:Ex.
  - rewrite (to_int_Ok _ (Hdx eq_refl)). cbn [obind].
    destruct (y_prd g) eqn:Ey.
    + rewrite (to_int_Ok _ (Hdy eq_refl)). cbn [obind].
      destruct (Hfit (i mod nx g) (j mod ny g) Hmi Hmj) as [-> H2].
      cbn [obind]. rewrite H2. reflexivity.
    + destruct ((j <? 0) || (j >=? ny g)) eqn:Tj; [reflexivity|].
      apply range_test_false in Tj. cbn [obind].
      destruct (Hfit (i mod nx g) j Hmi Tj) as [-> H2].
      cbn [obind]. rewrite H2. reflexivity.
  - destruct ((i <? 0) || (i >=? nx g)) eqn:Ti; [reflexivity|].
    apply range_test_false in Ti. cbn [obind].
    destruct (y_prd g) eqn:Ey.
    + rewrite (to_int_Ok _ (Hdy eq_refl)). cbn [obind].
      destruct (Hfit i (j mod ny g) Ti Hmj) as [-> H2].
      cbn [obind]. rewrite H2. reflexivity.
    + destruct ((j <? 0) || (j >=? ny g)) eqn:Tj; [reflexivity|].
      apply range_test_false in Tj. cbn [obind].
      destruct (Hfit i j Ti Tj) as [-> H2].
      cbn [obind]. rewrite H2. reflexivity.
Qed.

(** A rejection in the x direction returns before the y coordinate is
    looked at. *)
Lemma checked_put_remap_reject_x (g : geometry) (x y : float) :
  let i := axis_index (ax g) (xsp g) x in
  x_prd g = false -> finite ((x - ax g) * xsp g) -> is_int i ->
  ~ (0 <= i < nx g) -> checked_put_remap g x y = Ok None.
Proof.
  intros i Ex Hfx Hi Hout. unfold checked_put_remap.
  rewrite (checked_step_int_Ok _ Hfx Hi). cbn [obind].
  fold (axis_index (ax g) (xsp g) x). fold i. rewrite Ex.
  replace ((i <? 0) || (i >=? nx g)) with true
    by (symmetry; apply range_test_true; exact Hout).
  reflexivity.
Qed.

(** C3, as the code has it, for positions whose scaled coordinates are
    finite and whose indices fit in an [int]: [put_remap] takes the floor
    indices i and j; a periodic axis takes i modulo nx (in [0,nx)) and adds
    boxx*(imod-i) to x; the call is rejected exactly when a non-periodic axis
    has its index outside its range; an accepted call returns i + nx*j.  A
    particle at x=bx on a non-periodic axis is rejected whenever the index
    computed for bx is at least nx. *)
Theorem put_remap_spec (g : geometry) (x y : float) :
  0 < nx g -> 0 < ny g -> nx g * ny g <= int_max ->
  let i := axis_index (ax g) (xsp g) x in
  let j := axis_index (ay g) (ysp g) y in
  let i' := if x_prd g then i mod nx g else i in
  let j' := if y_prd g then j mod ny g else j in
  let x' := if x_prd g then (x + boxx g * of_int (i' - i))%float else x in
  let y' := if y_prd g then (y + boxy g * of_int (j' - j))%float else y in
  finite ((x - ax g) * xsp g) -> is_int i -> is_int (i' - i) ->
  finite ((y - ay g) * ysp g) -> is_int j -> is_int (j' - j) ->
  checked_put_remap g x y = Ok (put_remap g x y) /\
  (x_prd g = true -> 0 <= i' < nx g) /\
  (y_prd g = true -> 0 <= j' < ny g) /\
  (checked_put_remap g x y = Ok None <->
     (x_prd g = false /\ ~ (0 <= i < nx g)) \/
     (y_prd g = false /\ ~ (0 <= j < ny g))) /\
  (checked_put_remap g x y <> Ok None ->
     checked_put_remap g x y = Ok (Some (i' + nx g * j', x', y'))) /\
  (x_prd g = false ->
   finite ((bx g - ax g) * xsp g) ->
   is_int (axis_index (ax g) (xsp g) (bx g)) ->
   nx g <= axis_index (ax g) (xsp g) (bx g) ->
   checked_put_remap g (bx g) y = Ok None) /\
  (y_prd g = false ->
   finite ((by_ g - ay g) * ysp g) ->
   is_int (axis_index (ay g) (ysp g) (by_ g)) ->
   ny g <= axis_index (ay g) (ysp g) (by_ g) ->
   checked_put_remap g x (by_ g) = Ok None).
Proof.
  intros Hnx Hny Hnxy i j i' j' x' y' Hfx Hii Hdx Hfy Hij Hdy.
  assert (Hi : 0 <= i mod nx g < nx g) by (apply Z.mod_pos_bound; lia).
  assert (Hj : 0 <= j mod ny g < ny g) by (apply Z.mod_pos_bound; lia).
  assert (Hdx' : x_prd g = true -> is_int (i mod nx g - i))
    by (intros E; subst i'; rewrite E in Hdx; exact Hdx).
  assert (Hdy' : y_prd g = true -> is_int (j mod ny g - j))
    by (intros E; subst j'; rewrite E in Hdy; exact Hdy).
  pose proof (checked_put_remap_defined g x y Hnx Hny Hnxy Hfx Hii Hdx'
                Hfy Hij Hdy') as Hdef.
  split; [exact Hdef|]. rewrite Hdef.
  split; [intros E; subst i'; rewrite E; exact Hi|].
  split; [intros E; subst j'; rewrite E; exact Hj|].
  pose proof (put_remap_cases g) as Hgen.
  split; [|split; [|split]].
  - rewrite Hgen. fold i j. cbv zeta.
    destruct ((i <? 0) || (i >=? nx g)) eqn:Ei;
      [apply range_test_true in Ei | apply range_test_false in Ei];
      (destruct ((j <? 0) || (j >=? ny g)) eqn:Ej;
       [apply range_test_true in Ej | apply range_test_false in Ej]);
      destruct (x_prd g), (y_prd g); simpl;
      intuition (try discriminate; try lia).
  - intros Hacc. revert Hacc. rewrite Hgen. fold i j. cbv zeta.
    subst i' j' x' y'.
    destruct (x_prd g), (y_prd g); simpl;
      repeat match goal with
             | |- context [if ?b || ?c then _ else _] => destruct (b || c)
             end; intros Hacc; try reflexivity; exfalso; apply Hacc; reflexivity.
  - intros E Hfb Hib Hb.
    apply checked_put_remap_reject_x; [exact E|exact Hfb|exact Hib|lia].
  - intros E Hfb Hib Hb.
    rewrite (checked_put_remap_defined g x (by_ g) Hnx Hny Hnxy Hfx Hii Hdx'
               Hfb Hib); [|intros E'; congruence].
    f_equal. rewrite Hgen. cbv zeta. rewrite E. simpl.
    replace ((axis_index (ay g) (ysp g) (by_ g) <? 0)
             || (axis_index (ay g) (ysp g) (by_ g) >=? ny g)) with true.
    + destruct (negb (x_prd g) && _); reflexivity.
    + symmetry. apply range_test_true. lia.
Qed.

Lemma put_remap_spec_witness :
  checked_put_remap (mk_geometry 0 1 0 1 4 4 true false) 1.5 0.5
  = Ok (Some (10, 0.5%float, 0.5%float)).
Proof.
  destruct (put_remap_spec (mk_geometry 0 1 0 1 4 4 true false) 1.5 0.5)
    as (_ & _ & _ & _ & H & _);
    [vm_compute; intuition discriminate..|].
  rewrite H.
  - vm_compute. reflexivity.
  - vm_compute. discriminate.
Defined.

(** On the unit square cut into 93 columns, with no periodic axis, the
    particle at x = bx = 1 is accepted: (bx-ax)*xsp evaluates just below 93
    and the particle goes to column 92. *)
Lemma put_remap_upper_face_accepted :
  let g := mk_geometry 0 1 0 1 93 1 false false in
  x_prd g = false /\
  put_remap g (bx g) 0.5 = Some (92, 1%float, 0.5%float) /\
  checked_put_remap g (bx g) 0.5 = Ok (Some (92, 1%float, 0.5%float)).
Proof. vm_compute. repeat split; reflexivity. Qed.

(** C7, as the code has it: a successful [remap] leaves a coordinate whose
    index is in range untouched with image offset 0; otherwise the axis is
    periodic, the offset is the floor quotient of the index by the block
    count and the coordinate is x - ai*(bx-ax) as evaluated in double
    arithmetic; the block indices are the raw ones minus ai*nx and aj*ny, lie
    in range, and ij = ci + nx*cj. *)
Theorem remap_spec (g : geometry) (x y : float) (r : remapped) :
  0 < nx g -> 0 < ny g ->
  remap g x y = Some r ->
  let ci := axis_index (ax g) (xsp g) x in
  let cj := axis_index (ay g) (ysp g) y in
  (0 <= ci < nx g -> r_ai r = 0 /\ r_x r = x) /\
  (~ (0 <= ci < nx g) ->
     x_prd g = true /\ r_ai r = ci / nx g /\
     r_x r = (x - of_int (r_ai r) * (bx g - ax g))%float) /\
  (0 <= cj < ny g -> r_aj r = 0 /\ r_y r = y) /\
  (~ (0 <= cj < ny g) ->
     y_prd g = true /\ r_aj r = cj / ny g /\
     r_y r = (y - of_int (r_aj r) * (by_ g - ay g))%float) /\
  r_ci r = ci - r_ai r * nx g /\
  r_cj r = cj - r_aj r * ny g /\
  0 <= r_ci r < nx g /\
  0 <= r_cj r < ny g /\
  r_ij r = r_ci r + nx g * r_cj r.
Proof.
  intros Hnx Hny Hr ci cj.
  assert (Hci : 0 <= ci - ci / nx g * nx g < nx g).
  { pose proof (Z.mod_pos_bound ci (nx g) Hnx).
    pose proof (Z.div_mod ci (nx g)). lia. }
  assert (Hcj : 0 <= cj - cj / ny g * ny g < ny g).
  { pose proof (Z.mod_pos_bound cj (ny g) Hny).
    pose proof (Z.div_mod cj (ny g)). lia. }
  revert Hr. unfold remap, step_div. fold (axis_index (ax g) (xsp g) x).
  fold (axis_index (ay g) (ysp g) y). fold ci cj.
  destruct ((ci <? 0) || (ci >=? nx g)) eqn:Ei;
    [apply range_test_true in Ei | apply range_test_false in Ei];
    (destruct ((cj <? 0) || (cj >=? ny g)) eqn:Ej;
     [apply range_test_true in Ej | apply range_test_false in Ej]);
    destruct (x_prd g), (y_prd g); simpl; intros Hr;
    try discriminate; injection Hr as <-; simpl;
    repeat split; try tauto; try lia.
Qed.

Lemma remap_spec_witness :
  exists r, remap (mk_geometry 0 1 0 1 4 4 true false) 1.5 0.5 = Some r /\
            r_ai r = 1 /\ r_ci r = 2 /\ r_ij r = 10.
Proof.
  eexists. split; [vm_compute; reflexivity|].
  destruct (remap_spec (mk_geometry 0 1 0 1 4 4 true false) 1.5 0.5
              {| r_ai := 1; r_aj := 0; r_ci := 2; r_cj := 2;
                 r_x := 0.5; r_y := 0.5; r_ij := 10 |})
    as (_ & H & _ & _ & _ & _ & _ & _ & Hij).
  - reflexivity.
  - reflexivity.
  - vm_compute. reflexivity.
  - destruct H as (_ & Hai & _).
    + vm_compute. intros [_ Hlt]. discriminate Hlt.
    + split; [exact Hai|]. split; [reflexivity|exact Hij].
Defined.

(** On the unit square, periodic in x, the query x = -0.1 is remapped with
    ai = -1 to x' = 0.9; adding ai*(bx-ax) back gives -0.09999999999999998,
    which is not the input. *)
Lemma remap_identity_rounds :
  let g := mk_geometry 0 1 0 1 1 1 true true in
  let x := (-0x1.999999999999ap-4)%float in
  exists r, remap g x 0.5 = Some r /\
            (r_x r + of_int (r_ai r) * (bx g - ax g))%float <> x.
Proof.
  eexists. split; [vm_compute; reflexivity|].
  vm_compute. discriminate.
Qed.

(** ** Arrays *)

Section Arrays.
Context {A : Type}.
Implicit Types (a : arr A) (i n : Z) (v : A).

Lemma in_range_true a i : in_range a i = true <-> 0 <= i < alen a.
Proof. unfold in_range. rewrite andb_true_iff, Z.leb_le, Z.ltb_lt. tauto. Qed.

Lemma in_range_false a i : in_range a i = false <-> ~ (0 <= i < alen a).
Proof.
  rewrite <- in_range_true. destruct (in_range a i); intuition congruence.
Qed.

Lemma arr_get_outside a i : ~ (0 <= i < alen a) -> arr_get a i = None.
Proof. intros H. unfold arr_get. apply in_range_false in H. now rewrite H. Qed.

Lemma arr_get_inside a i v : arr_get a i = Some v -> 0 <= i < alen a.
Proof.
  unfold arr_get. destruct (in_range a i) eqn:E; [|discriminate].
  intros _. now apply in_range_true.
Qed.

Lemma alen_new n : 0 <= n -> alen (new_arr (A:=A) n) = n.
Proof. intros H. unfold alen, new_arr. rewrite length_replicate. lia. Qed.

Lemma arr_get_new n i : arr_get (new_arr (A:=A) n) i = None.
Proof.
  unfold arr_get. destruct (in_range _ i) eqn:E; [|reflexivity].
  apply in_range_true in E. unfold alen, new_arr in *.
  rewrite length_replicate in E.
  rewrite lookup_replicate_2 by lia. reflexivity.
Qed.

Lemma arr_set_Ok a i v a' :
  arr_set a i v = Ok a' ->
  0 <= i < alen a /\ alen a' = alen a /\
  arr_get a' i = Some v /\
  (forall k, k <> i -> arr_get a' k = arr_get a k).
Proof.
  unfold arr_set. destruct (in_range a i) eqn:E; [|discriminate].
  intros [= <-]. apply in_range_true in E.
  assert (Hlen : alen (<[Z.to_nat i:=Some v]> a) = alen a).
  { unfold alen. now rewrite length_insert. }
  split; [exact E|]. split; [exact Hlen|]. split.
  - unfold arr_get.
    replace (in_range (<[Z.to_nat i:=Some v]> a) i) with true
      by (symmetry; apply in_range_true; lia).
    rewrite list_lookup_insert_eq; [reflexivity|]. unfold alen in E. lia.
  - intros k Hk. unfold arr_get.
    replace (in_range (<[Z.to_nat i:=Some v]> a) k) with (in_range a k)
      by (unfold in_range; now rewrite Hlen).
    destruct (in_range a k) eqn:Ek; [|reflexivity].
    apply in_range_true in Ek.
    rewrite list_lookup_insert_ne by lia. reflexivity.
Qed.

Lemma arr_set_inside a i v :
  0 <= i < alen a -> exists a', arr_set a i v = Ok a'.
Proof.
  intros H. unfold arr_set. apply in_range_true in H. rewrite H. eauto.
Qed.

Lemma arr_set_outside a i v :
  ~ (0 <= i < alen a) -> arr_set a i v = Undefined.
Proof.
  intros H. unfold arr_set. apply in_range_false in H. now rewrite H.
Qed.

(** Copying the first [n] cells into a fresh array of [c] cells. *)
Lemma arr_copy_new_Ok a c n a' :
  arr_copy (new_arr c) a n = Ok a' ->
  n <= alen a /\ n <= alen a' /\ alen a' = Z.max 0 c /\
  (forall k, k < n -> arr_get a' k = arr_get a k) /\
  (forall k, n <= k -> arr_get a' k = None).
Proof.
  unfold arr_copy.
  destruct ((n <=? alen a) && (n <=? alen (new_arr c))) eqn:E; [|discriminate].
  intros [= <-]. apply andb_true_iff in E as [E1 E2].
  apply Z.leb_le in E1, E2.
  assert (Hc : alen (new_arr (A:=A) c) = Z.max 0 c).
  { unfold alen, new_arr. rewrite length_replicate. lia. }
  rewrite Hc in E2.
  assert (Hlen : alen (take (Z.to_nat n) a ++ drop (Z.to_nat n) (new_arr c))
                 = Z.max 0 c).
  { unfold alen in *. rewrite length_app, length_take, length_drop.
    unfold new_arr. rewrite length_replicate. lia. }
  split; [exact E1|]. split; [lia|]. split; [exact Hlen|]. split.
  - intros k Hk. unfold arr_get, in_range. rewrite Hlen.
    destruct (0 <=? k) eqn:E0; simpl; [|reflexivity].
    apply Z.leb_le in E0.
    replace (k <? Z.max 0 c) with true by (symmetry; apply Z.ltb_lt; lia).
    replace (k <? alen a) with true by (symmetry; apply Z.ltb_lt; lia).
    rewrite lookup_app_l.
    + rewrite lookup_take_lt by lia. reflexivity.
    + rewrite length_take. unfold alen in E1. lia.
  - intros k Hk. unfold arr_get.
    destruct (in_range _ k) eqn:Ek; [|reflexivity].
    apply in_range_true in Ek. rewrite Hlen in Ek.
    destruct (Z_lt_le_dec n 0) as [Hn|Hn].
    + replace (Z.to_nat n) with 0%nat by lia.
      rewrite take_0, drop_0. simpl. unfold new_arr.
      rewrite lookup_replicate_2 by lia. reflexivity.
    + rewrite lookup_app_r; rewrite length_take; unfold alen in E1; [|lia].
      rewrite lookup_drop. unfold new_arr.
      rewrite lookup_replicate_2 by lia. reflexivity.
Qed.

Lemma arr_copy_new_inside a c n :
  n <= alen a -> n <= c -> exists a', arr_copy (new_arr c) a n = Ok a'.
Proof.
  intros H1 H2. unfold arr_copy.
  replace (n <=? alen a) with true by (symmetry; apply Z.leb_le; lia).
  replace (n <=? alen (new_arr (A:=A) c)) with true.
  - simpl. eauto.
  - symmetry. apply Z.leb_le. unfold alen, new_arr.
    rewrite length_replicate. lia.
Qed.

End Arrays.

(** ** Blocks *)

(** The arrays of a block have [mem] slots, and [mem] is positive. *)
Record block_ok (b : block) : Prop := {
  ok_mem : 1 <= mem b;
  ok_id : alen (id b) = mem b;
  ok_p : alen (p b) = mem b;
  ok_co : 0 <= co b
}.

Lemma new_block_ok (init_mem : Z) : 1 <= init_mem -> block_ok (new_block init_mem).
Proof.
  intros H. split; simpl; try lia; apply alen_new; lia.
Qed.

Lemma slot_inside (b : block) (m : Z) (e : Z * list float) :
  block_ok b -> slot b m = Some e -> 0 <= m < mem b.
Proof.
  intros Hb. unfold slot. destruct (arr_get (id b) m) eqn:E; [|discriminate].
  intros _. apply arr_get_inside in E. rewrite (ok_id _ Hb) in E. exact E.
Qed.

Lemma slot_outside (b : block) (m : Z) :
  block_ok b -> ~ (0 <= m < mem b) -> slot b m = None.
Proof.
  intros Hb Hm. unfold slot. rewrite arr_get_outside; [reflexivity|].
  now rewrite (ok_id _ Hb).
Qed.

Lemma slot_set_co (b : block) (c m : Z) : slot (set_co b c) m = slot b m.
Proof. reflexivity. Qed.

Lemma block_ok_set_co (b : block) (c : Z) :
  block_ok b -> 0 <= c -> block_ok (set_co b c).
Proof. intros [H1 H2 H3 H4] Hc. split; simpl; assumption. Qed.

Lemma store_Ok (b b' : block) (m n : Z) (cs : list float) :
  store b m n cs = Ok b' -> block_ok b ->
  block_ok b' /\ co b' = co b /\ mem b' = mem b /\ 0 <= m < mem b /\
  slot b' m = Some (n, cs) /\
  (forall k, k <> m -> slot b' k = slot b k).
Proof.
  unfold store. intros H Hb.
  destruct (arr_set (id b) m n) as [idp| | |] eqn:E1; try discriminate.
  destruct (arr_set (p b) m cs) as [pp| | |] eqn:E2; try discriminate.
  simpl in H. injection H as <-.
  apply arr_set_Ok in E1 as (R1 & L1 & G1 & O1).
  apply arr_set_Ok in E2 as (R2 & L2 & G2 & O2).
  destruct Hb as [H1 H2 H3 H4].
  split; [split; simpl; congruence|].
  repeat split; simpl; try lia.
  - unfold slot. simpl. now rewrite G1, G2.
  - intros k Hk. unfold slot. simpl. now rewrite O1, O2.
Qed.

Lemma store_inside (b : block) (m n : Z) (cs : list float) :
  block_ok b -> 0 <= m < mem b -> exists b', store b m n cs = Ok b'.
Proof.
  intros [H1 H2 H3 H4] Hm. unfold store.
  destruct (arr_set_inside (id b) m n) as [idp ->]; [lia|].
  destruct (arr_set_inside (p b) m cs) as [pp ->]; [lia|].
  simpl. eauto.
Qed.

Lemma store_outside (b : block) (m n : Z) (cs : list float) :
  block_ok b -> ~ (0 <= m < mem b) -> store b m n cs = Undefined.
Proof.
  intros [H1 H2 H3 H4] Hm. unfold store.
  rewrite arr_set_outside; [reflexivity|]. now rewrite H2.
Qed.

Lemma grow_block_Ok (b b' : block) (c : Z) :
  grow_block b c = Ok b' -> block_ok b -> mem b <= c ->
  block_ok b' /\ co b' = co b /\ mem b' = c /\ c <= max_particle_memory /\
  (forall k, slot b' k = slot b k).
Proof.
  unfold grow_block. intros H Hb Hc.
  destruct (c >? max_particle_memory) eqn:Emax; [discriminate|].
  destruct (arr_copy (new_arr c) (id b) (mem b)) as [idp| | |] eqn:E1;
    try discriminate.
  destruct (arr_copy (new_arr c) (p b) (mem b)) as [pp| | |] eqn:E2;
    try discriminate.
  simpl in H. injection H as <-.
  apply arr_copy_new_Ok in E1 as (A1 & A2 & A3 & A4 & A5).
  apply arr_copy_new_Ok in E2 as (B1 & B2 & B3 & B4 & B5).
  pose proof Hb as [H1 H2 H3 H4].
  split; [split; simpl; lia|].
  repeat split; simpl; try lia.
  intros k. unfold slot. simpl.
  destruct (Z_lt_le_dec k (mem b)) as [Hk|Hk].
  - now rewrite A4, B4.
  - rewrite A5 by lia. rewrite (arr_get_outside (id b)) by lia. reflexivity.
Qed.

Lemma grow_block_cases (b : block) (c : Z) :
  block_ok b -> mem b <= c ->
  (c <= max_particle_memory -> exists b', grow_block b c = Ok b') /\
  (max_particle_memory < c -> grow_block b c = Fatal).
Proof.
  intros [H1 H2 H3 H4] Hc. unfold grow_block. split; intros Hm.
  - replace (c >? max_particle_memory) with false by (symmetry; lia).
    destruct (arr_copy_new_inside (id b) c (mem b)) as [idp ->]; try lia.
    destruct (arr_copy_new_inside (p b) c (mem b)) as [pp ->]; try lia.
    simpl. eauto.
  - replace (c >? max_particle_memory) with true by (symmetry; lia).
    reflexivity.
Qed.

Lemma add_particle_memory_Ok (b b' : block) :
  add_particle_memory b = Ok b' -> block_ok b -> co b <= mem b ->
  block_ok b' /\ co b' = co b /\ mem b' = 2 * mem b /\
  2 * mem b <= max_particle_memory /\
  (forall k, k < co b -> slot b' k = slot b k).
Proof.
  unfold add_particle_memory. rewrite Z.shiftl_mul_pow2 by lia.
  change (2 ^ 1) with 2. replace (mem b * 2) with (2 * mem b) by lia.
  intros H Hb Hc.
  destruct (2 * mem b >? max_particle_memory) eqn:Emax; [discriminate|].
  destruct (arr_copy (new_arr (2 * mem b)) (id b) (co b)) as [idp| | |] eqn:E1;
    try discriminate.
  destruct (arr_copy (new_arr (2 * mem b)) (p b) (co b)) as [pp| | |] eqn:E2;
    try discriminate.
  simpl in H. injection H as <-.
  apply arr_copy_new_Ok in E1 as (A1 & A2 & A3 & A4 & A5).
  apply arr_copy_new_Ok in E2 as (B1 & B2 & B3 & B4 & B5).
  pose proof Hb as [H1 H2 H3 H4].
  split; [split; simpl; lia|].
  repeat split; simpl; try lia.
  intros k Hk. unfold slot. simpl. now rewrite A4, B4.
Qed.

Lemma add_particle_memory_cases (b : block) :
  block_ok b -> co b <= mem b ->
  (2 * mem b <= max_particle_memory -> exists b', add_particle_memory b = Ok b') /\
  (max_particle_memory < 2 * mem b -> add_particle_memory b = Fatal).
Proof.
  intros [H1 H2 H3 H4] Hc. unfold add_particle_memory.
  rewrite Z.shiftl_mul_pow2 by lia.
  change (2 ^ 1) with 2. replace (mem b * 2) with (2 * mem b) by lia.
  split; intros Hm.
  - replace (2 * mem b >? max_particle_memory) with false by (symmetry; lia).
    destruct (arr_copy_new_inside (id b) (2 * mem b) (co b)) as [idp ->];
      try lia.
    destruct (arr_copy_new_inside (p b) (2 * mem b) (co b)) as [pp ->];
      try lia.
    simpl. eauto.
  - replace (2 * mem b >? max_particle_memory) with true by (symmetry; lia).
    reflexivity.
Qed.

(** ** The doubling loop *)

Lemma double_until_spec (fuel : nat) :
  forall m c, 1 <= c -> m < c * 2 ^ Z.of_nat fuel ->
  exists j : nat,
    double_until fuel m c = Some (c * 2 ^ Z.of_nat j) /\
    m < c * 2 ^ Z.of_nat j /\
    (j = 0%nat \/ c * 2 ^ Z.of_nat j <= 2 * m).
Proof.
  induction fuel as [|f IH]; intros m c Hc Hm; simpl double_until.
  - change (2 ^ Z.of_nat 0) with 1 in Hm.
    replace (m >=? c) with false by (symmetry; lia).
    exists 0%nat. change (2 ^ Z.of_nat 0) with 1. rewrite Z.mul_1_r.
    split; [reflexivity|]. split; [lia|]. left; reflexivity.
  - destruct (m >=? c) eqn:E.
    + assert (Hmc : c <= m) by lia.
      rewrite Nat2Z.inj_succ, Z.pow_succ_r in Hm by lia.
      destruct (IH m (2 * c)) as (j & Hj & Hlt & Hmin); [lia|lia|].
      exists (S j). rewrite Nat2Z.inj_succ, Z.pow_succ_r by lia.
      replace (c * (2 * 2 ^ Z.of_nat j)) with (2 * c * 2 ^ Z.of_nat j) by lia.
      split; [exact Hj|]. split; [exact Hlt|]. right.
      destruct Hmin as [->|Hmin]; [|exact Hmin].
      change (2 ^ Z.of_nat 0) with 1. lia.
    + exists 0%nat. change (2 ^ Z.of_nat 0) with 1. rewrite Z.mul_1_r.
      split; [reflexivity|]. split; [lia|]. left; reflexivity.
Qed.

(** The loop of [put_reconcile_overflow] exits: from a positive capacity
    that does not exceed m, it returns a doubling of it in (m, 2m]. *)
Lemma reconcile_target (c m : Z) :
  1 <= c -> c <= m ->
  exists j : nat,
    double_until (S (Z.to_nat m)) m (2 * c) = Some (c * 2 ^ Z.of_nat (S j)) /\
    m < c * 2 ^ Z.of_nat (S j) <= 2 * m.
Proof.
  intros Hc Hm.
  assert (Hpow : m < 2 ^ Z.of_nat (S (Z.to_nat m))).
  { rewrite Nat2Z.inj_succ, Z2Nat.id by lia.
    pose proof (Z.pow_gt_lin_r 2 (Z.succ m)). lia. }
  destruct (double_until_spec (S (Z.to_nat m)) m (2 * c)) as (j & Hj & Hlt & Hmin).
  - lia.
  - nia.
  - exists j. rewrite Nat2Z.inj_succ, Z.pow_succ_r by lia.
    replace (c * (2 * 2 ^ Z.of_nat j)) with (2 * c * 2 ^ Z.of_nat j) by lia.
    split; [exact Hj|]. split; [exact Hlt|].
    destruct Hmin as [->|Hmin]; [|exact Hmin].
    change (2 ^ Z.of_nat 0) with 1. lia.
Qed.

Lemma reconcile_block_Ok (b b' : block) (r : overflow_rec) :
  reconcile_block b r = Ok b' -> block_ok b ->
  block_ok b' /\ co b' = co b /\
  slot b' (o_m r) = Some (o_id r, o_p r) /\
  (forall k, k <> o_m r -> slot b' k = slot b k) /\
  0 <= o_m r < mem b' /\
  ((o_m r < mem b /\ mem b' = mem b) \/
   (mem b <= o_m r /\ mem b' <= 2 * o_m r /\
    mem b' <= max_particle_memory /\
    exists j : nat, mem b' = mem b * 2 ^ Z.of_nat (S j))).
Proof.
  unfold reconcile_block. intros H Hb.
  destruct (o_m r >=? mem b) eqn:E.
  - assert (Hm : mem b <= o_m r) by lia.
    destruct (reconcile_target (mem b) (o_m r)) as (j & Hj & Hr);
      [apply (ok_mem _ Hb)|exact Hm|].
    rewrite Hj in H.
    destruct (grow_block b _) as [b1| | |] eqn:Eg; try discriminate.
    simpl in H.
    apply grow_block_Ok in Eg as (Hb1 & Hco1 & Hmem1 & Hmax & Hs1);
      [|exact Hb|pose proof (ok_mem _ Hb); lia].
    apply store_Ok in H as (Hb' & Hco' & Hmem' & Hin & Hs & Ho); [|exact Hb1].
    split; [exact Hb'|]. split; [congruence|]. split; [exact Hs|].
    split; [intros k Hk; rewrite Ho by exact Hk; apply Hs1|].
    split; [lia|]. right. split; [exact Hm|]. split; [lia|].
    split; [lia|]. exists j. congruence.
  - simpl in H.
    apply store_Ok in H as (Hb' & Hco' & Hmem' & Hin & Hs & Ho); [|exact Hb].
    split; [exact Hb'|]. split; [exact Hco'|]. split; [exact Hs|].
    split; [exact Ho|]. split; [lia|]. left. split; [lia|exact Hmem'].
Qed.

Lemma reconcile_block_total (b : block) (r : overflow_rec) :
  block_ok b -> 0 <= o_m r ->
  (exists b', reconcile_block b r = Ok b') \/
  (reconcile_block b r = Fatal /\ mem b <= o_m r /\
   exists j : nat, o_m r < mem b * 2 ^ Z.of_nat (S j) <= 2 * o_m r /\
                   max_particle_memory < mem b * 2 ^ Z.of_nat (S j)).
Proof.
  intros Hb Hm0. unfold reconcile_block.
  destruct (o_m r >=? mem b) eqn:E.
  - assert (Hm : mem b <= o_m r) by lia.
    destruct (reconcile_target (mem b) (o_m r)) as (j & Hj & Hr);
      [apply (ok_mem _ Hb)|exact Hm|].
    rewrite Hj.
    destruct (grow_block_cases b (mem b * 2 ^ Z.of_nat (S j))) as [Hok Hfat];
      [exact Hb|pose proof (ok_mem _ Hb); lia|].
    destruct (Z_le_gt_dec (mem b * 2 ^ Z.of_nat (S j)) max_particle_memory)
      as [Hle|Hgt].
    + destruct (Hok Hle) as [b1 Hb1]. rewrite Hb1. simpl.
      apply grow_block_Ok in Hb1 as (Hb1' & Hco1 & Hmem1 & _ & _);
        [|exact Hb|pose proof (ok_mem _ Hb); lia].
      left. apply store_inside; [exact Hb1'|lia].
    + right. rewrite Hfat by lia. simpl. split; [reflexivity|].
      split; [exact Hm|]. exists j. split; [exact Hr|lia].
  - simpl. left. apply store_inside; [exact Hb|lia].
Qed.

(** ** The list of blocks *)

Lemma block_at_Some (bs : list block) (ij : Z) (b : block) :
  block_at bs ij = Some b ->
  0 <= ij < Z.of_nat (length bs) /\ bs !! Z.to_nat ij = Some b.
Proof.
  unfold block_at. destruct (0 <=? ij) eqn:E; [|discriminate].
  intros H. pose proof (lookup_lt_Some _ _ _ H). split; [lia|exact H].
Qed.

Lemma block_at_put_eq (bs : list block) (ij : Z) (b : block) :
  0 <= ij < Z.of_nat (length bs) ->
  block_at (put_block bs ij b) ij = Some b.
Proof.
  intros H. unfold block_at, put_block.
  replace (0 <=? ij) with true by (symmetry; lia).
  apply list_lookup_insert_eq. lia.
Qed.

Lemma block_at_put_ne (bs : list block) (ij k : Z) (b : block) :
  0 <= ij -> k <> ij ->
  block_at (put_block bs ij b) k = block_at bs k.
Proof.
  intros H Hk. unfold block_at, put_block.
  destruct (0 <=? k) eqn:E; [|reflexivity].
  apply list_lookup_insert_ne. lia.
Qed.

Lemma put_block_twice (bs : list block) (ij : Z) (b1 b2 : block) :
  put_block (put_block bs ij b1) ij b2 = put_block bs ij b2.
Proof. unfold put_block. apply list_insert_insert_eq. Qed.

Lemma length_put_block (bs : list block) (ij : Z) (b : block) :
  length (put_block bs ij b) = length bs.
Proof. unfold put_block. apply length_insert. Qed.

Lemma get_block_Ok (bs : list block) (ij : Z) (b : block) :
  get_block bs ij = Ok b <-> block_at bs ij = Some b.
Proof.
  unfold get_block. destruct (block_at bs ij); split; congruence.
Qed.

Lemma get_block_cases (bs : list block) (ij : Z) :
  (exists b, get_block bs ij = Ok b /\ block_at bs ij = Some b) \/
  (get_block bs ij = Undefined /\ block_at bs ij = None).
Proof.
  unfold get_block. destruct (block_at bs ij); eauto.
Qed.

Lemma block_at_inside (bs : list block) (ij : Z) :
  0 <= ij < Z.of_nat (length bs) -> exists b, block_at bs ij = Some b.
Proof.
  intros H. unfold block_at. replace (0 <=? ij) with true by (symmetry; lia).
  destruct (lookup_lt_is_Some_2 bs (Z.to_nat ij)) as [b Hb]; [lia|eauto].
Qed.

(** ** Serial insertion into one block *)

(** What [put] does to the block the particle goes to. *)
Definition block_put (b : block) (n : Z) (cs : list float) : outcome block :=
  b1 <-- (if co b =? mem b then add_particle_memory b else Ok b) ;;
  b2 <-- store b1 (co b1) n cs ;;
  Ok (set_co b2 (co b1 + 1)).

Lemma set_blocks_twice (s : container) (bs1 bs2 : list block) :
  set_blocks (set_blocks s bs1) bs2 = set_blocks s bs2.
Proof. reflexivity. Qed.

Lemma put_coords_unfold (s : container) (n : Z) (x y : float)
    (rest : list float) :
  put_coords s n x y rest =
  match put_remap (geo s) x y with
  | Some (ij, x', y') =>
    b <-- get_block (blocks s) ij ;;
    b' <-- block_put b n (x' :: y' :: rest) ;;
    Ok (set_blocks s (put_block (blocks s) ij b'), true)
  | None => Ok (s, false)
  end.
Proof.
  unfold put_coords, put_locate_block, block_put.
  destruct (put_remap (geo s) x y) as [[[ij x'] y']|]; [|reflexivity].
  destruct (get_block_cases (blocks s) ij) as [(b & -> & Hb)|[-> _]];
    [|reflexivity].
  simpl. apply block_at_Some in Hb as [Hij Hb].
  destruct (co b =? mem b) eqn:E.
  - destruct (add_particle_memory b) as [b1| | |] eqn:E1; try reflexivity.
    simpl. unfold get_block.
    rewrite block_at_put_eq by exact Hij.
    assert (Hco : co b1 = co b).
    { revert E1. unfold add_particle_memory.
      destruct (_ >? _); [discriminate|].
      destruct (arr_copy _ (id b) _); try discriminate.
      destruct (arr_copy _ (p b) _); try discriminate.
      simpl. now intros [= <-]. }
    cbn [obind].
    destruct (store b1 (co b1) n (x' :: y' :: rest)) as [b2| | |];
      try reflexivity.
    cbn [obind]. now rewrite put_block_twice.
  - simpl. unfold get_block, block_at.
    replace (0 <=? ij) with true by (symmetry; lia). rewrite Hb.
    cbn [obind].
    destruct (store b (co b) n (x' :: y' :: rest)) as [b2| | |];
      reflexivity.
Qed.

Lemma block_put_Ok (b b' : block) (n : Z) (cs : list float) :
  block_put b n cs = Ok b' -> block_ok b -> co b <= mem b ->
  block_ok b' /\ co b' = co b + 1 /\ co b' <= mem b' /\
  slot b' (co b) = Some (n, cs) /\
  (forall k, k < co b -> slot b' k = slot b k) /\
  ((co b < mem b /\ mem b' = mem b) \/
   (co b = mem b /\ mem b' = 2 * mem b /\
    2 * mem b <= max_particle_memory)).
Proof.
  unfold block_put. intros H Hb Hc.
  destruct (co b =? mem b) eqn:E.
  - destruct (add_particle_memory b) as [b1| | |] eqn:E1; try discriminate.
    simpl in H.
    apply add_particle_memory_Ok in E1 as (Hb1 & Hco1 & Hmem1 & Hmax & Hs1);
      [|exact Hb|exact Hc].
    destruct (store b1 (co b1) n cs) as [b2| | |] eqn:E2; try discriminate.
    simpl in H. injection H as <-.
    apply store_Ok in E2 as (Hb2 & Hco2 & Hmem2 & Hin & Hs & Ho); [|exact Hb1].
    split; [apply block_ok_set_co; [exact Hb2|pose proof (ok_co _ Hb); lia]|].
    rewrite ?slot_set_co. cbn [co mem set_co].
    split; [lia|]. split; [lia|]. split; [now rewrite <- Hco1|].
    split; [intros k Hk; rewrite slot_set_co, Ho by lia; apply Hs1; exact Hk|].
    right. split; [lia|]. split; [lia|exact Hmax].
  - simpl in H.
    destruct (store b (co b) n cs) as [b2| | |] eqn:E2; try discriminate.
    simpl in H. injection H as <-.
    apply store_Ok in E2 as (Hb2 & Hco2 & Hmem2 & Hin & Hs & Ho); [|exact Hb].
    split; [apply block_ok_set_co; [exact Hb2|pose proof (ok_co _ Hb); lia]|].
    rewrite ?slot_set_co. cbn [co mem set_co].
    split; [lia|]. split; [lia|]. split; [exact Hs|].
    split; [intros k Hk; rewrite slot_set_co; apply Ho; lia|].
    left. split; [lia|exact Hmem2].
Qed.

Lemma block_put_total (b : block) (n : Z) (cs : list float) :
  block_ok b -> co b <= mem b ->
  (exists b', block_put b n cs = Ok b') \/
  (block_put b n cs = Fatal /\ co b = mem b /\
   max_particle_memory < 2 * mem b).
Proof.
  intros Hb Hc. unfold block_put.
  destruct (co b =? mem b) eqn:E.
  - destruct (add_particle_memory_cases b Hb Hc) as [Hok Hfat].
    destruct (Z_le_gt_dec (2 * mem b) max_particle_memory) as [Hle|Hgt].
    + destruct (Hok Hle) as [b1 Hb1]. rewrite Hb1. simpl.
      apply add_particle_memory_Ok in Hb1 as (Hb1' & Hco1 & Hmem1 & _ & _);
        [|exact Hb|exact Hc].
      destruct (store_inside b1 (co b1) n cs Hb1') as [b2 ->].
      * pose proof (ok_co _ Hb). pose proof (ok_mem _ Hb). lia.
      * simpl. eauto.
    + right. rewrite Hfat by lia. simpl. split; [reflexivity|]. lia.
  - simpl. destruct (store_inside b (co b) n cs Hb) as [b2 ->].
    + pose proof (ok_co _ Hb). lia.
    + simpl. eauto.
Qed.

(** ** Serial insertion into the container *)

Lemma put_coords_rejected (s : container) (n : Z) (x y : float)
    (rest : list float) :
  put_remap (geo s) x y = None -> put_coords s n x y rest = Ok (s, false).
Proof. intros H. rewrite put_coords_unfold, H. reflexivity. Qed.

Lemma put_coords_accepted (s : container) (n : Z) (x y : float)
    (rest : list float) (ij : Z) (x' y' : float) (b : block) :
  put_remap (geo s) x y = Some (ij, x', y') ->
  blk s ij = Some b -> block_ok b -> co b <= mem b ->
  co b < mem b \/ 2 * mem b <= max_particle_memory ->
  exists b',
    put_coords s n x y rest
      = Ok (set_blocks s (put_block (blocks s) ij b'), true) /\
    blk (set_blocks s (put_block (blocks s) ij b')) ij = Some b' /\
    block_put b n (x' :: y' :: rest) = Ok b'.
Proof.
  intros Hr Hb Hok Hco Hroom. rewrite put_coords_unfold, Hr.
  unfold blk in Hb. unfold get_block. rewrite Hb. cbn [obind].
  destruct (block_put_total b n (x' :: y' :: rest) Hok Hco)
    as [[b' Hb']|(_ & E & Hmax)]; [|lia].
  exists b'. rewrite Hb'. cbn [obind]. split; [reflexivity|].
  split; [|reflexivity].
  unfold blk. cbn [blocks set_blocks]. apply block_at_put_eq.
  now apply block_at_Some in Hb.
Qed.

(** C5: a position that [put_remap] rejects leaves the container as it was,
    in both classes; an accepted one, in a block with room or with memory
    left to double, stores the id and the remapped coordinates in slot co
    of its block and adds one to co, the other slots, the other blocks and
    the overflow buffer staying as they were (and the poly class raises
    [max_radius] to the radius when it is smaller). *)
Theorem put_rejected_or_stored (s : container) (c : container_poly) (n : Z)
    (x y r : float) :
  (put_remap (geo s) x y = None -> container_2d_put s n x y = Ok s) /\
  (put_remap (geo (con c)) x y = None ->
   container_poly_2d_put c n x y r = Ok c) /\
  (forall ij x' y' b,
     put_remap (geo s) x y = Some (ij, x', y') ->
     blk s ij = Some b -> block_ok b -> co b <= mem b ->
     co b < mem b \/ 2 * mem b <= max_particle_memory ->
     exists s' b',
       container_2d_put s n x y = Ok s' /\
       blk s' ij = Some b' /\ co b' = co b + 1 /\
       slot b' (co b) = Some (n, [x'; y']) /\
       (forall k, k < co b -> slot b' k = slot b k) /\
       (forall j, j <> ij -> blk s' j = blk s j) /\
       geo s' = geo s /\ overflowPtCt s' = overflowPtCt s /\
       overflow s' = overflow s) /\
  (forall ij x' y' b,
     put_remap (geo (con c)) x y = Some (ij, x', y') ->
     blk (con c) ij = Some b -> block_ok b -> co b <= mem b ->
     co b < mem b \/ 2 * mem b <= max_particle_memory ->
     exists c' b',
       container_poly_2d_put c n x y r = Ok c' /\
       blk (con c') ij = Some b' /\ co b' = co b + 1 /\
       slot b' (co b) = Some (n, [x'; y'; r]) /\
       (forall k, k < co b -> slot b' k = slot b k) /\
       (forall j, j <> ij -> blk (con c') j = blk (con c) j) /\
       max_radius c' = fmax (max_radius c) r /\ max_r c' = max_r c /\
       overflowPtCt (con c') = overflowPtCt (con c) /\
       overflow (con c') = overflow (con c)).
Proof.
  split; [|split; [|split]].
  - intros H. unfold container_2d_put, outcome_map.
    rewrite put_coords_rejected by exact H. reflexivity.
  - intros H. unfold container_poly_2d_put.
    rewrite put_coords_rejected by exact H. destruct c; reflexivity.
  - intros ij x' y' b Hr Hb Hok Hco Hroom.
    destruct (put_coords_accepted s n x y [] ij x' y' b Hr Hb Hok Hco Hroom)
      as (b' & Hput & Hblk & Hbp).
    apply block_put_Ok in Hbp as (_ & Hco' & _ & Hs & Ho & _);
      [|exact Hok|exact Hco].
    eexists. exists b'. unfold container_2d_put, outcome_map. rewrite Hput.
    cbn [obind fst]. split; [reflexivity|]. split; [exact Hblk|].
    split; [exact Hco'|]. split; [exact Hs|]. split; [exact Ho|].
    split; [|repeat split].
    intros j Hj. unfold blk. cbn [blocks set_blocks].
    apply block_at_put_ne; [|exact Hj].
    unfold blk in Hb. apply block_at_Some in Hb. lia.
  - intros ij x' y' b Hr Hb Hok Hco Hroom.
    destruct (put_coords_accepted (con c) n x y [r] ij x' y' b Hr Hb Hok Hco
                Hroom) as (b' & Hput & Hblk & Hbp).
    apply block_put_Ok in Hbp as (_ & Hco' & _ & Hs & Ho & _);
      [|exact Hok|exact Hco].
    eexists. exists b'. unfold container_poly_2d_put. rewrite Hput.
    cbn [obind fst snd con max_radius max_r].
    split; [reflexivity|]. split; [exact Hblk|].
    split; [exact Hco'|]. split; [exact Hs|]. split; [exact Ho|].
    split; [|repeat split].
    intros j Hj. unfold blk. cbn [blocks set_blocks].
    apply block_at_put_ne; [|exact Hj].
    unfold blk in Hb. apply block_at_Some in Hb. lia.
Qed.

(** ** Clear *)

(** C9: [clear] twice is [clear] once; [clear] keeps every block of the
    container, with its memory, and leaves its count at 0, so that no
    particle is counted afterwards; the poly class also has [max_radius]
    0. *)
Theorem clear_idempotent (s : container) (c : container_poly) :
  clear (clear s) = clear s /\
  length (blocks (clear s)) = length (blocks s) /\
  (forall ij b, blk s ij = Some b ->
     exists b', blk (clear s) ij = Some b' /\ co b' = 0 /\
                mem b' = mem b /\ id b' = id b /\ p b' = p b) /\
  (forall ij b, blk (clear s) ij = Some b -> co b = 0) /\
  total_co (clear s) = 0 /\
  container_poly_2d_clear (container_poly_2d_clear c)
    = container_poly_2d_clear c /\
  length (blocks (con (container_poly_2d_clear c)))
    = length (blocks (con c)) /\
  (forall ij b, blk (con c) ij = Some b ->
     exists b', blk (con (container_poly_2d_clear c)) ij = Some b' /\
                co b' = 0 /\ mem b' = mem b /\ id b' = id b /\ p b' = p b) /\
  (forall ij b, blk (con (container_poly_2d_clear c)) ij = Some b -> co b = 0) /\
  max_radius (container_poly_2d_clear c) = 0%float.
Proof.
  assert (Hidem : forall t, clear (clear t) = clear t).
  { intros t. unfold clear. cbn [blocks set_blocks]. rewrite set_blocks_twice.
    f_equal. rewrite map_map. reflexivity. }
  assert (Hlen : forall t, length (blocks (clear t)) = length (blocks t)).
  { intros t. unfold clear. cbn [blocks set_blocks]. apply length_map. }
  assert (Hblk : forall t ij,
            blk (clear t) ij = (fun b0 => set_co b0 0) <$> blk t ij).
  { intros t ij. unfold blk, clear, block_at. cbn [blocks set_blocks].
    destruct (0 <=? ij); [|reflexivity].
    change (map (fun b0 => set_co b0 0) (blocks t))
      with ((fun b0 => set_co b0 0) <$> blocks t).
    apply list_lookup_fmap. }
  assert (Hkeep : forall t ij b, blk t ij = Some b ->
            exists b', blk (clear t) ij = Some b' /\ co b' = 0 /\
                       mem b' = mem b /\ id b' = id b /\ p b' = p b).
  { intros t ij b H. exists (set_co b 0). rewrite Hblk, H.
    repeat split; reflexivity. }
  assert (Hzero : forall t ij b, blk (clear t) ij = Some b -> co b = 0).
  { intros t ij b H. rewrite Hblk in H.
    destruct (blk t ij); [|discriminate]. injection H as <-. reflexivity. }
  assert (Htot : forall t, total_co (clear t) = 0).
  { intros t. unfold total_co, clear. cbn [blocks set_blocks].
    induction (blocks t) as [|b bs IH]; [reflexivity|].
    cbn [map sum_co foldr co set_co]. unfold sum_co in IH. rewrite IH.
    reflexivity. }
  split; [apply Hidem|]. split; [apply Hlen|]. split; [apply Hkeep|].
  split; [apply Hzero|]. split; [apply Htot|].
  split; [unfold container_poly_2d_clear; cbn [con max_r]; now rewrite Hidem|].
  split; [apply Hlen|]. split; [apply Hkeep|]. split; [apply Hzero|].
  reflexivity.
Qed.

(** ** Reconciliation *)

Definition rec_at (r : overflow_rec) (ij m : Z) : bool :=
  (o_ij r =? ij) && (o_m r =? m).

(** The last record of the list that names slot [m] of block [ij]. *)
Fixpoint last_rec (rs : list (option overflow_rec)) (ij m : Z)
  : option overflow_rec :=
  match rs with
  | [] => None
  | o :: rs' =>
    match last_rec rs' ij m with
    | Some r' => Some r'
    | None =>
      match o with
      | Some r => if rec_at r ij m then Some r else None
      | None => None
      end
    end
  end.

Definition blocks_ok (bs : list block) : Prop :=
  forall ij b, block_at bs ij = Some b -> block_ok b.

Lemma blocks_ok_put (bs : list block) (ij : Z) (b : block) :
  blocks_ok bs -> block_ok b -> 0 <= ij -> blocks_ok (put_block bs ij b).
Proof.
  intros Hbs Hb Hij k bk Hk.
  destruct (Z.eq_dec k ij) as [->|Hne].
  - apply block_at_Some in Hk as [Hr Hk]. rewrite length_put_block in Hr.
    unfold put_block in Hk. rewrite list_lookup_insert_eq in Hk by lia.
    congruence.
  - rewrite block_at_put_ne in Hk by assumption. eapply Hbs; eassumption.
Qed.

Lemma reconcile_record_Ok (bs bs' : list block) (r : overflow_rec) :
  reconcile_record bs r = Ok bs' ->
  exists b b', block_at bs (o_ij r) = Some b /\
               reconcile_block b r = Ok b' /\
               bs' = put_block bs (o_ij r) b'.
Proof.
  unfold reconcile_record, get_block.
  destruct (block_at bs (o_ij r)) as [b|]; [|discriminate].
  cbn [obind].
  destruct (reconcile_block b r) as [b'| | |] eqn:E; try discriminate.
  cbn [obind]. intros [= <-]. exists b, b'. repeat split; assumption.
Qed.

Lemma reconcile_loop_Ok (rs : list (option overflow_rec)) :
  forall bs bs',
  reconcile_loop rs bs = Ok bs' -> blocks_ok bs ->
  length bs' = length bs /\
  forall ij b, block_at bs ij = Some b ->
    exists b', block_at bs' ij = Some b' /\ block_ok b' /\ co b' = co b /\
      (forall m, slot b' m = match last_rec rs ij m with
                             | Some r => Some (o_id r, o_p r)
                             | None => slot b m
                             end) /\
      (exists j : nat, mem b' = mem b * 2 ^ Z.of_nat j) /\
      (mem b' = mem b \/
       (mem b' <= max_particle_memory /\
        exists r, In (Some r) rs /\ o_ij r = ij /\ mem b' <= 2 * o_m r)).
Proof.
  induction rs as [|o rs IH]; intros bs bs' H Hbs.
  - injection H as <-. split; [reflexivity|]. intros ij b Hb.
    exists b. split; [exact Hb|]. split; [eapply Hbs; eassumption|].
    split; [reflexivity|]. split; [reflexivity|].
    split; [exists 0%nat; change (2 ^ Z.of_nat 0) with 1; lia|].
    left; reflexivity.
  - destruct o as [r|]; [|discriminate]. cbn [reconcile_loop] in H.
    destruct (reconcile_record bs r) as [bs1| | |] eqn:E1; try discriminate.
    cbn [obind] in H.
    apply reconcile_record_Ok in E1 as (b0 & b1 & Hb0 & Hrb & ->).
    pose proof (Hbs _ _ Hb0) as Hok0.
    apply reconcile_block_Ok in Hrb
      as (Hok1 & Hco1 & Hs1 & Ho1 & Hin1 & Hmem1); [|exact Hok0].
    pose proof (block_at_Some _ _ _ Hb0) as [Hr0 _].
    destruct (IH _ _ H) as [Hlen Hblocks].
    { apply blocks_ok_put; [exact Hbs|exact Hok1|lia]. }
    rewrite length_put_block in Hlen. split; [exact Hlen|].
    intros ij b Hb.
    destruct (Z.eq_dec ij (o_ij r)) as [->|Hne].
    + assert (b = b0) as -> by congruence.
      destruct (Hblocks (o_ij r) b1) as (b' & Hb' & Hok' & Hco' & Hs' & Hj' & Hm').
      { apply block_at_put_eq. exact Hr0. }
      exists b'. split; [exact Hb'|]. split; [exact Hok'|].
      split; [congruence|]. split; [|split].
      * intros m. rewrite Hs'. cbn [last_rec].
        destruct (last_rec rs (o_ij r) m); [reflexivity|].
        unfold rec_at. rewrite Z.eqb_refl. cbn [andb].
        destruct (o_m r =? m) eqn:Em.
        -- apply Z.eqb_eq in Em as <-. exact Hs1.
        -- apply Ho1. apply Z.eqb_neq in Em. congruence.
      * destruct Hj' as [j Hj].
        destruct Hmem1 as [[_ Hm1]|(_ & _ & _ & j1 & Hm1)].
        -- exists j. congruence.
        -- exists (S j1 + j)%nat. rewrite Hj, Hm1.
           rewrite (Nat2Z.inj_add (S j1) j), Z.pow_add_r by lia. lia.
      * destruct Hm' as [Hm'|(Hmax & r' & Hin & Hij & Hle)].
        -- destruct Hmem1 as [[_ Hm1]|(_ & Hle1 & Hmax1 & _)].
           ++ left. congruence.
           ++ right. split; [lia|]. exists r.
              split; [left; reflexivity|]. split; [reflexivity|lia].
        -- right. split; [exact Hmax|]. exists r'.
           split; [right; exact Hin|]. split; [exact Hij|exact Hle].
    + destruct (Hblocks ij b) as (b' & Hb' & Hok' & Hco' & Hs' & Hj' & Hm').
      { rewrite block_at_put_ne by (lia || assumption). exact Hb. }
      exists b'. split; [exact Hb'|]. split; [exact Hok'|].
      split; [exact Hco'|]. split; [|split; [exact Hj'|]].
      * intros m. rewrite Hs'. cbn [last_rec].
        destruct (last_rec rs ij m); [reflexivity|].
        unfold rec_at. replace (o_ij r =? ij) with false; [reflexivity|].
        symmetry. apply Z.eqb_neq. congruence.
      * destruct Hm' as [Hm'|(Hmax & r' & Hin & Hij & Hle)].
        -- left. exact Hm'.
        -- right. split; [exact Hmax|]. exists r'.
           split; [right; exact Hin|]. split; [exact Hij|exact Hle].
Qed.

Lemma reconcile_block_set_co (b : block) (r : overflow_rec) (c : Z) :
  reconcile_block (set_co b c) r
  = outcome_map (fun b' => set_co b' c) (reconcile_block b r).
Proof.
  unfold reconcile_block, grow_block, store, outcome_map. cbn [mem id p co set_co].
  destruct (o_m r >=? mem b); cbn [obind].
  - destruct (double_until _ _ _) as [nmem|]; [|reflexivity].
    destruct (nmem >? max_particle_memory); [reflexivity|].
    destruct (arr_copy (new_arr nmem) (id b) (mem b)); try reflexivity.
    cbn [obind].
    destruct (arr_copy (new_arr nmem) (p b) (mem b)); try reflexivity.
    cbn [obind mem id p co].
    destruct (arr_set _ (o_m r) (o_id r)); try reflexivity. cbn [obind].
    destruct (arr_set _ (o_m r) (o_p r)); reflexivity.
  - destruct (arr_set _ (o_m r) (o_id r)); try reflexivity. cbn [obind].
    destruct (arr_set _ (o_m r) (o_p r)); reflexivity.
Qed.

Lemma reconcile_loop_clear (rs : list (option overflow_rec)) :
  forall bs,
  reconcile_loop rs (map (fun b => set_co b 0) bs)
  = outcome_map (map (fun b => set_co b 0)) (reconcile_loop rs bs).
Proof.
  induction rs as [|o rs IH]; intros bs; [reflexivity|].
  destruct o as [r|]; [|reflexivity]. cbn [reconcile_loop].
  unfold reconcile_record, get_block, block_at.
  change (map (fun b => set_co b 0) bs) with ((fun b => set_co b 0) <$> bs).
  destruct (0 <=? o_ij r); [|reflexivity].
  rewrite list_lookup_fmap.
  destruct (bs !! Z.to_nat (o_ij r)) as [b|]; [|reflexivity].
  cbn [fmap option_fmap option_map obind].
  rewrite reconcile_block_set_co. unfold outcome_map.
  destruct (reconcile_block b r) as [b'| | |]; try reflexivity.
  cbn [obind]. unfold put_block.
  rewrite <- (list_fmap_insert (fun b0 => set_co b0 0)).
  change ((fun b0 => set_co b0 0) <$> <[Z.to_nat (o_ij r):=b']> bs)
    with (map (fun b0 => set_co b0 0) (<[Z.to_nat (o_ij r):=b']> bs)).
  apply IH.
Qed.

(** C10: [clear] changes the counts only (and [max_radius] in the poly
    class): geometry, capacities, id and p arrays, the overflow count and the
    overflow records stay.  Reconciling after [clear] therefore does to the
    arrays what reconciling without it would have done, with all counts 0:
    the last overflow record naming a slot is written there. *)
Theorem clear_keeps_memory_and_overflow (s : container) (c : container_poly) :
  geo (clear s) = geo s /\
  overflow_mem_numPt (clear s) = overflow_mem_numPt s /\
  overflowPtCt (clear s) = overflowPtCt s /\
  overflow (clear s) = overflow s /\
  (forall ij b, blk s ij = Some b ->
     exists b', blk (clear s) ij = Some b' /\
                co b' = 0 /\ mem b' = mem b /\ id b' = id b /\ p b' = p b) /\
  con (container_poly_2d_clear c) = clear (con c) /\
  max_r (container_poly_2d_clear c) = max_r c /\
  put_reconcile_overflow (clear s) = outcome_map clear (put_reconcile_overflow s) /\
  (blocks_ok (blocks s) ->
   forall s' ij b m r,
     put_reconcile_overflow (clear s) = Ok s' ->
     blk s ij = Some b ->
     last_rec (take (Z.to_nat (overflowPtCt s)) (overflow s)) ij m = Some r ->
     exists b', blk s' ij = Some b' /\ co b' = 0 /\
                slot b' m = Some (o_id r, o_p r)).
Proof.
  assert (Hblk : forall ij b, blk s ij = Some b ->
                 blk (clear s) ij = Some (set_co b 0)).
  { intros ij b H. unfold blk, clear, block_at in *.
    cbn [blocks set_blocks].
    destruct (0 <=? ij); [|discriminate].
    change (map (fun b0 => set_co b0 0) (blocks s))
      with ((fun b0 => set_co b0 0) <$> blocks s).
    rewrite list_lookup_fmap, H. reflexivity. }
  assert (Hcomm : put_reconcile_overflow (clear s)
                  = outcome_map clear (put_reconcile_overflow s)).
  { unfold put_reconcile_overflow, clear.
    cbn [overflowPtCt overflow blocks set_blocks overflow_mem_numPt].
    destruct (overflowPtCt s <=? alen (overflow s)); [|reflexivity].
    rewrite reconcile_loop_clear. unfold outcome_map.
    destruct (reconcile_loop _ (blocks s)); reflexivity. }
  repeat (split; [reflexivity|]).
  split; [|split; [reflexivity|split; [reflexivity|split; [exact Hcomm|]]]].
  - intros ij b H. exists (set_co b 0). split; [apply Hblk; exact H|].
    repeat split.
  - intros Hok s' ij b m r Hrec Hb Hlast.
    rewrite Hcomm in Hrec. unfold outcome_map in Hrec.
    destruct (put_reconcile_overflow s) as [s1| | |] eqn:E1; try discriminate.
    cbn [obind] in Hrec. injection Hrec as <-.
    unfold put_reconcile_overflow in E1.
    destruct (overflowPtCt s <=? alen (overflow s)); [|discriminate].
    destruct (reconcile_loop _ (blocks s)) as [bs1| | |] eqn:E2;
      try discriminate.
    cbn [obind] in E1. injection E1 as <-.
    apply reconcile_loop_Ok in E2 as [_ Hblocks]; [|exact Hok].
    destruct (Hblocks ij b Hb) as (b' & Hb' & _ & _ & Hs & _).
    exists (set_co b' 0). split.
    + unfold blk, clear, block_at in *. cbn [blocks set_blocks set_overflow].
      cbn [blocks set_blocks set_overflow] in Hb'.
      destruct (0 <=? ij); [|discriminate].
      change (map (fun b0 => set_co b0 0) bs1)
        with ((fun b0 => set_co b0 0) <$> bs1).
      rewrite list_lookup_fmap, Hb'. reflexivity.
    + split; [reflexivity|]. rewrite slot_set_co, Hs, Hlast. reflexivity.
Qed.

Lemma blocks_ok_Forall (bs : list block) : Forall block_ok bs -> blocks_ok bs.
Proof.
  intros H ij b Hb. apply block_at_Some in Hb as [_ Hb].
  rewrite Forall_forall in H. apply H.
  eapply list_elem_of_lookup_2. exact Hb.
Qed.

(** A container with one block of one slot on the unit square. *)
Definition one_block : container := container_2d_new 0 1 0 1 1 1 false false 1.

Definition one_block_poly : container_poly :=
  container_poly_2d_new 0 1 0 1 1 1 false false 1 1.

Lemma put_rejected_or_stored_witness :
  exists s' b', container_2d_put one_block 7 0.5 0.5 = Ok s' /\
                blk s' 0 = Some b' /\ co b' = 1 /\
                slot b' 0 = Some (7, [0.5%float; 0.5%float]).
Proof.
  destruct (put_rejected_or_stored one_block one_block_poly 7 0.5 0.5 0)
    as (_ & _ & H & _).
  destruct (H 0 0.5%float 0.5%float (new_block 1))
    as (s' & b' & Hput & Hblk & Hco & Hs & _).
  - vm_compute. reflexivity.
  - reflexivity.
  - apply new_block_ok. lia.
  - vm_compute. discriminate.
  - left. reflexivity.
  - exists s', b'. split; [exact Hput|]. split; [exact Hblk|].
    split; [exact Hco|exact Hs].
Defined.

(** A particle put into [one_block], then [clear]: the block is still
    there, with its memory and its stale slot, and counts no particle. *)
Lemma clear_idempotent_witness :
  exists s b b',
    container_2d_put one_block 7 0.5 0.5 = Ok s /\
    blk s 0 = Some b /\ co b = 1 /\
    blk (clear s) 0 = Some b' /\ co b' = 0 /\ mem b' = mem b /\
    slot b' 0 = Some (7, [0.5%float; 0.5%float]) /\
    total_co (clear s) = 0 /\ clear (clear s) = clear s.
Proof.
  destruct (container_2d_put one_block 7 0.5 0.5) as [s| | |] eqn:E;
    try (vm_compute in E; discriminate).
  destruct (blk s 0) as [b|] eqn:Eb;
    [|vm_compute in E; injection E as <-; discriminate].
  destruct (clear_idempotent s one_block_poly)
    as (Hidem & _ & Hkeep & _ & Htot & _).
  destruct (Hkeep 0 b Eb) as (b' & Hb' & Hco & Hmem & Hid & Hp).
  exists s, b, b'. split; [reflexivity|]. split; [exact Eb|].
  vm_compute in E. injection E as <-. vm_compute in Eb. injection Eb as <-.
  split; [reflexivity|]. split; [exact Hb'|]. split; [exact Hco|].
  split; [exact Hmem|]. split; [|split; [exact Htot|exact Hidem]].
  unfold slot. rewrite Hid, Hp. reflexivity.
Defined.

(** Two calls run in parallel on [one_block]: the second one finds the block
    full and goes to the overflow buffer; [clear] then [put_reconcile_overflow]
    doubles the block and writes the stale record into slot 1 of the emptied
    block. *)
Lemma clear_keeps_memory_and_overflow_witness :
  exists s s',
    run_schedule [Reserve 7 0.5 0.5 []; Reserve 8 0.25 0.5 [];
                  Commit 0; Commit 0] (one_block, []) = Ok (s, []) /\
    overflowPtCt (clear s) = 1 /\
    put_reconcile_overflow (clear s) = Ok s' /\
    exists b', blk s' 0 = Some b' /\ co b' = 0 /\
               slot b' 1 = Some (8, [0.25%float; 0.5%float]).
Proof.
  let t := eval vm_compute in
      (run_schedule [Reserve 7 0.5 0.5 []; Reserve 8 0.25 0.5 [];
                     Commit 0; Commit 0] (one_block, [])) in
  match t with Ok (?s, _) => pose (s0 := s) end.
  let t := eval vm_compute in (put_reconcile_overflow (clear s0)) in
  match t with Ok ?s => pose (s1 := s) end.
  exists s0, s1. split; [vm_compute; reflexivity|].
  split; [reflexivity|]. split; [vm_compute; reflexivity|].
  destruct (clear_keeps_memory_and_overflow s0 one_block_poly)
    as (_ & _ & _ & _ & _ & _ & _ & _ & H).
  refine (H _ s1 0 _ 1
            {| o_ij := 0; o_m := 1; o_id := 8;
               o_p := [0.25%float; 0.5%float] |} _ _ _).
  - apply blocks_ok_Forall. repeat constructor; vm_compute;
      try reflexivity; discriminate.
  - vm_compute. reflexivity.
  - vm_compute. reflexivity.
  - vm_compute. reflexivity.
Defined.

(** ** Sequences of calls *)

(** One insertion request: the id, the position and the doubles stored after
    it (none for [container_2d], the radius for [container_poly_2d]). *)
Record call : Type := {
  c_id : Z; c_x : float; c_y : float; c_rest : list float
}.

(** The block and the stored particle of a call, when [put_remap] accepts
    its position. *)
Definition route (g : geometry) (c : call) : option (Z * (Z * list float)) :=
  match put_remap g (c_x c) (c_y c) with
  | Some (ij, x, y) => Some (ij, (c_id c, x :: y :: c_rest c))
  | None => None
  end.

(** The particles that a sequence of calls sends to block [ij], in order. *)
Definition routed (g : geometry) (ij : Z) (cs : list call)
  : list (Z * list float) :=
  omap (fun c => match route g c with
                 | Some (b, e) => if b =? ij then Some e else None
                 | None => None
                 end) cs.

(** The number of calls that [put_remap] accepts. *)
Definition accepted (g : geometry) (cs : list call) : Z :=
  Z.of_nat (length (omap (route g) cs)).

(** The calls inserted one after the other with the serial [put]. *)
Fixpoint serial_puts (s : container) (cs : list call) : outcome container :=
  match cs with
  | [] => Ok s
  | c :: cs' =>
    sa <-- put_coords s (c_id c) (c_x c) (c_y c) (c_rest c) ;;
    serial_puts (fst sa) cs'
  end.

(** The calls started by a schedule, in the order of their first parts. *)
Definition calls_of (sched : list action) : list call :=
  omap (fun a => match a with
                 | Reserve i x y rest =>
                   Some {| c_id := i; c_x := x; c_y := y; c_rest := rest |}
                 | Commit _ => None
                 end) sched.

(** The number of calls in flight after a schedule, from [n] in flight. *)
Fixpoint in_flight_after (g : geometry) (sched : list action) (n : nat) : nat :=
  match sched with
  | [] => n
  | Reserve i x y rest :: sched' =>
    in_flight_after g sched'
      (match put_remap g x y with Some _ => S n | None => n end)
  | Commit k :: sched' =>
    in_flight_after g sched' (if (k <? n)%nat then pred n else n)
  end.

(** A schedule is a whole batch when it finishes every call it starts. *)
Definition complete (g : geometry) (sched : list action) : Prop :=
  in_flight_after g sched 0 = 0%nat.

(** A batch followed by [put_reconcile_overflow]. *)
Definition parallel_round (s : container) (sched : list action)
  : outcome container :=
  st <-- run_schedule sched (s, []) ;;
  put_reconcile_overflow (fst st).

Definition particle_of (r : overflow_rec) : Z * list float := (o_id r, o_p r).

(** ** States between operations *)

(** The state of a container on which every batch has been reconciled. *)
Record wf (s : container) : Prop := {
  wf_nx : 0 < nx (geo s);
  wf_ny : 0 < ny (geo s);
  wf_len : Z.of_nat (length (blocks s)) = nx (geo s) * ny (geo s);
  wf_blocks : forall ij b, blk s ij = Some b -> block_ok b /\ co b <= mem b;
  wf_cnt : overflowPtCt s = 0;
  wf_cap : 1 <= overflow_mem_numPt s;
  wf_ovf : alen (overflow s) = overflow_mem_numPt s
}.

(** Record [r] has reached the container: its slot holds it, or the overflow
    buffer does. *)
Definition stored (s : container) (r : overflow_rec) : Prop :=
  exists b, blk s (o_ij r) = Some b /\
    if o_m r <? mem b then slot b (o_m r) = Some (particle_of r)
    else exists i, 0 <= i < overflowPtCt s /\
                   arr_get (overflow s) i = Some r.

Definition in_block (ij : Z) (L : list overflow_rec) : list overflow_rec :=
  filter (fun r => o_ij r = ij) L.

(** The state [s] with the calls [fl] in flight, inside a batch started from
    [s0]; [cs] are the calls started so far and [L] their reservations. *)
Record par_inv (s0 : container) (cs : list call) (L : list overflow_rec)
    (s : container) (fl : list overflow_rec) : Prop := {
  pi_wf : wf s0;
  pi_geo : geo s = geo s0;
  pi_len : length (blocks s) = length (blocks s0);
  pi_block : forall ij b0, blk s0 ij = Some b0 ->
    exists b, blk s ij = Some b /\ block_ok b /\ mem b = mem b0 /\
      co b = co b0 + Z.of_nat (length (in_block ij L)) /\
      (forall m, m < co b0 -> slot b m = slot b0 m);
  pi_slots : forall ij b0 k r, blk s0 ij = Some b0 ->
    in_block ij L !! k = Some r -> o_m r = co b0 + Z.of_nat k;
  pi_valid : forall r, r ∈ L -> exists b0, blk s0 (o_ij r) = Some b0;
  pi_flight : forall r, r ∈ fl -> r ∈ L;
  pi_stored : forall r, r ∈ L -> r ∈ fl \/ stored s r;
  pi_cnt : 0 <= overflowPtCt s <= overflow_mem_numPt s;
  pi_cap : 1 <= overflow_mem_numPt s;
  pi_ovf : alen (overflow s) = overflow_mem_numPt s;
  pi_recs : forall i, 0 <= i < overflowPtCt s ->
    exists r b0, arr_get (overflow s) i = Some r /\ r ∈ L /\
                 blk s0 (o_ij r) = Some b0 /\ mem b0 <= o_m r;
  pi_total : total_co s = total_co s0 + Z.of_nat (length L);
  pi_routed : forall ij, particle_of <$> in_block ij L = routed (geo s0) ij cs;
  pi_accepted : Z.of_nat (length L) = accepted (geo s0) cs
}.

(** ** Counting *)

Lemma sum_co_put (bs : list block) (ij : Z) (b b' : block) :
  block_at bs ij = Some b ->
  sum_co (put_block bs ij b') = sum_co bs - co b + co b'.
Proof.
  intros H. apply block_at_Some in H as [_ H]. unfold put_block.
  revert H. generalize (Z.to_nat ij) as k.
  induction bs as [|a bs IH]; intros k H; [discriminate|].
  destruct k as [|k]; simpl in *.
  - injection H as ->. lia.
  - rewrite (IH k H). lia.
Qed.

Lemma sum_co_same (bs bs' : list block) :
  length bs = length bs' ->
  (forall k b b', bs !! k = Some b -> bs' !! k = Some b' -> co b = co b') ->
  sum_co bs = sum_co bs'.
Proof.
  revert bs'. induction bs as [|a bs IH]; intros [|a' bs'] Hlen H;
    try discriminate; [reflexivity|].
  simpl. rewrite (H 0%nat a a' eq_refl eq_refl). f_equal.
  apply IH; [simpl in Hlen; lia|].
  intros k b b' Hb Hb'. exact (H (S k) b b' Hb Hb').
Qed.

Lemma in_block_snoc (ij : Z) (L : list overflow_rec) (r : overflow_rec) :
  in_block ij (L ++ [r])
  = in_block ij L ++ (if decide (o_ij r = ij) then [r] else []).
Proof.
  unfold in_block. rewrite filter_app. reflexivity.
Qed.

Lemma in_block_elem (ij : Z) (L : list overflow_rec) (r : overflow_rec) :
  r ∈ in_block ij L <-> o_ij r = ij /\ r ∈ L.
Proof. exact (list_elem_of_filter (fun r' => o_ij r' = ij) L r). Qed.

Lemma routed_snoc (g : geometry) (ij : Z) (cs : list call) (c : call) :
  routed g ij (cs ++ [c])
  = routed g ij cs ++ match route g c with
                      | Some (b, e) => if b =? ij then [e] else []
                      | None => []
                      end.
Proof.
  unfold routed. rewrite omap_app. f_equal. simpl.
  destruct (route g c) as [[b e]|]; [|reflexivity].
  destruct (b =? ij); reflexivity.
Qed.

Lemma accepted_snoc (g : geometry) (cs : list call) (c : call) :
  accepted g (cs ++ [c])
  = accepted g cs + match route g c with Some _ => 1 | None => 0 end.
Proof.
  unfold accepted. rewrite omap_app, length_app. simpl.
  destruct (route g c); simpl; lia.
Qed.

Lemma wf_block_inside (s : container) (ij : Z) :
  wf s -> 0 <= ij < nx (geo s) * ny (geo s) -> exists b, blk s ij = Some b.
Proof.
  intros Hwf Hij. apply block_at_inside. rewrite (wf_len _ Hwf). exact Hij.
Qed.

(** ** Batches *)

Lemma par_inv_init (s0 : container) : wf s0 -> par_inv s0 [] [] s0 [].
Proof.
  intros Hwf. split; try reflexivity; try exact Hwf.
  - intros ij b0 Hb. exists b0. split; [exact Hb|].
    split; [apply (wf_blocks _ Hwf _ _ Hb)|]. split; [reflexivity|].
    split; [simpl; lia|]. reflexivity.
  - intros ij b0 k r _ H. discriminate.
  - intros r H. inversion H.
  - intros r H. inversion H.
  - intros r H. inversion H.
  - rewrite (wf_cnt _ Hwf). pose proof (wf_cap _ Hwf). lia.
  - apply (wf_cap _ Hwf).
  - apply (wf_ovf _ Hwf).
  - intros i Hi. rewrite (wf_cnt _ Hwf) in Hi. lia.
  - simpl. lia.
Qed.

(** A record that has reached the container stays there when its block keeps
    its capacity and its slot, and the overflow buffer keeps its records. *)
Lemma stored_keep (s s' : container) (r : overflow_rec) :
  stored s r ->
  (forall b, blk s (o_ij r) = Some b ->
     exists b', blk s' (o_ij r) = Some b' /\ mem b' = mem b /\
                slot b' (o_m r) = slot b (o_m r)) ->
  overflowPtCt s <= overflowPtCt s' ->
  (forall i, 0 <= i < overflowPtCt s ->
     arr_get (overflow s') i = arr_get (overflow s) i) ->
  stored s' r.
Proof.
  intros (b & Hb & Hst) Hblk Hcnt Hovf.
  destruct (Hblk b Hb) as (b' & Hb' & Hmem & Hslot).
  exists b'. split; [exact Hb'|]. rewrite Hmem.
  destruct (o_m r <? mem b).
  - now rewrite Hslot.
  - destruct Hst as (i & Hi & Hget). exists i. split; [lia|].
    now rewrite Hovf.
Qed.

Lemma blk_set_blocks_eq (s : container) (bs : list block) (ij : Z) (b : block) :
  0 <= ij < Z.of_nat (length bs) ->
  blk (set_blocks s (put_block bs ij b)) ij = Some b.
Proof. intros H. unfold blk. cbn [blocks set_blocks]. now apply block_at_put_eq. Qed.

Lemma blk_set_blocks_ne (s : container) (ij k : Z) (b : block) :
  0 <= ij -> k <> ij ->
  blk (set_blocks s (put_block (blocks s) ij b)) k = blk s k.
Proof.
  intros H Hk. unfold blk. cbn [blocks set_blocks]. now apply block_at_put_ne.
Qed.

Lemma par_inv_reserve (s0 : container) (cs : list call) (L : list overflow_rec)
    (s : container) (fl : list overflow_rec) (i : Z) (x y : float)
    (rest : list float) :
  par_inv s0 cs L s fl ->
  exists s' fl' L',
    par_step (Reserve i x y rest) (s, fl) = Ok (s', fl') /\
    par_inv s0 (cs ++ [{| c_id := i; c_x := x; c_y := y; c_rest := rest |}])
            L' s' fl' /\
    length fl' = match put_remap (geo s0) x y with
                 | Some _ => S (length fl)
                 | None => length fl
                 end.
Proof.
  intros Hinv. pose proof (pi_wf _ _ _ _ _ Hinv) as Hwf.
  set (c := {| c_id := i; c_x := x; c_y := y; c_rest := rest |}).
  unfold par_step, put_parallel_reserve. cbn [fst snd].
  rewrite (pi_geo _ _ _ _ _ Hinv).
  assert (Hroute : route (geo s0) c
                   = match put_remap (geo s0) x y with
                     | Some (ij, x', y') => Some (ij, (i, x' :: y' :: rest))
                     | None => None
                     end) by reflexivity.
  destruct (put_remap (geo s0) x y) as [[[ij x'] y']|] eqn:Er.
  - pose proof (put_remap_range _ _ _ _ _ _ (wf_nx _ Hwf) (wf_ny _ Hwf) Er)
      as Hij.
    destruct (wf_block_inside s0 ij Hwf Hij) as [b0 Hb0].
    destruct (pi_block _ _ _ _ _ Hinv ij b0 Hb0)
      as (b & Hb & Hok & Hmem & Hco & Hsl).
    unfold get_block. unfold blk in Hb. rewrite Hb. cbn [obind fst snd].
    set (r := {| o_ij := ij; o_m := co b; o_id := i;
                 o_p := x' :: y' :: rest |}).
    set (s' := set_blocks s (put_block (blocks s) ij (set_co b (co b + 1)))).
    pose proof (block_at_Some _ _ _ Hb) as [Hr _].
    assert (Hsame : forall k, k <> ij -> blk s' k = blk s k).
    { intros k Hk. apply blk_set_blocks_ne; [lia|exact Hk]. }
    assert (Hnew : blk s' ij = Some (set_co b (co b + 1))).
    { apply blk_set_blocks_eq. exact Hr. }
    exists s', (fl ++ [r]), (L ++ [r]). split; [reflexivity|].
    split; [|rewrite length_app; simpl; lia].
    split.
    + exact Hwf.
    + exact (pi_geo _ _ _ _ _ Hinv).
    + unfold s'. cbn [blocks set_blocks]. rewrite length_put_block.
      exact (pi_len _ _ _ _ _ Hinv).
    + intros k bk Hbk. rewrite in_block_snoc. cbn [o_ij r].
      destruct (Z.eq_dec k ij) as [->|Hne].
      * assert (bk = b0) as -> by congruence.
        exists (set_co b (co b + 1)). split; [exact Hnew|].
        split; [apply block_ok_set_co; [exact Hok|]; pose proof (ok_co _ Hok); lia|].
        split; [exact Hmem|].
        split; [|intros m Hm; rewrite slot_set_co; apply Hsl; exact Hm].
        rewrite decide_True by reflexivity. rewrite length_app.
        cbn [co set_co length]. lia.
      * rewrite decide_False by congruence. rewrite app_nil_r.
        rewrite Hsame by exact Hne.
        exact (pi_block _ _ _ _ _ Hinv k bk Hbk).
    + intros k bk n r' Hbk. rewrite in_block_snoc. cbn [o_ij r].
      destruct (Z.eq_dec k ij) as [->|Hne].
      * assert (bk = b0) as -> by congruence.
        rewrite decide_True by reflexivity. intros Hlk.
        apply lookup_app_Some in Hlk as [Hlk|[Hge Hlk]].
        -- exact (pi_slots _ _ _ _ _ Hinv ij b0 n r' Hb0 Hlk).
        -- destruct (n - length (in_block ij L))%nat as [|n'] eqn:En;
             [|discriminate].
           injection Hlk as <-. cbn [o_m r]. lia.
      * rewrite decide_False by congruence. rewrite app_nil_r.
        exact (pi_slots _ _ _ _ _ Hinv k bk n r' Hbk).
    + intros r' Hr'. apply elem_of_app in Hr' as [Hr'|Hr'].
      * exact (pi_valid _ _ _ _ _ Hinv r' Hr').
      * apply list_elem_of_singleton in Hr' as ->. exists b0. exact Hb0.
    + intros r' Hr'. apply elem_of_app. apply elem_of_app in Hr' as [Hr'|Hr'].
      * left. exact (pi_flight _ _ _ _ _ Hinv r' Hr').
      * right. exact Hr'.
    + intros r' Hr'. apply elem_of_app in Hr' as [Hr'|Hr'].
      * destruct (pi_stored _ _ _ _ _ Hinv r' Hr') as [Hfl|Hst].
        -- left. apply elem_of_app. left. exact Hfl.
        -- right. apply (stored_keep s s' r' Hst); [|reflexivity|reflexivity].
           intros b1 Hb1. destruct (Z.eq_dec (o_ij r') ij) as [E|Hne].
           ++ rewrite E in *. assert (b1 = b) as -> by (unfold blk in Hb1; congruence).
              exists (set_co b (co b + 1)). split; [exact Hnew|]. split; reflexivity.
           ++ exists b1. rewrite Hsame by exact Hne. split; [exact Hb1|].
              split; reflexivity.
      * left. apply elem_of_app. right. exact Hr'.
    + exact (pi_cnt _ _ _ _ _ Hinv).
    + exact (pi_cap _ _ _ _ _ Hinv).
    + exact (pi_ovf _ _ _ _ _ Hinv).
    + intros k Hk.
      destruct (pi_recs _ _ _ _ _ Hinv k Hk) as (r' & b1 & Hg & Hin & Hb1 & Hm).
      exists r', b1. split; [exact Hg|]. split; [|split; assumption].
      apply elem_of_app. left. exact Hin.
    + unfold total_co, s'. cbn [blocks set_blocks].
      rewrite (sum_co_put _ _ b) by exact Hb. rewrite length_app.
      pose proof (pi_total _ _ _ _ _ Hinv) as Ht. unfold total_co in Ht.
      cbn [co set_co length]. lia.
    + intros k. rewrite in_block_snoc, routed_snoc, Hroute, fmap_app.
      rewrite (pi_routed _ _ _ _ _ Hinv k). f_equal. cbn [o_ij r].
      destruct (ij =? k) eqn:E.
      * apply Z.eqb_eq in E. rewrite decide_True by exact E. reflexivity.
      * apply Z.eqb_neq in E. rewrite decide_False by exact E. reflexivity.
    + rewrite length_app, accepted_snoc, Hroute.
      pose proof (pi_accepted _ _ _ _ _ Hinv). simpl. lia.
  - exists s, fl, L. split; [reflexivity|]. split; [|reflexivity].
    destruct Hinv. split; try assumption.
    + intros k. rewrite routed_snoc, Hroute, app_nil_r. apply pi_routed0.
    + rewrite accepted_snoc, Hroute. lia.
Qed.

Lemma elem_of_delete_other {A} (l : list A) (k k' : nat) (x : A) :
  l !! k' = Some x -> k' <> k -> x ∈ delete k l.
Proof.
  intros H Hne. destruct (Nat.lt_ge_cases k' k) as [Hlt|Hge].
  - apply (list_elem_of_lookup_2 _ k'). rewrite list_lookup_delete_lt by exact Hlt.
    exact H.
  - destruct k' as [|n]; [lia|].
    apply (list_elem_of_lookup_2 _ n). rewrite list_lookup_delete_ge by lia.
    exact H.
Qed.

(** Inside a batch no two reservations name the same slot. *)
Lemma par_inv_key (s0 : container) (cs : list call) (L : list overflow_rec)
    (s : container) (fl : list overflow_rec) (r r' : overflow_rec) :
  par_inv s0 cs L s fl -> r ∈ L -> r' ∈ L ->
  o_ij r = o_ij r' -> o_m r = o_m r' -> r = r'.
Proof.
  intros Hinv Hr Hr' Hij Hm.
  destruct (pi_valid _ _ _ _ _ Hinv r Hr) as [b0 Hb0].
  assert (H1 : r ∈ in_block (o_ij r) L) by (apply in_block_elem; auto).
  assert (H2 : r' ∈ in_block (o_ij r) L) by (apply in_block_elem; auto).
  apply list_elem_of_lookup_1 in H1 as [k Hk].
  apply list_elem_of_lookup_1 in H2 as [k' Hk'].
  pose proof (pi_slots _ _ _ _ _ Hinv _ _ _ _ Hb0 Hk) as E1.
  pose proof (pi_slots _ _ _ _ _ Hinv _ _ _ _ Hb0 Hk') as E2.
  assert (k = k') as -> by lia. congruence.
Qed.

(** A reservation names a slot between the count at the start of the batch
    and the current count. *)
Lemma par_inv_slot_range (s0 : container) (cs : list call)
    (L : list overflow_rec) (s : container) (fl : list overflow_rec)
    (r : overflow_rec) (b0 b : block) :
  par_inv s0 cs L s fl -> r ∈ L ->
  blk s0 (o_ij r) = Some b0 -> blk s (o_ij r) = Some b ->
  0 <= co b0 <= o_m r /\ o_m r < co b.
Proof.
  intros Hinv Hr Hb0 Hb.
  assert (H1 : r ∈ in_block (o_ij r) L) by (apply in_block_elem; auto).
  apply list_elem_of_lookup_1 in H1 as [k Hk].
  pose proof (pi_slots _ _ _ _ _ Hinv _ _ _ _ Hb0 Hk) as E1.
  pose proof (lookup_lt_Some _ _ _ Hk) as Hlt.
  destruct (pi_block _ _ _ _ _ Hinv _ _ Hb0) as (b' & Hb' & _ & _ & Hco & _).
  assert (b' = b) as -> by congruence.
  pose proof (wf_blocks _ (pi_wf _ _ _ _ _ Hinv) _ _ Hb0) as [Hok _].
  pose proof (ok_co _ Hok). lia.
Qed.

Lemma overflow_append_Ok (s : container) (r : overflow_rec) :
  0 <= overflowPtCt s <= overflow_mem_numPt s ->
  1 <= overflow_mem_numPt s ->
  alen (overflow s) = overflow_mem_numPt s ->
  exists s', overflow_append s r = Ok s' /\
    blocks s' = blocks s /\ geo s' = geo s /\
    overflowPtCt s' = overflowPtCt s + 1 /\
    overflowPtCt s' <= overflow_mem_numPt s' /\
    1 <= overflow_mem_numPt s' /\
    alen (overflow s') = overflow_mem_numPt s' /\
    arr_get (overflow s') (overflowPtCt s) = Some r /\
    (forall i, 0 <= i < overflowPtCt s ->
       arr_get (overflow s') i = arr_get (overflow s) i).
Proof.
  intros Hcnt Hcap Hlen. unfold overflow_append.
  destruct (overflowPtCt s + 1 >? overflow_mem_numPt s) eqn:E.
  - assert (Hfull : overflowPtCt s = overflow_mem_numPt s) by lia.
    destruct (arr_copy_new_inside (overflow s) (overflow_mem_numPt s * 2)
                (overflow_mem_numPt s)) as [o Ho]; [lia|lia|].
    rewrite Ho. cbn [obind fst snd].
    apply arr_copy_new_Ok in Ho as (_ & _ & Hlen' & Hkeep & _).
    destruct (arr_set_inside o (overflowPtCt s) r) as [o' Ho']; [lia|].
    rewrite Ho'. cbn [obind]. eexists. split; [reflexivity|].
    apply arr_set_Ok in Ho' as (_ & Hl & Hg & Hother).
    cbn [blocks geo overflowPtCt overflow_mem_numPt overflow set_overflow].
    repeat split; try lia; try exact Hg.
    intros i Hi. rewrite Hother by lia. apply Hkeep. lia.
  - cbn [obind fst snd].
    destruct (arr_set_inside (overflow s) (overflowPtCt s) r) as [o' Ho'];
      [lia|].
    rewrite Ho'. cbn [obind]. eexists. split; [reflexivity|].
    apply arr_set_Ok in Ho' as (_ & Hl & Hg & Hother).
    cbn [blocks geo overflowPtCt overflow_mem_numPt overflow set_overflow].
    repeat split; try lia; try exact Hg.
    intros i Hi. apply Hother. lia.
Qed.

Lemma par_inv_commit (s0 : container) (cs : list call) (L : list overflow_rec)
    (s : container) (fl : list overflow_rec) (k : nat) :
  par_inv s0 cs L s fl ->
  exists s' fl',
    par_step (Commit k) (s, fl) = Ok (s', fl') /\
    par_inv s0 cs L s' fl' /\
    length fl' = if (k <? length fl)%nat then pred (length fl) else length fl.
Proof.
  intros Hinv. unfold par_step. cbn [fst snd].
  destruct (fl !! k) as [r|] eqn:Ek.
  2:{ exists s, fl. split; [reflexivity|]. split; [exact Hinv|].
      apply lookup_ge_None_1 in Ek.
      replace (k <? length fl)%nat with false; [reflexivity|].
      symmetry. apply Nat.ltb_ge. exact Ek. }
  assert (Hlen : length (delete k fl)
                 = if (k <? length fl)%nat then pred (length fl) else length fl).
  { pose proof (lookup_lt_Some _ _ _ Ek) as Hlt.
    rewrite length_delete by eauto.
    replace (k <? length fl)%nat with true by (symmetry; apply Nat.ltb_lt; lia).
    lia. }
  assert (HrL : r ∈ L).
  { apply (pi_flight _ _ _ _ _ Hinv). eapply list_elem_of_lookup_2. exact Ek. }
  destruct (pi_valid _ _ _ _ _ Hinv r HrL) as [b0 Hb0].
  destruct (pi_block _ _ _ _ _ Hinv _ _ Hb0) as (b & Hb & Hok & Hmem & Hco & Hsl).
  pose proof (par_inv_slot_range _ _ _ _ _ _ _ _ Hinv HrL Hb0 Hb) as [Hlo Hhi].
  pose proof (block_at_Some _ _ _ Hb) as [Hrng _].
  unfold put_parallel_commit, get_block. unfold blk in Hb. rewrite Hb.
  cbn [obind].
  assert (Hfl' : forall r', r' ∈ fl -> r' = r \/ r' ∈ delete k fl).
  { intros r' Hr'. apply list_elem_of_lookup_1 in Hr' as [k' Hk'].
    destruct (Nat.eq_dec k' k) as [->|Hne].
    - left. congruence.
    - right. eapply elem_of_delete_other; eassumption. }
  destruct (o_m r <? mem b) eqn:Edir.
  - destruct (store_inside b (o_m r) (o_id r) (o_p r) Hok) as [b' Hb']; [lia|].
    rewrite Hb'. cbn [obind].
    apply store_Ok in Hb' as (Hok' & Hco' & Hmem' & _ & Hs' & Ho'); [|exact Hok].
    set (s' := set_blocks s (put_block (blocks s) (o_ij r) b')).
    assert (Hsame : forall j, j <> o_ij r -> blk s' j = blk s j).
    { intros j Hj. apply blk_set_blocks_ne; [lia|exact Hj]. }
    assert (Hnew : blk s' (o_ij r) = Some b').
    { apply blk_set_blocks_eq. exact Hrng. }
    assert (Hst : stored s' r).
    { exists b'. split; [exact Hnew|]. rewrite Hmem', Edir. exact Hs'. }
    exists s', (delete k fl). split; [reflexivity|]. split; [|exact Hlen].
    split.
    + exact (pi_wf _ _ _ _ _ Hinv).
    + exact (pi_geo _ _ _ _ _ Hinv).
    + unfold s'. cbn [blocks set_blocks]. rewrite length_put_block.
      exact (pi_len _ _ _ _ _ Hinv).
    + intros j bj Hbj. destruct (Z.eq_dec j (o_ij r)) as [->|Hne].
      * assert (bj = b0) as -> by congruence.
        exists b'. split; [exact Hnew|]. split; [exact Hok'|].
        split; [congruence|]. split; [congruence|].
        intros m Hm. rewrite Ho' by lia. apply Hsl. exact Hm.
      * rewrite Hsame by exact Hne. exact (pi_block _ _ _ _ _ Hinv j bj Hbj).
    + exact (pi_slots _ _ _ _ _ Hinv).
    + exact (pi_valid _ _ _ _ _ Hinv).
    + intros r' Hr'. apply (pi_flight _ _ _ _ _ Hinv).
      eapply list_elem_of_delete_inv. exact Hr'.
    + intros r' Hr'.
      destruct (decide (o_ij r' = o_ij r /\ o_m r' = o_m r)) as [[E1 E2]|Hkey].
      * assert (r' = r) as -> by (eapply par_inv_key; eassumption).
        right. exact Hst.
      * destruct (pi_stored _ _ _ _ _ Hinv r' Hr') as [Hin|Hold].
        -- destruct (Hfl' r' Hin) as [->|Hd]; [right; exact Hst|left; exact Hd].
        -- right. apply (stored_keep s s' r' Hold); [|reflexivity|reflexivity].
           intros b1 Hb1. destruct (Z.eq_dec (o_ij r') (o_ij r)) as [E|Hne].
           ++ rewrite E in *. assert (b1 = b) as -> by (unfold blk in Hb1; congruence).
              exists b'. split; [exact Hnew|]. split; [exact Hmem'|].
              apply Ho'. intros E2. apply Hkey. split; [reflexivity|exact E2].
           ++ exists b1. rewrite Hsame by exact Hne. split; [exact Hb1|].
              split; reflexivity.
    + exact (pi_cnt _ _ _ _ _ Hinv).
    + exact (pi_cap _ _ _ _ _ Hinv).
    + exact (pi_ovf _ _ _ _ _ Hinv).
    + exact (pi_recs _ _ _ _ _ Hinv).
    + unfold total_co, s'. cbn [blocks set_blocks].
      rewrite (sum_co_put _ _ b) by exact Hb.
      pose proof (pi_total _ _ _ _ _ Hinv) as Ht. unfold total_co in Ht. lia.
    + exact (pi_routed _ _ _ _ _ Hinv).
    + exact (pi_accepted _ _ _ _ _ Hinv).
  - destruct (overflow_append_Ok s r (pi_cnt _ _ _ _ _ Hinv)
                (pi_cap _ _ _ _ _ Hinv) (pi_ovf _ _ _ _ _ Hinv))
      as (s' & Happ & Hbs & Hgeo & Hcnt & Hle & Hcap & Hovf & Hget & Hkeep).
    rewrite Happ. pose proof (pi_cnt _ _ _ _ _ Hinv) as Hc.
    assert (Hblk : forall j, blk s' j = blk s j).
    { intros j. unfold blk. now rewrite Hbs. }
    assert (Hst : stored s' r).
    { exists b. split; [rewrite Hblk; exact Hb|]. rewrite Edir.
      exists (overflowPtCt s). split; [lia|exact Hget]. }
    exists s', (delete k fl). split; [reflexivity|]. split; [|exact Hlen].
    split.
    + exact (pi_wf _ _ _ _ _ Hinv).
    + rewrite Hgeo. exact (pi_geo _ _ _ _ _ Hinv).
    + rewrite Hbs. exact (pi_len _ _ _ _ _ Hinv).
    + intros j bj Hbj. rewrite Hblk. exact (pi_block _ _ _ _ _ Hinv j bj Hbj).
    + exact (pi_slots _ _ _ _ _ Hinv).
    + exact (pi_valid _ _ _ _ _ Hinv).
    + intros r' Hr'. apply (pi_flight _ _ _ _ _ Hinv).
      eapply list_elem_of_delete_inv. exact Hr'.
    + intros r' Hr'.
      destruct (pi_stored _ _ _ _ _ Hinv r' Hr') as [Hin|Hold].
      * destruct (Hfl' r' Hin) as [->|Hd]; [right; exact Hst|left; exact Hd].
      * right. apply (stored_keep s s' r' Hold); [|lia|exact Hkeep].
        intros b1 Hb1. exists b1. rewrite Hblk. split; [exact Hb1|].
        split; reflexivity.
    + lia.
    + exact Hcap.
    + exact Hovf.
    + intros i Hi. destruct (Z.eq_dec i (overflowPtCt s)) as [->|Hne].
      * exists r, b0. split; [exact Hget|]. split; [exact HrL|].
        split; [exact Hb0|]. lia.
      * rewrite Hkeep by lia. apply (pi_recs _ _ _ _ _ Hinv). lia.
    + unfold total_co. rewrite Hbs. exact (pi_total _ _ _ _ _ Hinv).
    + exact (pi_routed _ _ _ _ _ Hinv).
    + exact (pi_accepted _ _ _ _ _ Hinv).
Qed.

(** Every schedule runs to a state of the batch invariant: no part of a call
    aborts or leaves the arrays. *)
Lemma run_schedule_inv (sched : list action) :
  forall s0 cs L s fl,
  par_inv s0 cs L s fl ->
  exists s' fl' L',
    run_schedule sched (s, fl) = Ok (s', fl') /\
    par_inv s0 (cs ++ calls_of sched) L' s' fl' /\
    length fl' = in_flight_after (geo s0) sched (length fl).
Proof.
  induction sched as [|a sched IH]; intros s0 cs L s fl Hinv.
  - exists s, fl, L. split; [reflexivity|]. split; [|reflexivity].
    unfold calls_of. simpl. rewrite app_nil_r. exact Hinv.
  - destruct a as [i x y rest|k].
    + destruct (par_inv_reserve _ _ _ _ _ i x y rest Hinv)
        as (s1 & fl1 & L1 & Hstep & Hinv1 & Hlen1).
      destruct (IH _ _ _ _ _ Hinv1) as (s' & fl' & L' & Hrun & Hinv' & Hlen').
      exists s', fl', L'. cbn [run_schedule]. rewrite Hstep. cbn [obind].
      split; [exact Hrun|]. split.
      * unfold calls_of in *. cbn [omap list_omap]. rewrite <- app_assoc in Hinv'.
        exact Hinv'.
      * rewrite Hlen'. cbn [in_flight_after]. f_equal. rewrite Hlen1.
        reflexivity.
    + destruct (par_inv_commit _ _ _ _ _ k Hinv)
        as (s1 & fl1 & Hstep & Hinv1 & Hlen1).
      destruct (IH _ _ _ _ _ Hinv1) as (s' & fl' & L' & Hrun & Hinv' & Hlen').
      exists s', fl', L'. cbn [run_schedule]. rewrite Hstep. cbn [obind].
      split; [exact Hrun|]. split; [exact Hinv'|].
      rewrite Hlen'. cbn [in_flight_after]. f_equal. exact Hlen1.
Qed.

Lemma last_rec_Some (rs : list (option overflow_rec)) (ij m : Z)
    (r : overflow_rec) :
  last_rec rs ij m = Some r -> In (Some r) rs /\ o_ij r = ij /\ o_m r = m.
Proof.
  induction rs as [|o rs IH]; [discriminate|]. cbn [last_rec].
  destruct (last_rec rs ij m) as [r'|].
  - intros [= ->]. destruct (IH eq_refl) as (H1 & H2 & H3).
    split; [right; exact H1|]. split; assumption.
  - destruct o as [r'|]; [|discriminate].
    destruct (rec_at r' ij m) eqn:E; [|discriminate]. intros [= ->].
    unfold rec_at in E. apply andb_true_iff in E as [E1 E2].
    apply Z.eqb_eq in E1, E2. split; [left; reflexivity|]. split; assumption.
Qed.

Lemma last_rec_None (rs : list (option overflow_rec)) (ij m : Z)
    (r : overflow_rec) :
  last_rec rs ij m = None -> In (Some r) rs -> ~ (o_ij r = ij /\ o_m r = m).
Proof.
  induction rs as [|o rs IH]; [intros _ []|]. cbn [last_rec].
  destruct (last_rec rs ij m) as [r'|]; [discriminate|].
  intros H [->|Hin]; [|apply IH; [reflexivity|exact Hin]].
  destruct (rec_at r ij m) eqn:E; [discriminate|].
  unfold rec_at in E. apply andb_false_iff in E as [E|E];
    apply Z.eqb_neq in E; tauto.
Qed.

Lemma reconcile_loop_total (rs : list (option overflow_rec)) :
  forall bs,
  blocks_ok bs ->
  (forall o, In o rs ->
     exists r, o = Some r /\ 0 <= o_m r /\
               0 <= o_ij r < Z.of_nat (length bs)) ->
  (exists bs', reconcile_loop rs bs = Ok bs') \/
  (reconcile_loop rs bs = Fatal /\
   exists r b0 (j : nat),
     In (Some r) rs /\ block_at bs (o_ij r) = Some b0 /\
     max_particle_memory < mem b0 * 2 ^ Z.of_nat j /\
     mem b0 * 2 ^ Z.of_nat j <= 2 * o_m r /\ mem b0 <= o_m r).
Proof.
  induction rs as [|o rs IH]; intros bs Hbs Hrs; [left; eexists; reflexivity|].
  destruct (Hrs o (or_introl eq_refl)) as (r & -> & Hm & Hij).
  cbn [reconcile_loop]. unfold reconcile_record, get_block.
  destruct (block_at_inside bs (o_ij r) Hij) as [b Hb]. rewrite Hb.
  cbn [obind]. pose proof (Hbs _ _ Hb) as Hok.
  destruct (reconcile_block_total b r Hok Hm)
    as [[b' Hb']|(Hfat & Hle & j & Hj & Hmax)].
  - rewrite Hb'. cbn [obind].
    apply reconcile_block_Ok in Hb' as (Hok' & _ & _ & _ & _ & Hmem);
      [|exact Hok].
    destruct (IH (put_block bs (o_ij r) b'))
      as [[bs' Hbs']|(Hf & r' & b1 & j' & Hin & Hb1 & Hgt & Hle' & Hlo')].
    + apply blocks_ok_put; [exact Hbs|exact Hok'|lia].
    + intros o Ho. rewrite length_put_block. apply Hrs. right. exact Ho.
    + left. eauto.
    + right. split; [exact Hf|].
      destruct (Z.eq_dec (o_ij r') (o_ij r)) as [E|Hne].
      * rewrite E, block_at_put_eq in Hb1 by exact Hij. injection Hb1 as <-.
        destruct Hmem as [[_ Hm']|(_ & _ & _ & j1 & Hm')].
        -- exists r', b, j'. rewrite E, <- Hm'.
           split; [right; exact Hin|]. split; [exact Hb|].
           split; [assumption|split; assumption].
        -- exists r', b, (S j1 + j')%nat.
           rewrite (Nat2Z.inj_add (S j1) j'), Z.pow_add_r by lia.
           rewrite Z.mul_assoc, <- Hm', E.
           split; [right; exact Hin|]. split; [exact Hb|].
           split; [assumption|split; [assumption|]].
           pose proof (ok_mem _ Hok).
           assert (1 <= 2 ^ Z.of_nat (S j1))
             by (apply Z.pow_le_mono_r with (b:=0); lia).
           nia.
      * rewrite block_at_put_ne in Hb1 by (lia || assumption).
        exists r', b1, j'. split; [right; exact Hin|]. split; [exact Hb1|].
        split; [assumption|split; assumption].
  - right. rewrite Hfat. cbn [obind]. split; [reflexivity|].
    exists r, b, (S j). split; [left; reflexivity|]. split; [exact Hb|].
    split; [lia|split; lia].
Qed.

(** ** A batch followed by reconciliation *)

Lemma entries_lookup (b : block) (n : nat) :
  entries b !! n
  = if decide (Z.of_nat n < co b) then Some (slot b (Z.of_nat n)) else None.
Proof.
  unfold entries. rewrite list_lookup_fmap.
  destruct (decide (Z.of_nat n < co b)) as [H|H].
  - rewrite lookup_seqZ_lt by exact H. reflexivity.
  - rewrite lookup_seqZ_ge by lia. reflexivity.
Qed.

Lemma length_entries (b : block) : length (entries b) = Z.to_nat (co b).
Proof. unfold entries. now rewrite length_fmap, length_seqZ. Qed.

Lemma take_records {A} (a : arr A) (n : Z) (o : option A) :
  In o (take (Z.to_nat n) a) ->
  exists i, 0 <= i < n /\ 0 <= i < alen a /\ arr_get a i = o.
Proof.
  intros H. apply list_elem_of_In, list_elem_of_lookup_1 in H as [k Hk].
  apply lookup_take_Some in Hk as [Hk Hlt].
  pose proof (lookup_lt_Some _ _ _ Hk) as Hlen.
  exists (Z.of_nat k). unfold alen. split; [lia|]. split; [lia|].
  unfold arr_get. replace (in_range a (Z.of_nat k)) with true.
  - rewrite Nat2Z.id, Hk. reflexivity.
  - symmetry. apply in_range_true. unfold alen. lia.
Qed.

Lemma records_take {A} (a : arr A) (n i : Z) (r : A) :
  0 <= i < n -> arr_get a i = Some r -> In (Some r) (take (Z.to_nat n) a).
Proof.
  intros Hi H. pose proof (arr_get_inside _ _ _ H) as Hin.
  unfold arr_get in H. apply in_range_true in Hin as Hr. rewrite Hr in H.
  destruct (a !! Z.to_nat i) as [o|] eqn:E; [|discriminate].
  simpl in H. subst o.
  apply list_elem_of_In. apply (list_elem_of_lookup_2 _ (Z.to_nat i)).
  rewrite lookup_take_lt by lia. exact E.
Qed.

(** What [put_reconcile_overflow] finds at the end of a batch and what it
    leaves. *)
Lemma round_reconcile (s0 : container) (cs : list call)
    (L : list overflow_rec) (s : container) :
  par_inv s0 cs L s [] ->
  ((exists s', put_reconcile_overflow s = Ok s') \/
   (put_reconcile_overflow s = Fatal /\
    exists ij b0 (j : nat), blk s0 ij = Some b0 /\
      max_particle_memory < mem b0 * 2 ^ Z.of_nat j /\
      mem b0 * 2 ^ Z.of_nat j
      <= 2 * (co b0 + Z.of_nat (length (routed (geo s0) ij cs)) - 1) /\
      mem b0 < co b0 + Z.of_nat (length (routed (geo s0) ij cs)))) /\
  forall s', put_reconcile_overflow s = Ok s' ->
    wf s' /\ geo s' = geo s0 /\
    total_co s' = total_co s0 + accepted (geo s0) cs /\
    forall ij b0, blk s0 ij = Some b0 ->
      exists b', blk s' ij = Some b' /\
        co b' = co b0 + Z.of_nat (length (routed (geo s0) ij cs)) /\
        entries b' = entries b0 ++ (Some <$> routed (geo s0) ij cs) /\
        (exists j : nat, mem b' = mem b0 * 2 ^ Z.of_nat j) /\
        (mem b' = mem b0 \/
         (mem b' <= max_particle_memory /\ mem b' <= 2 * (co b' - 1))).
Proof.
  intros Hinv. pose proof (pi_wf _ _ _ _ _ Hinv) as Hwf.
  pose proof (pi_cnt _ _ _ _ _ Hinv) as Hcnt.
  pose proof (pi_ovf _ _ _ _ _ Hinv) as Hovf.
  set (rs := take (Z.to_nat (overflowPtCt s)) (overflow s)).
  assert (Hlenr : forall ij, particle_of <$> in_block ij L = routed (geo s0) ij cs)
    by exact (pi_routed _ _ _ _ _ Hinv).
  assert (Hlen : forall ij, length (in_block ij L)
                            = length (routed (geo s0) ij cs)).
  { intros ij. rewrite <- Hlenr, length_fmap. reflexivity. }
  assert (Hrs : forall o, In o rs ->
            exists r b0, o = Some r /\ r ∈ L /\
                         blk s0 (o_ij r) = Some b0 /\ mem b0 <= o_m r).
  { intros o Ho. apply take_records in Ho as (i & Hi & _ & Hget).
    destruct (pi_recs _ _ _ _ _ Hinv i Hi) as (r & b0 & Hg & HrL & Hb0 & Hm).
    exists r, b0. split; [congruence|]. auto. }
  assert (Hcur : forall ij b, blk s ij = Some b ->
            exists b0, blk s0 ij = Some b0 /\ block_ok b /\ mem b = mem b0 /\
              co b = co b0 + Z.of_nat (length (in_block ij L)) /\
              (forall m, m < co b0 -> slot b m = slot b0 m)).
  { intros ij b Hb. pose proof (block_at_Some _ _ _ Hb) as [Hr _].
    rewrite (pi_len _ _ _ _ _ Hinv) in Hr.
    destruct (block_at_inside _ _ Hr) as [b0 Hb0].
    destruct (pi_block _ _ _ _ _ Hinv ij b0 Hb0) as (b1 & Hb1 & H).
    assert (b1 = b) as -> by congruence. exists b0. split; [exact Hb0|exact H]. }
  assert (Hbsok : blocks_ok (blocks s)).
  { intros ij b Hb. destruct (Hcur ij b Hb) as (_ & _ & Hok & _). exact Hok. }
  assert (Hrange : forall r, r ∈ L -> forall b0 b,
            blk s0 (o_ij r) = Some b0 -> blk s (o_ij r) = Some b ->
            0 <= co b0 <= o_m r /\ o_m r < co b).
  { intros r Hr b0 b Hb0 Hb. eapply par_inv_slot_range; eassumption. }
  unfold put_reconcile_overflow.
  replace (overflowPtCt s <=? alen (overflow s)) with true
    by (symmetry; apply Z.leb_le; lia).
  fold rs. split.
  - destruct (reconcile_loop_total rs (blocks s) Hbsok)
      as [[bs' Hbs']|(Hf & r & b & j & Hin & Hb & Hgt & Hle & Hlow)].
    + intros o Ho. destruct (Hrs o Ho) as (r & b0 & -> & HrL & Hb0 & Hm).
      exists r. split; [reflexivity|].
      destruct (pi_block _ _ _ _ _ Hinv _ _ Hb0) as (b & Hb & _).
      destruct (Hrange r HrL b0 b Hb0 Hb) as [Hlo _].
      apply block_at_Some in Hb as [Hr _]. split; [lia|exact Hr].
    + left. rewrite Hbs'. cbn [obind]. eauto.
    + right. rewrite Hf. split; [reflexivity|].
      destruct (Hrs _ Hin) as (r' & b0 & [= <-] & HrL & Hb0 & Hm).
      destruct (Hcur _ _ Hb) as (b0' & Hb0' & _ & Hmem & Hco & _).
      assert (b0' = b0) as -> by congruence.
      destruct (Hrange r HrL b0 b Hb0 Hb) as [_ Hhi].
      exists (o_ij r), b0, j. split; [exact Hb0|]. rewrite <- Hmem.
      split; [exact Hgt|]. rewrite <- Hlen. split; lia.
  - intros s' Hs'.
    destruct (reconcile_loop rs (blocks s)) as [bs'| | |] eqn:Eloop;
      try discriminate.
    cbn [obind] in Hs'. injection Hs' as <-.
    apply reconcile_loop_Ok in Eloop as [Hlen' Hfin]; [|exact Hbsok].
    assert (Hblk' : forall ij, blk (set_overflow (set_blocks s bs')
                      (overflow_mem_numPt s) 0 (overflow s)) ij
                    = block_at bs' ij) by reflexivity.
    (* the final slots *)
    assert (Hslots : forall ij b0 b b',
      blk s0 ij = Some b0 -> blk s ij = Some b ->
      (forall m, slot b' m = match last_rec rs ij m with
                             | Some r => Some (o_id r, o_p r)
                             | None => slot b m
                             end) ->
      (forall m, m < co b0 -> slot b' m = slot b0 m) /\
      (forall r, r ∈ L -> o_ij r = ij -> slot b' (o_m r) = Some (particle_of r))).
    { intros ij b0 b b' Hb0 Hb Hs.
      destruct (Hcur _ _ Hb) as (b0' & Hb0' & _ & Hmem & _ & Hold).
      assert (b0' = b0) as -> by congruence. split.
      - intros m Hm. rewrite Hs.
        destruct (last_rec rs ij m) as [r'|] eqn:El; [|apply Hold; exact Hm].
        apply last_rec_Some in El as (Hin & Hij & Hmr).
        destruct (Hrs _ Hin) as (r'' & b1 & [= <-] & HrL & Hb1 & _).
        rewrite <- Hij in Hb0, Hb.
        destruct (Hrange r' HrL b0 b Hb0 Hb). lia.
      - intros r HrL Hij. rewrite Hs.
        destruct (pi_stored _ _ _ _ _ Hinv r HrL) as [Hfl|(b1 & Hb1 & Hst)];
          [inversion Hfl|].
        rewrite Hij in Hb1. assert (b1 = b) as -> by congruence.
        destruct (last_rec rs ij (o_m r)) as [r'|] eqn:El.
        + apply last_rec_Some in El as (Hin & Hij' & Hmr).
          destruct (Hrs _ Hin) as (r'' & b2 & [= <-] & HrL' & Hb2 & _).
          assert (r' = r) as ->; [|reflexivity].
          eapply par_inv_key; try eassumption. congruence.
        + destruct (o_m r <? mem b) eqn:Edir; [exact Hst|].
          destruct Hst as (i & Hi & Hget).
          exfalso. eapply last_rec_None; [exact El| |split; [exact Hij|reflexivity]].
          unfold rs. eapply records_take; eassumption. }
    assert (Hblocks : forall ij b0, blk s0 ij = Some b0 ->
      exists b b', blk s ij = Some b /\ block_at bs' ij = Some b' /\
        block_ok b' /\ co b' = co b /\
        co b = co b0 + Z.of_nat (length (in_block ij L)) /\
        (forall m, m < co b0 -> slot b' m = slot b0 m) /\
        (forall r, r ∈ L -> o_ij r = ij ->
                   slot b' (o_m r) = Some (particle_of r)) /\
        (exists j : nat, mem b' = mem b0 * 2 ^ Z.of_nat j) /\
        (mem b' = mem b0 \/
         (mem b' <= max_particle_memory /\ mem b' <= 2 * (co b' - 1)))).
    { intros ij b0 Hb0.
      destruct (pi_block _ _ _ _ _ Hinv _ _ Hb0) as (b & Hb & Hok & Hmem & Hco & _).
      destruct (Hfin ij b Hb) as (b' & Hb' & Hok' & Hco' & Hs & Hj & Hmin).
      destruct (Hslots ij b0 b b' Hb0 Hb Hs) as [Hlow Hnew].
      exists b, b'. rewrite <- Hmem. repeat (split; [assumption|]).
      destruct Hmin as [Hmin|(Hmax & r & Hin & Hij & Hle)]; [left; exact Hmin|].
      right. split; [exact Hmax|].
      destruct (Hrs _ Hin) as (r' & b1 & [= <-] & HrL & Hb1 & _).
      rewrite <- Hij in Hb0, Hb.
      destruct (Hrange r HrL b0 b Hb0 Hb). lia. }
    split; [|split; [exact (pi_geo _ _ _ _ _ Hinv)|split]].
    + split; cbn [geo set_overflow set_blocks overflowPtCt overflow_mem_numPt
                  overflow blocks]; rewrite ?(pi_geo _ _ _ _ _ Hinv).
      * exact (wf_nx _ Hwf).
      * exact (wf_ny _ Hwf).
      * rewrite Hlen', (pi_len _ _ _ _ _ Hinv). exact (wf_len _ Hwf).
      * intros ij b' Hb'. rewrite Hblk' in Hb'.
        pose proof (block_at_Some _ _ _ Hb') as [Hr _].
        rewrite Hlen', (pi_len _ _ _ _ _ Hinv) in Hr.
        destruct (block_at_inside _ _ Hr) as [b0 Hb0].
        destruct (Hblocks ij b0 Hb0)
          as (b & b1 & Hb & Hb1 & Hok' & Hco' & Hco & _ & Hnew & Hj & _).
        assert (b1 = b') as -> by congruence. split; [exact Hok'|].
        destruct (Z_le_gt_dec (co b) (mem b0)) as [Hle|Hgt].
        -- destruct Hj as [j Hj]. rewrite Hco', Hj.
           pose proof (wf_blocks _ Hwf _ _ Hb0) as [Hok0 _].
           pose proof (ok_mem _ Hok0).
           assert (1 <= 2 ^ Z.of_nat j) by (apply Z.pow_le_mono_r with (b:=0); lia).
           nia.
        -- pose proof (wf_blocks _ Hwf _ _ Hb0) as [_ Hco0].
           destruct (lookup_lt_is_Some_2 (in_block ij L)
                       (Z.to_nat (co b - co b0 - 1))) as [r Hr']; [lia|].
           pose proof (pi_slots _ _ _ _ _ Hinv _ _ _ _ Hb0 Hr') as Hm.
           apply list_elem_of_lookup_2, in_block_elem in Hr' as [Hij HrL].
           pose proof (Hnew r HrL Hij) as Hsl.
           apply slot_inside in Hsl; [|exact Hok']. lia.
      * reflexivity.
      * exact (pi_cap _ _ _ _ _ Hinv).
      * exact Hovf.
    + unfold total_co. cbn [blocks set_overflow set_blocks].
      pose proof (pi_total _ _ _ _ _ Hinv) as Ht. unfold total_co in Ht.
      rewrite <- (pi_accepted _ _ _ _ _ Hinv), <- Ht.
      symmetry. apply sum_co_same; [lia|].
      intros k b b' Hb Hb'.
      assert (Hbk : block_at (blocks s) (Z.of_nat k) = Some b).
      { unfold block_at. replace (0 <=? Z.of_nat k) with true
          by (symmetry; apply Z.leb_le; lia).
        now rewrite Nat2Z.id. }
      destruct (Hfin _ _ Hbk) as (b1 & Hb1 & _ & Hco' & _).
      unfold block_at in Hb1.
      replace (0 <=? Z.of_nat k) with true in Hb1
        by (symmetry; apply Z.leb_le; lia).
      rewrite Nat2Z.id in Hb1. congruence.
    + intros ij b0 Hb0.
      destruct (Hblocks ij b0 Hb0)
        as (b & b' & Hb & Hb' & Hok' & Hco' & Hco & Hlow & Hnew & Hj & Hmin).
      exists b'. split; [rewrite Hblk'; exact Hb'|].
      split; [rewrite <- Hlen; lia|]. split; [|split; assumption].
      pose proof (wf_blocks _ Hwf _ _ Hb0) as [Hok0 _].
      pose proof (ok_co _ Hok0) as Hco0.
      apply list_eq. intros n. rewrite entries_lookup.
      destruct (Nat.lt_ge_cases n (Z.to_nat (co b0))) as [Hn|Hn].
      * rewrite lookup_app_l by (rewrite length_entries; exact Hn).
        rewrite entries_lookup.
        rewrite !decide_True by lia. f_equal. apply Hlow. lia.
      * rewrite lookup_app_r by (rewrite length_entries; exact Hn).
        rewrite length_entries, <- Hlenr, <- list_fmap_compose, list_lookup_fmap.
        destruct (in_block ij L !! (n - Z.to_nat (co b0))%nat) as [r|] eqn:Er.
        -- pose proof (lookup_lt_Some _ _ _ Er) as Hlt.
           pose proof (pi_slots _ _ _ _ _ Hinv _ _ _ _ Hb0 Er) as Hm.
           apply list_elem_of_lookup_2, in_block_elem in Er as [Hij HrL].
           rewrite decide_True by lia. cbn. f_equal.
           replace (Z.of_nat n) with (o_m r) by lia. apply Hnew; assumption.
        -- apply lookup_ge_None_1 in Er. rewrite decide_False by lia.
           reflexivity.
Qed.

(** ** Serial runs *)

Lemma entries_snoc (b b' : block) (e : Z * list float) :
  0 <= co b -> co b' = co b + 1 -> slot b' (co b) = Some e ->
  (forall k, k < co b -> slot b' k = slot b k) ->
  entries b' = entries b ++ [Some e].
Proof.
  intros H0 Hco Hs Hold. apply list_eq. intros n. rewrite entries_lookup.
  destruct (Nat.lt_ge_cases n (Z.to_nat (co b))) as [Hn|Hn].
  - rewrite lookup_app_l by (rewrite length_entries; exact Hn).
    rewrite entries_lookup, !decide_True by lia. f_equal. apply Hold. lia.
  - rewrite lookup_app_r by (rewrite length_entries; exact Hn).
    rewrite length_entries.
    destruct (n - Z.to_nat (co b))%nat as [|n'] eqn:En.
    + rewrite decide_True by lia. cbn. f_equal.
      replace (Z.of_nat n) with (co b) by lia. exact Hs.
    + rewrite decide_False by lia. reflexivity.
Qed.

Lemma pow2_ge_1 (j : nat) : 1 <= 2 ^ Z.of_nat j.
Proof. apply Z.pow_le_mono_r with (b:=0); lia. Qed.

(** Two capacities of one doubling chain: the larger is at least twice the
    smaller. *)
Lemma chain_lt_double (a : Z) (j j' : nat) :
  1 <= a -> a * 2 ^ Z.of_nat j < a * 2 ^ Z.of_nat j' ->
  2 * (a * 2 ^ Z.of_nat j) <= a * 2 ^ Z.of_nat j'.
Proof.
  intros Ha Hlt.
  assert (Hj : (j < j')%nat).
  { destruct (Nat.lt_ge_cases j j') as [H|H]; [exact H|].
    assert (2 ^ Z.of_nat j' <= 2 ^ Z.of_nat j)
      by (apply Z.pow_le_mono_r; lia). nia. }
  replace (Z.of_nat j') with (Z.of_nat (S j) + Z.of_nat (j' - S j)) by lia.
  rewrite Z.pow_add_r, Nat2Z.inj_succ, Z.pow_succ_r by lia.
  pose proof (pow2_ge_1 (j' - S j)). pose proof (pow2_ge_1 j). nia.
Qed.

Lemma serial_put_step (s : container) (c : call) :
  wf s ->
  match route (geo s) c with
  | None => put_coords s (c_id c) (c_x c) (c_y c) (c_rest c) = Ok (s, false)
  | Some (ij, e) =>
    exists b0, blk s ij = Some b0 /\
      ((exists s' b',
          put_coords s (c_id c) (c_x c) (c_y c) (c_rest c) = Ok (s', true) /\
          wf s' /\ geo s' = geo s /\ blk s' ij = Some b' /\
          (forall k, k <> ij -> blk s' k = blk s k) /\
          co b' = co b0 + 1 /\ entries b' = entries b0 ++ [Some e] /\
          total_co s' = total_co s + 1 /\
          (mem b' = mem b0 \/
           (mem b' = 2 * mem b0 /\ mem b' <= max_particle_memory /\
            co b0 = mem b0))) \/
       (put_coords s (c_id c) (c_x c) (c_y c) (c_rest c) = Fatal /\
        co b0 = mem b0 /\ max_particle_memory < 2 * mem b0))
  end.
Proof.
  intros Hwf. unfold route. rewrite put_coords_unfold.
  destruct (put_remap (geo s) (c_x c) (c_y c)) as [[[ij x'] y']|] eqn:Er;
    [|reflexivity].
  pose proof (put_remap_range _ _ _ _ _ _ (wf_nx _ Hwf) (wf_ny _ Hwf) Er) as Hij.
  destruct (wf_block_inside s ij Hwf Hij) as [b0 Hb0].
  exists b0. split; [exact Hb0|].
  pose proof (wf_blocks _ Hwf _ _ Hb0) as [Hok Hco].
  unfold get_block. unfold blk in Hb0. rewrite Hb0. cbn [obind].
  destruct (block_put_total b0 (c_id c) (x' :: y' :: c_rest c) Hok Hco)
    as [[b' Hb']|(Hf & E & Hmax)].
  - left. rewrite Hb'. cbn [obind].
    apply block_put_Ok in Hb' as (Hok' & Hco' & Hle' & Hs & Hold & Hmem);
      [|exact Hok|exact Hco].
    pose proof (block_at_Some _ _ _ Hb0) as [Hr _].
    set (s' := set_blocks s (put_block (blocks s) ij b')).
    assert (Hsame : forall k, k <> ij -> blk s' k = blk s k).
    { intros k Hk. apply blk_set_blocks_ne; [lia|exact Hk]. }
    assert (Hnew : blk s' ij = Some b').
    { apply blk_set_blocks_eq. exact Hr. }
    exists s', b'. split; [reflexivity|]. split; [|split; [reflexivity|]].
    + split; try (unfold s'; cbn [geo set_blocks overflowPtCt
                    overflow_mem_numPt overflow blocks]; apply Hwf).
      * unfold s'. cbn [geo set_blocks blocks]. rewrite length_put_block.
        apply Hwf.
      * intros k bk Hbk. destruct (Z.eq_dec k ij) as [->|Hne].
        -- assert (bk = b') as -> by congruence. split; assumption.
        -- rewrite Hsame in Hbk by exact Hne. exact (wf_blocks _ Hwf _ _ Hbk).
    + split; [exact Hnew|]. split; [exact Hsame|]. split; [exact Hco'|].
      split; [apply entries_snoc; try assumption; apply (ok_co _ Hok)|].
      split.
      * unfold total_co, s'. cbn [blocks set_blocks].
        rewrite (sum_co_put _ _ b0) by exact Hb0. lia.
      * destruct Hmem as [[_ Hm]|(E & Hm & Hmax)]; [left; exact Hm|].
        right. split; [exact Hm|]. split; [lia|exact E].
  - right. rewrite Hf. cbn [obind]. split; [reflexivity|]. split; assumption.
Qed.

Lemma routed_cons (g : geometry) (ij : Z) (c : call) (cs : list call) :
  routed g ij (c :: cs)
  = match route g c with
    | Some (b, e) => if b =? ij then [e] else []
    | None => []
    end ++ routed g ij cs.
Proof.
  unfold routed. cbn [omap list_omap].
  destruct (route g c) as [[b e]|]; [|reflexivity].
  destruct (b =? ij); reflexivity.
Qed.

Lemma accepted_cons (g : geometry) (c : call) (cs : list call) :
  accepted g (c :: cs)
  = match route g c with Some _ => 1 | None => 0 end + accepted g cs.
Proof.
  unfold accepted. cbn [omap list_omap].
  destruct (route g c); cbn [length]; lia.
Qed.

(** What a run of serial [put] calls returns and leaves. *)
Lemma serial_puts_spec (cs : list call) :
  forall s, wf s ->
  ((exists s', serial_puts s cs = Ok s') \/
   (serial_puts s cs = Fatal /\
    exists ij b0 (j : nat), blk s ij = Some b0 /\
      max_particle_memory < 2 * (mem b0 * 2 ^ Z.of_nat j) /\
      mem b0 * 2 ^ Z.of_nat j
      < co b0 + Z.of_nat (length (routed (geo s) ij cs)))) /\
  forall s', serial_puts s cs = Ok s' ->
    wf s' /\ geo s' = geo s /\
    total_co s' = total_co s + accepted (geo s) cs /\
    forall ij b0, blk s ij = Some b0 ->
      exists b', blk s' ij = Some b' /\
        co b' = co b0 + Z.of_nat (length (routed (geo s) ij cs)) /\
        entries b' = entries b0 ++ (Some <$> routed (geo s) ij cs) /\
        (exists j : nat, mem b' = mem b0 * 2 ^ Z.of_nat j) /\
        (mem b' = mem b0 \/
         (mem b' <= max_particle_memory /\ mem b' <= 2 * (co b' - 1))).
Proof.
  induction cs as [|c cs IH]; intros s Hwf.
  - split; [left; eexists; reflexivity|]. intros s' [= <-].
    split; [exact Hwf|]. split; [reflexivity|]. split; [unfold accepted; simpl; lia|].
    intros ij b0 Hb0. exists b0. split; [exact Hb0|].
    split; [simpl; lia|]. split; [simpl; now rewrite app_nil_r|].
    split; [exists 0%nat; change (2 ^ Z.of_nat 0) with 1; lia|left; reflexivity].
  - cbn [serial_puts]. pose proof (serial_put_step s c Hwf) as Hstep.
    rewrite accepted_cons.
    destruct (route (geo s) c) as [[ij e]|] eqn:Er.
    + destruct Hstep as (b1 & Hb1 & [(s1 & b1' & Hput & Hwf1 & Hgeo1 & Hblk1 &
        Hsame1 & Hco1 & Hent1 & Htot1 & Hmem1)|(Hf & E & Hmax)]).
      * rewrite Hput. cbn [obind fst].
        destruct (IH s1 Hwf1) as [Htot Hok]. rewrite Hgeo1 in Htot, Hok.
        assert (Hfrom : forall k b0, blk s k = Some b0 ->
                  exists b0', blk s1 k = Some b0' /\
                    co b0' = co b0 + (if ij =? k then 1 else 0) /\
                    entries b0' = entries b0
                                  ++ (if ij =? k then [Some e] else []) /\
                    (mem b0' = mem b0 \/
                     (mem b0' = 2 * mem b0 /\ mem b0' <= max_particle_memory /\
                      co b0 = mem b0 /\ ij = k))).
        { intros k b0 Hb0. destruct (ij =? k) eqn:Ek.
          - apply Z.eqb_eq in Ek as <-. assert (b0 = b1) as -> by congruence.
            exists b1'. repeat (split; [assumption|]).
            destruct Hmem1 as [H|(H1 & H2 & H3)]; [left; exact H|right; auto].
          - apply Z.eqb_neq in Ek. exists b0.
            rewrite Hsame1 by congruence. split; [exact Hb0|].
            split; [lia|]. split; [now rewrite app_nil_r|left; reflexivity]. }
        split.
        -- destruct Htot as [[s' Hs']|(Hf & k & b0' & j & Hb0' & Hgt & Hlt)];
             [left; eauto|]. right. split; [exact Hf|].
           pose proof (block_at_Some _ _ _ Hb0') as [Hr _].
           rewrite (wf_len _ Hwf1), Hgeo1, <- (wf_len _ Hwf) in Hr.
           destruct (block_at_inside (blocks s) k Hr) as [b0 Hb0].
           destruct (Hfrom k b0 Hb0) as (b0'' & Hb0'' & Hco'' & _ & Hm'').
           assert (b0'' = b0') as -> by (unfold blk in *; congruence).
           destruct Hm'' as [Hm''|(Hm'' & _ & _ & ->)].
           ++ exists k, b0, j. split; [exact Hb0|]. rewrite <- Hm''.
              rewrite routed_cons, Er, length_app.
              split; [exact Hgt|]. destruct (ij =? k); simpl; lia.
           ++ exists k, b0, (S j). split; [exact Hb0|].
              rewrite routed_cons, Er, length_app.
              rewrite Nat2Z.inj_succ, Z.pow_succ_r by lia.
              rewrite Z.eqb_refl. rewrite Z.eqb_refl in Hco''.
              split; [nia|]. simpl. nia.
        -- intros s' Hs'. destruct (Hok s' Hs') as (Hwf' & Hgeo' & Htot' & Hblocks).
           split; [exact Hwf'|]. split; [congruence|]. split; [lia|].
           intros k b0 Hb0.
           destruct (Hfrom k b0 Hb0) as (b0' & Hb0' & Hco' & Hent' & Hm').
           destruct (Hblocks k b0' Hb0') as (b' & Hb' & Hcob' & Hentb' & [j Hj] & Hmin).
           exists b'. split; [exact Hb'|]. rewrite routed_cons, Er.
           rewrite length_app, fmap_app, Hentb', Hent', Hcob', Hco'.
           split; [destruct (ij =? k); simpl; lia|].
           split; [rewrite <- app_assoc; destruct (ij =? k); reflexivity|].
           split.
           ++ destruct Hm' as [Hm'|(Hm' & _)].
              ** exists j. congruence.
              ** exists (S j). rewrite Nat2Z.inj_succ, Z.pow_succ_r by lia.
                 rewrite Hj, Hm'. lia.
           ++ destruct Hmin as [Hmin|[Hmax Hle]].
              ** destruct Hm' as [Hm'|(Hm' & Hmax & E & Hk)];
                   [left; congruence|].
                 right. rewrite Hmin. split; [exact Hmax|].
                 rewrite Hk, Z.eqb_refl. lia.
              ** right. split; [exact Hmax|]. rewrite Hcob', Hco' in Hle.
                 exact Hle.
      * rewrite Hf. cbn [obind]. split; [|discriminate].
        right. split; [reflexivity|]. exists ij, b1, 0%nat.
        split; [exact Hb1|]. change (2 ^ Z.of_nat 0) with 1.
        rewrite routed_cons, Er, Z.eqb_refl, length_app. simpl.
        pose proof (wf_blocks _ Hwf _ _ Hb1) as [_ Hco]. split; lia.
    + rewrite Hstep. cbn [obind fst].
      destruct (IH s Hwf) as [Htot Hok].
      split.
      * destruct Htot as [H|(Hf & k & b0 & j & Hb0 & Hgt & Hlt)]; [left; exact H|].
        right. split; [exact Hf|]. exists k, b0, j. rewrite routed_cons, Er.
        auto.
      * intros s' Hs'. destruct (Hok s' Hs') as (Hwf' & Hgeo' & Htot' & Hblocks).
        split; [exact Hwf'|]. split; [exact Hgeo'|]. split; [lia|].
        intros k b0 Hb0. rewrite routed_cons, Er. exact (Hblocks k b0 Hb0).
Qed.

(** ** Serial and parallel insertion compared *)

(** Two containers hold the same particles: block by block the same count
    and the same entries up to their order. *)
Definition same_contents (a b : container) : Prop :=
  length (blocks a) = length (blocks b) /\
  forall ij ba, blk a ij = Some ba ->
    exists bb, blk b ij = Some bb /\ co ba = co bb /\ mem ba = mem bb /\
               entries ba ≡ₚ entries bb.

(** The two ways of inserting end alike: both return, or both stop on the
    memory ceiling. *)
Definition agree {A} (R : A -> A -> Prop) (x y : outcome A) : Prop :=
  match x, y with
  | Ok a, Ok b => R a b
  | Fatal, Fatal => True
  | _, _ => False
  end.

Lemma routed_Permutation (g : geometry) (ij : Z) (cs cs' : list call) :
  cs ≡ₚ cs' -> routed g ij cs ≡ₚ routed g ij cs'.
Proof. intros H. unfold routed. now rewrite H. Qed.

Lemma complete_batch (s0 : container) (sched : list action) :
  wf s0 -> complete (geo s0) sched ->
  exists s1 L, run_schedule sched (s0, []) = Ok (s1, []) /\
               par_inv s0 (calls_of sched) L s1 [].
Proof.
  intros Hwf Hc.
  destruct (run_schedule_inv sched s0 [] [] s0 [] (par_inv_init s0 Hwf))
    as (s1 & fl & L & Hrun & Hinv & Hlen).
  unfold complete in Hc. cbn [length] in Hlen. rewrite Hc in Hlen.
  destruct fl; [|discriminate]. exists s1, L. split; [exact Hrun|exact Hinv].
Qed.

Lemma serial_parallel_agree (s0 : container) (cs : list call)
    (sched : list action) :
  wf s0 -> complete (geo s0) sched -> calls_of sched ≡ₚ cs ->
  exists s1, run_schedule sched (s0, []) = Ok (s1, []) /\
    agree same_contents (serial_puts s0 cs) (put_reconcile_overflow s1).
Proof.
  intros Hwf Hc Hperm.
  destruct (complete_batch s0 sched Hwf Hc) as (s1 & L & Hrun & Hinv).
  exists s1. split; [exact Hrun|].
  destruct (round_reconcile _ _ _ _ Hinv) as [Hptot Hpok].
  destruct (serial_puts_spec cs s0 Hwf) as [Hstot Hsok].
  assert (Hn : forall ij, length (routed (geo s0) ij cs)
                          = length (routed (geo s0) ij (calls_of sched))).
  { intros ij. apply Permutation_length, routed_Permutation.
    symmetry. exact Hperm. }
  unfold agree.
  destruct Hstot as [[a Ha]|(Hsf & ij & b0 & j & Hb0 & Hgt & Hlt)];
    destruct Hptot as [[b Hb]|(Hpf & ij' & b0' & j' & Hb0' & Hgt' & Hle' & Hlt')].
  - rewrite Ha, Hb.
    destruct (Hsok a Ha) as (Hwfa & _ & _ & Hblka).
    destruct (Hpok b Hb) as (Hwfb & _ & _ & Hblkb).
    split.
    + apply Nat2Z.inj. rewrite (wf_len _ Hwfa), (wf_len _ Hwfb).
      destruct (Hsok a Ha) as (_ & -> & _). destruct (Hpok b Hb) as (_ & -> & _).
      reflexivity.
    + intros k ba Hba. pose proof (block_at_Some _ _ _ Hba) as [Hr _].
      destruct (Hsok a Ha) as (_ & Hgeo & _).
      rewrite (wf_len _ Hwfa), Hgeo, <- (wf_len _ Hwf) in Hr.
      destruct (block_at_inside _ _ Hr) as [b1 Hb1].
      destruct (Hblka k b1 Hb1) as (ba' & Hba' & Hcoa & Henta & [ja Hja] & Hmina).
      assert (ba' = ba) as -> by congruence.
      destruct (Hblkb k b1 Hb1) as (bb & Hbb & Hcob & Hentb & [jb Hjb] & Hminb).
      exists bb. split; [exact Hbb|]. split; [rewrite Hcoa, Hcob, Hn; reflexivity|].
      split.
      * pose proof (wf_blocks _ Hwfa _ _ Hba) as [_ Hlea].
        pose proof (wf_blocks _ Hwfb _ _ Hbb) as [_ Hleb].
        pose proof (wf_blocks _ Hwf _ _ Hb1) as [Hok1 _].
        pose proof (ok_mem _ Hok1) as Hm1.
        assert (Hco : co ba = co bb) by (rewrite Hcoa, Hcob, Hn; reflexivity).
        destruct (Z.lt_trichotomy (mem ba) (mem bb)) as [Hlt|[Heq|Hlt]];
          [|exact Heq|].
        -- rewrite Hja, Hjb in Hlt. apply chain_lt_double in Hlt; [|exact Hm1].
           rewrite <- Hja, <- Hjb in Hlt.
           assert (mem bb <> mem b1) by (pose proof (pow2_ge_1 ja); nia).
           lia.
        -- rewrite Hja, Hjb in Hlt. apply chain_lt_double in Hlt; [|exact Hm1].
           rewrite <- Hja, <- Hjb in Hlt.
           assert (mem ba <> mem b1) by (pose proof (pow2_ge_1 jb); nia).
           lia.
      * rewrite Henta, Hentb. apply Permutation_app_head.
        apply fmap_Permutation, routed_Permutation. symmetry. exact Hperm.
  - rewrite Ha, Hpf.
    destruct (Hsok a Ha) as (Hwfa & _ & _ & Hblka).
    destruct (Hblka ij' b0' Hb0') as (ba & Hba & Hcoa & _ & [ja Hja] & Hmina).
    pose proof (wf_blocks _ Hwfa _ _ Hba) as [_ Hlea].
    pose proof (wf_blocks _ Hwf _ _ Hb0') as [Hok1 _].
    pose proof (ok_mem _ Hok1) as Hm1.
    rewrite <- Hn in Hle', Hlt'. rewrite <- Hcoa in Hle', Hlt'.
    destruct (Z_lt_le_dec (mem ba) (mem b0' * 2 ^ Z.of_nat j')) as [H|H].
    + rewrite Hja in H. apply chain_lt_double in H; [|exact Hm1].
      rewrite <- Hja in H. lia.
    + destruct Hmina as [Hmina|[Hmax _]]; lia.
  - rewrite Hsf, Hb.
    destruct (Hpok b Hb) as (Hwfb & _ & _ & Hblkb).
    destruct (Hblkb ij b0 Hb0) as (bb & Hbb & Hcob & _ & [jb Hjb] & Hminb).
    pose proof (wf_blocks _ Hwfb _ _ Hbb) as [_ Hleb].
    pose proof (wf_blocks _ Hwf _ _ Hb0) as [Hok1 _].
    pose proof (ok_mem _ Hok1) as Hm1.
    rewrite Hn in Hlt. rewrite <- Hcob in Hlt.
    assert (H : mem b0 * 2 ^ Z.of_nat j < mem b0 * 2 ^ Z.of_nat jb)
      by (rewrite <- Hjb; lia).
    apply chain_lt_double in H; [|exact Hm1]. rewrite <- Hjb in H.
    pose proof (pow2_ge_1 j).
    destruct Hminb as [Hminb|[Hmax _]]; nia.
  - rewrite Hsf, Hpf. exact I.
Qed.

(** ** Rounds *)

(** Batches, each one followed by [put_reconcile_overflow]. *)
Fixpoint parallel_rounds (s : container) (rounds : list (list action))
  : outcome container :=
  match rounds with
  | [] => Ok s
  | sched :: rounds' =>
    s' <-- parallel_round s sched ;; parallel_rounds s' rounds'
  end.

Lemma new_container_wf (ax_ bx_ ay_ by__ : float) (nx_ ny_ : Z)
    (x_prd_ y_prd_ : bool) (init_mem ps_ : Z) :
  0 < nx_ -> 0 < ny_ -> 1 <= init_mem ->
  wf (new_container ax_ bx_ ay_ by__ nx_ ny_ x_prd_ y_prd_ init_mem ps_).
Proof.
  intros Hnx Hny Hmem. split; cbn; try assumption; try lia.
  - rewrite length_replicate. lia.
  - intros ij b Hb. unfold blk in Hb. cbn in Hb.
    apply block_at_Some in Hb as [_ Hb].
    apply lookup_replicate_1 in Hb as [-> _].
    split; [apply new_block_ok; exact Hmem|]. cbn. lia.
  - reflexivity.
Qed.

Lemma new_container_total (ax_ bx_ ay_ by__ : float) (nx_ ny_ : Z)
    (x_prd_ y_prd_ : bool) (init_mem ps_ : Z) :
  total_co (new_container ax_ bx_ ay_ by__ nx_ ny_ x_prd_ y_prd_ init_mem ps_)
  = 0.
Proof.
  unfold total_co. cbn [blocks new_container].
  induction (Z.to_nat (nx_ * ny_)) as [|n IH]; [reflexivity|].
  cbn. exact IH.
Qed.

Lemma accepted_app (g : geometry) (cs cs' : list call) :
  accepted g (cs ++ cs') = accepted g cs + accepted g cs'.
Proof. unfold accepted. rewrite omap_app, length_app. lia. Qed.

Lemma parallel_round_spec (s : container) (sched : list action) :
  wf s -> complete (geo s) sched ->
  (exists s', parallel_round s sched = Ok s' /\ wf s' /\ geo s' = geo s /\
              total_co s' = total_co s + accepted (geo s) (calls_of sched)) \/
  parallel_round s sched = Fatal.
Proof.
  intros Hwf Hc.
  destruct (complete_batch s sched Hwf Hc) as (s1 & L & Hrun & Hinv).
  unfold parallel_round. rewrite Hrun. cbn [obind fst].
  destruct (round_reconcile _ _ _ _ Hinv) as [[[s' Hs']|[Hf _]] Hok].
  - left. exists s'. split; [exact Hs'|].
    destruct (Hok s' Hs') as (H1 & H2 & H3 & _). auto.
  - right. exact Hf.
Qed.

Lemma parallel_rounds_spec (rounds : list (list action)) :
  forall s, wf s -> Forall (complete (geo s)) rounds ->
  (exists s', parallel_rounds s rounds = Ok s' /\ wf s' /\
     total_co s'
     = total_co s + accepted (geo s) (concat (calls_of <$> rounds))) \/
  parallel_rounds s rounds = Fatal.
Proof.
  induction rounds as [|sched rounds IH]; intros s Hwf Hall.
  - left. exists s. split; [reflexivity|]. split; [exact Hwf|].
    unfold accepted. cbn. lia.
  - apply Forall_cons in Hall as [Hc Hall]. cbn [parallel_rounds].
    destruct (parallel_round_spec s sched Hwf Hc)
      as [(s1 & Hs1 & Hwf1 & Hgeo1 & Htot1)|Hf].
    + rewrite Hs1. cbn [obind]. rewrite <- Hgeo1 in Hall.
      destruct (IH s1 Hwf1 Hall) as [(s' & Hs' & Hwf' & Htot')|Hf'].
      * left. exists s'. split; [exact Hs'|]. split; [exact Hwf'|].
        cbn [fmap list_fmap concat]. rewrite accepted_app.
        rewrite Hgeo1 in Htot'. lia.
      * right. exact Hf'.
    + right. rewrite Hf. reflexivity.
Qed.

(** C4: on a fresh container, serial puts followed by whole batches, each
    reconciled, either stop on the memory ceiling or return a state in which
    the counts add up to the number of accepted calls, the overflow buffer is
    empty and every count is between 0 and the capacity of its block.  No
    step reads or writes outside an array, also in the middle of a batch;
    there a count may exceed the capacity, and a call whose slot is not below
    the capacity leaves the block arrays alone and appends its record to the
    overflow buffer. *)
Theorem counts_after_rounds (ax_ bx_ ay_ by__ : float) (nx_ ny_ : Z)
    (x_prd_ y_prd_ : bool) (init_mem ps_ : Z) (cs : list call)
    (rounds : list (list action)) :
  0 < nx_ -> 0 < ny_ -> 1 <= init_mem ->
  let s0 := new_container ax_ bx_ ay_ by__ nx_ ny_ x_prd_ y_prd_ init_mem ps_ in
  Forall (complete (geo s0)) rounds ->
  match (s1 <-- serial_puts s0 cs ;; parallel_rounds s1 rounds) with
  | Ok s =>
    total_co s = accepted (geo s0) (cs ++ concat (calls_of <$> rounds)) /\
    overflowPtCt s = 0 /\
    forall ij b, blk s ij = Some b -> 0 <= co b <= mem b
  | Fatal => True
  | _ => False
  end /\
  (forall sched, exists s fl, run_schedule sched (s0, []) = Ok (s, fl)) /\
  (forall s r b s',
     blk s (o_ij r) = Some b -> mem b <= o_m r ->
     put_parallel_commit s r = Ok s' ->
     blocks s' = blocks s /\ overflowPtCt s' = overflowPtCt s + 1 /\
     arr_get (overflow s') (overflowPtCt s) = Some r) /\
  (exists sched s fl b,
     run_schedule sched (one_block, []) = Ok (s, fl) /\
     blk s 0 = Some b /\ mem b < co b).
Proof.
  intros Hnx Hny Hmem s0 Hall.
  assert (Hwf : wf s0) by (apply new_container_wf; assumption).
  split; [|split; [|split]].
  - destruct (serial_puts_spec cs s0 Hwf) as [[[s1 Hs1]|[Hf _]] Hok].
    + rewrite Hs1. cbn [obind].
      destruct (Hok s1 Hs1) as (Hwf1 & Hgeo1 & Htot1 & _).
      rewrite <- Hgeo1 in Hall.
      destruct (parallel_rounds_spec rounds s1 Hwf1 Hall)
        as [(s' & Hs' & Hwf' & Htot')|Hf].
      * rewrite Hs'. split; [|split].
        -- rewrite accepted_app, Htot', Htot1, Hgeo1.
           unfold s0 at 1. rewrite new_container_total. lia.
        -- exact (wf_cnt _ Hwf').
        -- intros ij b Hb. destruct (wf_blocks _ Hwf' _ _ Hb) as [Hbok Hle].
           pose proof (ok_co _ Hbok). lia.
      * rewrite Hf. exact I.
    + rewrite Hf. exact I.
  - intros sched.
    destruct (run_schedule_inv sched s0 [] [] s0 [] (par_inv_init s0 Hwf))
      as (s & fl & L & Hrun & _). eauto.
  - intros s r b s' Hb Hm. unfold put_parallel_commit, get_block.
    unfold blk in Hb. rewrite Hb. cbn [obind].
    replace (o_m r <? mem b) with false by (symmetry; apply Z.ltb_ge; lia).
    unfold overflow_append.
    destruct (if overflowPtCt s + 1 >? overflow_mem_numPt s then _ else _)
      as [[cap o]| | |]; try discriminate.
    cbn [obind fst snd].
    destruct (arr_set o (overflowPtCt s) r) as [o'| | |] eqn:E;
      try discriminate.
    cbn [obind]. intros [= <-]. cbn [blocks overflowPtCt overflow set_overflow].
    apply arr_set_Ok in E as (_ & _ & Hg & _). auto.
  - exists [Reserve 7 0.5 0.5 []; Reserve 8 0.25 0.5 []].
    eexists. eexists. eexists. split; [vm_compute; reflexivity|].
    split; reflexivity.
Qed.

Lemma counts_after_rounds_witness :
  exists s,
    (s1 <-- serial_puts one_block
              [{| c_id := 7; c_x := 0.5; c_y := 0.5; c_rest := [] |}] ;;
     parallel_rounds s1 [[Reserve 8 0.25 0.5 []; Reserve 9 0.75 0.5 [];
                          Commit 1; Commit 0]]) = Ok s /\
    total_co s = 3 /\ overflowPtCt s = 0.
Proof.
  eexists. split; [vm_compute; reflexivity|].
  destruct (counts_after_rounds 0 1 0 1 1 1 false false 1 2
              [{| c_id := 7; c_x := 0.5; c_y := 0.5; c_rest := [] |}]
              [[Reserve 8 0.25 0.5 []; Reserve 9 0.75 0.5 [];
                Commit 1; Commit 0]]) as [H _].
  - reflexivity.
  - reflexivity.
  - vm_compute. discriminate.
  - repeat constructor.
  - vm_compute in H. destruct H as (H1 & H2 & _). split; [exact H1|exact H2].
Defined.

(** ** Growth of a block *)

Lemma routed_length_le (g : geometry) (ij : Z) (cs : list call) :
  Z.of_nat (length (routed g ij cs)) <= accepted g cs.
Proof.
  induction cs as [|c cs IH]; [unfold accepted; simpl; lia|].
  rewrite routed_cons, accepted_cons, length_app.
  destruct (route g c) as [[b e]|]; [|simpl; lia].
  destruct (b =? ij); simpl; lia.
Qed.

Lemma routed_single_block (g : geometry) (cs : list call) :
  0 < nx g -> 0 < ny g -> nx g * ny g = 1 ->
  Z.of_nat (length (routed g 0 cs)) = accepted g cs.
Proof.
  intros Hnx Hny H1.
  induction cs as [|c cs IH]; [unfold accepted; simpl; lia|].
  rewrite routed_cons, accepted_cons, length_app.
  destruct (route g c) as [[b e]|] eqn:Er; [|simpl; lia].
  assert (b = 0) as ->.
  { unfold route in Er.
    destruct (put_remap g (c_x c) (c_y c)) as [[[ij x'] y']|] eqn:E;
      [|discriminate].
    injection Er as <- _.
    pose proof (put_remap_range _ _ _ _ _ _ Hnx Hny E). lia. }
  simpl. lia.
Qed.

(** C2: a serial put into a full block doubles its capacity once, which
    exceeds the slot to fill, and a reconciled overflow record at a slot not
    below the capacity doubles it until it exceeds the slot (the result is
    the doubling in (m, 2m]); either stops with the fatal error when the new
    capacity is above [max_particle_memory]; the slots written before keep
    their index and content.  Hence n accepted calls of one batch on a
    one-block container with one initial slot, n within the ceiling, leave
    count n and as capacity the least power of two not below n. *)
Theorem growth_policy :
  (forall b n cs, block_ok b -> co b = mem b ->
     (max_particle_memory < 2 * mem b -> block_put b n cs = Fatal) /\
     (2 * mem b <= max_particle_memory ->
      exists b', block_put b n cs = Ok b' /\ mem b' = 2 * mem b /\
        co b < mem b' /\ co b' = co b + 1 /\
        slot b' (co b) = Some (n, cs) /\
        (forall k, k < co b -> slot b' k = slot b k))) /\
  (forall b r, block_ok b -> mem b <= o_m r ->
     exists j : nat,
       let c := mem b * 2 ^ Z.of_nat (S j) in
       o_m r < c <= 2 * o_m r /\
       (max_particle_memory < c -> reconcile_block b r = Fatal) /\
       (c <= max_particle_memory ->
        exists b', reconcile_block b r = Ok b' /\ mem b' = c /\
          co b' = co b /\
          slot b' (o_m r) = Some (o_id r, o_p r) /\
          (forall k, k <> o_m r -> slot b' k = slot b k))) /\
  (forall ax_ bx_ ay_ by__ x_prd_ y_prd_ ps_ sched,
     let s0 := new_container ax_ bx_ ay_ by__ 1 1 x_prd_ y_prd_ 1 ps_ in
     let n := accepted (geo s0) (calls_of sched) in
     complete (geo s0) sched -> n <= max_particle_memory ->
     exists s' b' (j : nat),
       parallel_round s0 sched = Ok s' /\ blk s' 0 = Some b' /\
       co b' = n /\ mem b' = 2 ^ Z.of_nat j /\ n <= 2 ^ Z.of_nat j /\
       (j = 0%nat \/ 2 ^ (Z.of_nat j - 1) < n)).
Proof.
  split; [|split].
  - intros b n cs Hok Hco.
    assert (Hle : co b <= mem b) by lia.
    destruct (block_put_total b n cs Hok Hle) as [[b' Hb']|(Hf & _ & Hmax)].
    + pose proof Hb' as Hput.
      apply block_put_Ok in Hb' as (_ & Hco' & _ & Hs & Hold & Hmem);
        [|exact Hok|lia].
      destruct Hmem as [[Hlt _]|(_ & Hm & Hmax)]; [lia|].
      split; [intros; lia|]. intros _. exists b'.
      pose proof (ok_mem _ Hok). repeat split; try assumption; lia.
    + split; [intros _; exact Hf|intros; lia].
  - intros b r Hok Hm.
    destruct (reconcile_target (mem b) (o_m r) (ok_mem _ Hok) Hm) as (j & Hj & Hr).
    exists j. cbv zeta. split; [exact Hr|].
    unfold reconcile_block.
    replace (o_m r >=? mem b) with true by (symmetry; lia). rewrite Hj.
    destruct (grow_block_cases b (mem b * 2 ^ Z.of_nat (S j)) Hok) as [Hgok Hgf].
    { pose proof (ok_mem _ Hok). lia. }
    split.
    + intros Hmax. rewrite Hgf by exact Hmax. reflexivity.
    + intros Hmax. destruct (Hgok Hmax) as [b1 Hb1]. rewrite Hb1. cbn [obind].
      apply grow_block_Ok in Hb1 as (Hok1 & Hco1 & Hmem1 & _ & Hs1);
        [|exact Hok|pose proof (ok_mem _ Hok); lia].
      destruct (store_inside b1 (o_m r) (o_id r) (o_p r) Hok1) as [b' Hb'].
      { pose proof (ok_mem _ Hok). lia. }
      exists b'. split; [exact Hb'|].
      apply store_Ok in Hb' as (_ & Hco' & Hmem' & _ & Hs & Ho); [|exact Hok1].
      split; [congruence|]. split; [congruence|]. split; [exact Hs|].
      intros k Hk. rewrite Ho by exact Hk. apply Hs1.
  - intros ax_ bx_ ay_ by__ x_prd_ y_prd_ ps_ sched s0 n Hc Hn.
    assert (Hwf : wf s0) by (apply new_container_wf; lia).
    assert (Hb0 : blk s0 0 = Some (new_block 1)) by reflexivity.
    assert (Hlen : Z.of_nat (length (routed (geo s0) 0 (calls_of sched))) = n).
    { apply routed_single_block; reflexivity. }
    destruct (complete_batch s0 sched Hwf Hc) as (s1 & L & Hrun & Hinv).
    unfold parallel_round. rewrite Hrun. cbn [obind fst].
    destruct (round_reconcile _ _ _ _ Hinv) as [Htot Hok].
    destruct Htot as [[s' Hs']|(_ & ij & b0 & j & Hb & Hgt & Hle & _)].
    + destruct (Hok s' Hs') as (Hwf' & _ & _ & Hblocks).
      destruct (Hblocks 0 _ Hb0) as (b' & Hb' & Hco' & _ & [j Hj] & Hmin).
      pose proof (wf_blocks _ Hwf' _ _ Hb') as [_ Hcap].
      cbn [co mem new_block] in Hco', Hj, Hmin. rewrite Hlen in Hco'.
      exists s', b', j. split; [exact Hs'|]. split; [exact Hb'|].
      split; [lia|]. split; [lia|]. split; [lia|].
      destruct j as [|j]; [left; reflexivity|right].
      destruct Hmin as [Hmin|[_ Hmin]].
      * rewrite Hmin in Hj. rewrite Nat2Z.inj_succ, Z.pow_succ_r in Hj by lia.
        pose proof (pow2_ge_1 j). lia.
      * rewrite Hj in Hmin. rewrite Nat2Z.inj_succ, Z.pow_succ_r in Hmin by lia.
        replace (Z.of_nat (S j) - 1) with (Z.of_nat j) by lia. lia.
    + exfalso. pose proof (routed_length_le (geo s0) ij (calls_of sched)) as Hl.
      fold n in Hl.
      assert (b0 = new_block 1) as ->.
      { unfold blk in Hb. cbn in Hb. apply block_at_Some in Hb as [_ Hb].
        apply lookup_replicate_1 in Hb as [-> _]. reflexivity. }
      cbn [co mem new_block] in Hgt, Hle.
      change max_particle_memory with (1 * 2 ^ Z.of_nat 24) in Hgt.
      apply chain_lt_double in Hgt; [|lia].
      change (2 * (1 * 2 ^ Z.of_nat 24)) with (2 * max_particle_memory) in Hgt.
      lia.
Qed.

Lemma growth_policy_witness :
  exists s' b',
    parallel_round one_block
      [Reserve 1 0.5 0.5 []; Reserve 2 0.5 0.5 []; Reserve 3 0.5 0.5 [];
       Commit 2; Commit 1; Commit 0] = Ok s' /\
    blk s' 0 = Some b' /\ co b' = 3 /\ mem b' = 4.
Proof.
  destruct growth_policy as (_ & _ & H).
  destruct (H 0%float 1%float 0%float 1%float false false 2
              [Reserve 1 0.5 0.5 []; Reserve 2 0.5 0.5 []; Reserve 3 0.5 0.5 [];
               Commit 2; Commit 1; Commit 0])
    as (s' & b' & j & Hs' & Hb' & Hco & Hmem & Hle & Hmin).
  - reflexivity.
  - vm_compute. discriminate.
  - exists s', b'. split; [exact Hs'|]. split; [exact Hb'|].
    change (accepted _ _) with 3 in Hco, Hle, Hmin. split; [exact Hco|].
    rewrite Hmem.
    destruct Hmin as [->|Hmin]; [change (2 ^ Z.of_nat 0) with 1 in Hle; lia|].
    destruct j as [|[|[|j]]].
    { change (2 ^ Z.of_nat 0) with 1 in Hle. lia. }
    { change (2 ^ Z.of_nat 1) with 2 in Hle. lia. }
    { reflexivity. }
    exfalso.
    replace (Z.of_nat (S (S (S j))) - 1) with (Z.succ (Z.succ (Z.of_nat j)))
      in Hmin by lia.
    rewrite !Z.pow_succ_r in Hmin by lia. pose proof (pow2_ge_1 j). lia.
Defined.

(** ** The order of doubles *)

Ltac sf_compare :=
  repeat match goal with
         | H : context [Pos.compare_cont Eq ?a ?b] |- _ =>
           change (Pos.compare_cont Eq a b) with (Pos.compare a b) in H
         | |- context [Pos.compare_cont Eq ?a ?b] =>
           change (Pos.compare_cont Eq a b) with (Pos.compare a b)
         end;
  repeat match goal with
         | H : context [Z.compare ?a ?b] |- _ => destruct (Z.compare_spec a b)
         | |- context [Z.compare ?a ?b] => destruct (Z.compare_spec a b)
         | H : context [Pos.compare ?a ?b] |- _ => destruct (Pos.compare_spec a b)
         | |- context [Pos.compare ?a ?b] => destruct (Pos.compare_spec a b)
         end.

Ltac sf_solve :=
  cbn [SFltb SFleb SFcompare CompOpp] in *; try discriminate; try reflexivity;
  try tauto;
  sf_compare; cbn [CompOpp] in *; subst;
  try discriminate; try reflexivity; try lia; try tauto.

Lemma SFltb_trans (a b c : spec_float) :
  SFltb a b = true -> SFltb b c = true -> SFltb a c = true.
Proof.
  destruct a as [[]|[]| |[] ma ea], b as [[]|[]| |[] mb eb],
    c as [[]|[]| |[] mc ec]; intros H1 H2; sf_solve.
Qed.

Lemma SFltb_irrefl (a : spec_float) : SFltb a a = false.
Proof. destruct a as [[]|[]| |[] ma ea]; sf_solve. Qed.

Lemma SFltb_between (a b c : spec_float) :
  SFltb a c = true -> b <> S754_nan ->
  SFltb a b = true \/ SFltb b c = true.
Proof.
  destruct a as [[]|[]| |[] ma ea], b as [[]|[]| |[] mb eb],
    c as [[]|[]| |[] mc ec]; intros H1 H2;
    try (exfalso; apply H2; reflexivity);
    cbn [SFltb SFleb SFcompare CompOpp] in *; try discriminate;
    try (left; reflexivity); try (right; reflexivity);
    sf_compare; cbn [CompOpp] in *; subst; try discriminate;
    try (left; reflexivity); try (right; reflexivity); try lia.
Qed.

Lemma SFltb_total (a b : spec_float) :
  a <> S754_nan -> b <> S754_nan ->
  SFltb a b = false -> SFltb b a = false ->
  a = b \/ (exists s s', a = S754_zero s /\ b = S754_zero s').
Proof.
  destruct a as [[]|[]| |[] ma ea], b as [[]|[]| |[] mb eb];
    intros Ha Hb H1 H2;
    try (exfalso; apply Ha; reflexivity); try (exfalso; apply Hb; reflexivity);
    cbn [SFltb SFleb SFcompare CompOpp] in *; try discriminate;
    try (left; reflexivity); try (right; eexists; eexists; split; reflexivity);
    sf_compare; cbn [CompOpp] in *; subst; try discriminate;
    try (left; reflexivity); try lia.
Qed.

Lemma SFleb_of_not_lt (a b : spec_float) :
  a <> S754_nan -> b <> S754_nan ->
  SFltb a b = false -> SFleb b a = true.
Proof.
  destruct a as [[]|[]| |[] ma ea], b as [[]|[]| |[] mb eb];
    intros Ha Hb H1;
    try (exfalso; apply Ha; reflexivity); try (exfalso; apply Hb; reflexivity);
    cbn [SFltb SFleb SFcompare CompOpp] in *; try discriminate;
    try reflexivity;
    sf_compare; cbn [CompOpp] in *; subst; try discriminate;
    try reflexivity; try lia.
Qed.

(** A double that is not a NaN. *)
Definition is_number (a : float) : Prop := Prim2SF a <> S754_nan.

(** The values [max_radius] and [max_r] take: plus zero, or above it. *)
Definition radius_bound (a : float) : Prop :=
  a = 0%float \/ (0 <? a)%float = true.

Lemma ltb_trans (a b c : float) :
  (a <? b)%float = true -> (b <? c)%float = true -> (a <? c)%float = true.
Proof. rewrite !ltb_spec. apply SFltb_trans. Qed.

Lemma ltb_irrefl (a : float) : (a <? a)%float = false.
Proof. rewrite ltb_spec. apply SFltb_irrefl. Qed.

Lemma ltb_between (a b c : float) :
  (a <? c)%float = true -> is_number b ->
  (a <? b)%float = true \/ (b <? c)%float = true.
Proof. rewrite !ltb_spec. apply SFltb_between. Qed.

Lemma not_ltb_trans (a b c : float) :
  is_number b -> (a <? b)%float = false -> (b <? c)%float = false ->
  (a <? c)%float = false.
Proof.
  intros Hb H1 H2. destruct (a <? c)%float eqn:E; [|reflexivity].
  destruct (ltb_between a b c E Hb); congruence.
Qed.

Lemma leb_of_not_ltb (a b : float) :
  is_number a -> is_number b -> (a <? b)%float = false ->
  (b <=? a)%float = true.
Proof. rewrite ltb_spec, leb_spec. apply SFleb_of_not_lt. Qed.

Lemma radius_bound_number (a : float) : radius_bound a -> is_number a.
Proof.
  intros [->|H]; unfold is_number.
  - vm_compute. discriminate.
  - rewrite ltb_spec in H. intros E. rewrite E in H.
    destruct (Prim2SF 0) as [[]|[]| |[] m e]; discriminate.
Qed.

Lemma radius_bound_eq (a b : float) :
  radius_bound a -> radius_bound b ->
  (a <? b)%float = false -> (b <? a)%float = false -> a = b.
Proof.
  intros Ha Hb H1 H2.
  pose proof (radius_bound_number a Ha) as Na.
  pose proof (radius_bound_number b Hb) as Nb.
  assert (Hz : forall c s, radius_bound c -> Prim2SF c = S754_zero s ->
                           c = 0%float).
  { intros c s [->|Hc] E; [reflexivity|].
    rewrite ltb_spec, E in Hc. vm_compute in Hc. discriminate. }
  rewrite ltb_spec in H1, H2.
  destruct (SFltb_total _ _ Na Nb H1 H2) as [E|(s & s' & E1 & E2)].
  - apply Prim2SF_inj. exact E.
  - rewrite (Hz a s Ha E1), (Hz b s' Hb E2). reflexivity.
Qed.

Lemma fmax_bound (a r : float) : radius_bound a -> radius_bound (fmax a r).
Proof.
  intros Ha. unfold fmax. destruct (a <? r)%float eqn:E; [|exact Ha].
  right. destruct Ha as [->|Ha]; [exact E|]. eapply ltb_trans; eassumption.
Qed.

Lemma fmax_ge_l (a r : float) : (fmax a r <? a)%float = false.
Proof.
  unfold fmax. destruct (a <? r)%float eqn:E; [|apply ltb_irrefl].
  destruct (r <? a)%float eqn:E'; [|reflexivity].
  pose proof (ltb_trans _ _ _ E E') as H. now rewrite ltb_irrefl in H.
Qed.

Lemma fmax_ge_r (a r : float) : (fmax a r <? r)%float = false.
Proof.
  unfold fmax. destruct (a <? r)%float eqn:E; [apply ltb_irrefl|exact E].
Qed.

(** [x] is the greatest of [M] and the list. *)
Definition top (M : float) (l : list float) (x : float) : Prop :=
  radius_bound x /\ (x = M \/ In x l) /\ (x <? M)%float = false /\
  forall r, In r l -> (x <? r)%float = false.

Lemma fold_fmax_top (l : list float) :
  forall M, radius_bound M -> top M l (fold_left fmax l M).
Proof.
  induction l as [|r l IH]; intros M HM; cbn [fold_left].
  - split; [exact HM|]. split; [left; reflexivity|].
    split; [apply ltb_irrefl|intros r []].
  - destruct (IH (fmax M r) (fmax_bound M r HM)) as (Hb & Hin & Hge & Hall).
    pose proof (radius_bound_number _ (fmax_bound M r HM)) as Hn.
    split; [exact Hb|]. split; [|split].
    + destruct Hin as [Hin|Hin]; [|right; right; exact Hin].
      rewrite Hin. unfold fmax. destruct (M <? r)%float; [right; left|left];
        reflexivity.
    + eapply not_ltb_trans; [exact Hn|exact Hge|apply fmax_ge_l].
    + intros r' [<-|Hr']; [|apply Hall; exact Hr'].
      eapply not_ltb_trans; [exact Hn|exact Hge|apply fmax_ge_r].
Qed.

Lemma top_unique (M : float) (l l' : list float) (x x' : float) :
  (forall r, In r l <-> In r l') -> top M l x -> top M l' x' -> x = x'.
Proof.
  intros Hl (Hb & Hin & Hge & Hall) (Hb' & Hin' & Hge' & Hall').
  apply radius_bound_eq; try assumption.
  - destruct Hin' as [->|Hin']; [exact Hge|]. apply Hall, Hl. exact Hin'.
  - destruct Hin as [->|Hin]; [exact Hge'|]. apply Hall', Hl. exact Hin.
Qed.

(** ** The poly container *)

(** One insertion request of [container_poly_2d]. *)
Record poly_call : Type := {
  pc_id : Z; pc_x : float; pc_y : float; pc_r : float
}.

Definition to_call (pc : poly_call) : call :=
  {| c_id := pc_id pc; c_x := pc_x pc; c_y := pc_y pc; c_rest := [pc_r pc] |}.

(** The calls inserted one after the other with [container_poly_2d::put]. *)
Fixpoint poly_serial_puts (c : container_poly) (pcs : list poly_call)
  : outcome container_poly :=
  match pcs with
  | [] => Ok c
  | pc :: pcs' =>
    c' <-- container_poly_2d_put c (pc_id pc) (pc_x pc) (pc_y pc) (pc_r pc) ;;
    poly_serial_puts c' pcs'
  end.

(** The radii of the calls that [put_remap] accepts, in order. *)
Definition radii (g : geometry) (pcs : list poly_call) : list float :=
  omap (fun pc => match put_remap g (pc_x pc) (pc_y pc) with
                  | Some _ => Some (pc_r pc)
                  | None => None
                  end) pcs.

(** The schedule as the storage sees it. *)
Definition erase (a : poly_action) : action :=
  match a with
  | PReserve _ i x y r => Reserve i x y [r]
  | PCommit k => Commit k
  end.

Definition poly_calls_of (sched : list poly_action) : list poly_call :=
  omap (fun a => match a with
                 | PReserve _ i x y r =>
                   Some {| pc_id := i; pc_x := x; pc_y := y; pc_r := r |}
                 | PCommit _ => None
                 end) sched.

(** Every call is run by one of the [nt] threads. *)
Definition threads_ok (nt : nat) (sched : list poly_action) : Prop :=
  forall t i x y r, In (PReserve t i x y r) sched -> 0 <= t < Z.of_nat nt.

(** A batch followed by [container_poly_2d::put_reconcile_overflow]. *)
Definition poly_round (c : container_poly) (sched : list poly_action)
  : outcome container_poly :=
  st <-- poly_run_schedule sched (c, []) ;;
  container_poly_2d_put_reconcile_overflow (fst st).

(** The state of a poly container on which every batch has been
    reconciled. *)
Record poly_wf (c : container_poly) : Prop := {
  pw_con : wf (con c);
  pw_max_r : forall m, In m (max_r c) -> m = 0%float;
  pw_max : radius_bound (max_radius c)
}.

(** The per-thread maxima inside a batch: [R] are the radii reserved so far,
    [D] those of the calls that have finished. *)
Record poly_batch_inv (R D : list float) (c : container_poly)
    (fl : list in_flight) : Prop := {
  pb_maxes : forall t m, max_r c !! t = Some m ->
             radius_bound m /\ (m = 0%float \/ In m D);
  pb_cover : forall r, In r D ->
             exists t m, max_r c !! t = Some m /\ (m <? r)%float = false;
  pb_flight : forall r, In r R -> In r D \/ exists f, In f fl /\ f_r f = r;
  pb_done : forall r, In r D -> In r R;
  pb_started : forall f, In f fl -> In (f_r f) R;
  pb_threads : forall f, In f fl ->
               0 <= f_thread f < Z.of_nat (length (max_r c))
}.

Lemma put_coords_geo (s s' : container) (n : Z) (x y : float)
    (rest : list float) (a : bool) :
  put_coords s n x y rest = Ok (s', a) ->
  geo s' = geo s /\
  a = match put_remap (geo s) x y with Some _ => true | None => false end.
Proof.
  rewrite put_coords_unfold.
  destruct (put_remap (geo s) x y) as [[[ij x'] y']|].
  - destruct (get_block (blocks s) ij) as [b| | |]; try discriminate.
    cbn [obind]. destruct (block_put b n _) as [b'| | |]; try discriminate.
    cbn [obind]. intros [= <- <-]. split; reflexivity.
  - intros [= <- <-]. split; reflexivity.
Qed.

Lemma radii_cons (g : geometry) (pc : poly_call) (pcs : list poly_call) :
  radii g (pc :: pcs)
  = match put_remap g (pc_x pc) (pc_y pc) with
    | Some _ => [pc_r pc]
    | None => []
    end ++ radii g pcs.
Proof.
  unfold radii. cbn [omap list_omap].
  destruct (put_remap g (pc_x pc) (pc_y pc)); reflexivity.
Qed.

(** The storage of the poly container follows the serial run of the same
    calls; [max_radius] is folded over the accepted radii. *)
Lemma poly_serial_puts_con (pcs : list poly_call) :
  forall c,
  poly_serial_puts c pcs =
  (s' <-- serial_puts (con c) (to_call <$> pcs) ;;
   Ok {| con := s'; max_r := max_r c;
         max_radius := fold_left fmax (radii (geo (con c)) pcs)
                                 (max_radius c) |}).
Proof.
  induction pcs as [|pc pcs IH]; intros c.
  - cbn. destruct c; reflexivity.
  - cbn [poly_serial_puts fmap list_fmap serial_puts to_call c_id c_x c_y
         c_rest].
    unfold container_poly_2d_put.
    destruct (put_coords (con c) (pc_id pc) (pc_x pc) (pc_y pc) [pc_r pc])
      as [[s1 a]| | |] eqn:E; try reflexivity.
    cbn [obind fst snd]. rewrite IH. cbn [con max_r max_radius].
    apply put_coords_geo in E as [Hgeo ->]. rewrite Hgeo, radii_cons.
    destruct (put_remap (geo (con c)) (pc_x pc) (pc_y pc)); reflexivity.
Qed.

Lemma reserve_geo (s s' : container) (i : Z) (x y : float) (rest : list float)
    (o : option overflow_rec) :
  put_parallel_reserve s i x y rest = Ok (s', o) ->
  geo s' = geo s /\
  match put_remap (geo s) x y with
  | Some _ => exists r, o = Some r
  | None => o = None
  end.
Proof.
  unfold put_parallel_reserve.
  destruct (put_remap (geo s) x y) as [[[ij x'] y']|].
  - destruct (get_block (blocks s) ij) as [b| | |]; try discriminate.
    cbn [obind]. intros [= <- <-]. split; [reflexivity|eauto].
  - intros [= <- <-]. split; reflexivity.
Qed.

Lemma commit_geo (s s' : container) (r : overflow_rec) :
  put_parallel_commit s r = Ok s' -> geo s' = geo s.
Proof.
  unfold put_parallel_commit.
  destruct (get_block (blocks s) (o_ij r)) as [b| | |]; try discriminate.
  cbn [obind]. destruct (o_m r <? mem b).
  - destruct (store b _ _ _) as [b'| | |]; try discriminate.
    cbn [obind]. now intros [= <-].
  - unfold overflow_append.
    destruct (if overflowPtCt s + 1 >? overflow_mem_numPt s then _ else _)
      as [[cap o]| | |]; try discriminate.
    cbn [obind fst snd].
    destruct (arr_set o _ r) as [o'| | |]; try discriminate.
    cbn [obind]. now intros [= <-].
Qed.

Lemma update_max_r_Ok (mr : list float) (t : Z) (r : float) :
  0 <= t < Z.of_nat (length mr) ->
  exists a, mr !! Z.to_nat t = Some a /\
            update_max_r mr t r = Ok (<[Z.to_nat t := fmax a r]> mr).
Proof.
  intros Ht. unfold update_max_r.
  replace (0 <=? t) with true by (symmetry; apply Z.leb_le; lia).
  destruct (lookup_lt_is_Some_2 mr (Z.to_nat t)) as [a Ha]; [lia|].
  exists a. rewrite Ha. split; reflexivity.
Qed.

(** The poly batch follows the batch of the storage; the per-thread maxima
    keep covering the radii of the finished calls. *)
Lemma poly_run_schedule_inv (g : geometry) (sched : list poly_action) :
  forall c fl R D s' ofl',
  geo (con c) = g ->
  poly_batch_inv R D c fl ->
  threads_ok (length (max_r c)) sched ->
  run_schedule (erase <$> sched) (con c, f_rec <$> fl) = Ok (s', ofl') ->
  exists c' fl' D',
    poly_run_schedule sched (c, fl) = Ok (c', fl') /\
    con c' = s' /\ f_rec <$> fl' = ofl' /\
    max_radius c' = max_radius c /\
    length (max_r c') = length (max_r c) /\
    poly_batch_inv (R ++ radii g (poly_calls_of sched)) D' c' fl'.
Proof.
  induction sched as [|a sched IH]; intros c fl R D s' ofl' Hg Hinv Hth Hrun.
  - cbn in Hrun. injection Hrun as <- <-. exists c, fl, D.
    split; [reflexivity|]. repeat (split; [reflexivity|]).
    unfold radii, poly_calls_of. cbn. rewrite app_nil_r. exact Hinv.
  - cbn [fmap list_fmap run_schedule] in Hrun.
    destruct (par_step (erase a) (con c, f_rec <$> fl)) as [[s1 ofl1]| | |]
      eqn:Estep; try discriminate.
    cbn [obind] in Hrun.
    assert (Hth' : forall c1, length (max_r c1) = length (max_r c) ->
                   threads_ok (length (max_r c1)) sched).
    { intros c1 Hl t i x y r Hin. rewrite Hl. eapply Hth. right. exact Hin. }
    destruct a as [t i x y r|k].
    + cbn [erase par_step fst snd] in Estep.
      destruct (put_parallel_reserve (con c) i x y [r]) as [[s2 o]| | |] eqn:Er;
        try discriminate.
      cbn [obind fst snd] in Estep. injection Estep as <- <-.
      pose proof (reserve_geo _ _ _ _ _ _ _ Er) as [Hgeo Ho]. rewrite Hg in Ho.
      set (fl1 := match o with
                  | Some o' => fl ++ [{| f_thread := t; f_r := r; f_rec := o' |}]
                  | None => fl
                  end).
      set (R1 := R ++ match put_remap g x y with
                      | Some _ => [r]
                      | None => []
                      end).
      destruct (IH (set_con c s2) fl1 R1 D s' ofl') as
        (c' & fl' & D' & Hprun & Hcon & Hfl & Hmax & Hlen & Hinv').
      * cbn [con set_con]. congruence.
      * destruct Hinv as [H1 H2 H3 H4 H6 H5]. split; cbn [max_r set_con];
          try assumption.
        -- intros r0 Hr0. unfold R1 in Hr0. apply in_app_or in Hr0 as [Hr0|Hr0].
           ++ destruct (H3 r0 Hr0) as [Hd|(f & Hf & Hfr)]; [left; exact Hd|].
              right. exists f. split; [|exact Hfr]. unfold fl1.
              destruct o; [apply in_or_app; left|]; exact Hf.
           ++ destruct (put_remap g x y); [|destruct Hr0].
              destruct Hr0 as [<-|[]]. destruct Ho as [o' ->]. right.
              exists {| f_thread := t; f_r := r; f_rec := o' |}.
              split; [|reflexivity]. unfold fl1. apply in_or_app. right.
              left. reflexivity.
        -- intros r0 Hr0. unfold R1. apply in_or_app. left. apply H4. exact Hr0.
        -- intros f Hf. unfold R1, fl1 in *. apply in_or_app.
           destruct o as [o'|]; [|left; apply H6; exact Hf].
           apply in_app_or in Hf as [Hf|[<-|[]]]; [left; apply H6; exact Hf|].
           right. cbn [f_r]. destruct (put_remap g x y); [left; reflexivity|].
           discriminate Ho.
        -- intros f Hf. unfold fl1 in Hf. destruct o as [o'|]; [|apply H5; exact Hf].
           apply in_app_or in Hf as [Hf|[<-|[]]]; [apply H5; exact Hf|].
           cbn [f_thread]. eapply Hth. left. reflexivity.
      * apply Hth'. reflexivity.
      * cbn [con set_con]. unfold fl1. destruct o as [o'|]; [|exact Hrun].
        rewrite fmap_app. exact Hrun.
      * exists c', fl', D'. cbn [poly_run_schedule poly_par_step fst snd].
        rewrite Er. cbn [obind fst snd]. fold fl1.
        split; [exact Hprun|]. repeat (split; [assumption|]).
        unfold poly_calls_of. cbn [omap list_omap]. fold (poly_calls_of sched).
        rewrite radii_cons. cbn [pc_x pc_y pc_r]. rewrite app_assoc.
        exact Hinv'.
    + cbn [erase par_step fst snd] in Estep.
      rewrite list_lookup_fmap in Estep.
      cbn [poly_run_schedule poly_par_step fst snd].
      destruct (fl !! k) as [f|] eqn:Ek; cbn [fmap option_fmap option_map] in Estep.
      * destruct (put_parallel_commit (con c) (f_rec f)) as [s2| | |] eqn:Ec;
          try discriminate.
        cbn [obind] in Estep. injection Estep as <- <-.
        pose proof (commit_geo _ _ _ Ec) as Hgeo.
        assert (Hf : In f fl).
        { apply list_elem_of_In. eapply list_elem_of_lookup_2. exact Ek. }
        destruct (update_max_r_Ok (max_r c) (f_thread f) (f_r f)
                    (pb_threads _ _ _ _ Hinv f Hf)) as (a & Ha & Hupd).
        rewrite Hupd. cbn [obind].
        set (c1 := {| con := s2;
                      max_r := <[Z.to_nat (f_thread f):=fmax a (f_r f)]> (max_r c);
                      max_radius := max_radius c |}).
        destruct (IH c1 (delete k fl) R (D ++ [f_r f]) s' ofl') as
          (c' & fl' & D' & Hprun & Hcon & Hfl & Hmax & Hlen & Hinv').
        -- cbn [con c1]. congruence.
        -- destruct Hinv as [H1 H2 H3 H4 H6 H5]. split; cbn [max_r c1].
           ++ intros t m Hm.
              destruct (Nat.eq_dec t (Z.to_nat (f_thread f))) as [->|Hne].
              ** rewrite list_lookup_insert_eq in Hm
                   by (eapply lookup_lt_Some; exact Ha).
                 injection Hm as <-. destruct (H1 _ _ Ha) as [Hb Hin].
                 split; [apply fmax_bound; exact Hb|].
                 unfold fmax. destruct (a <? f_r f)%float.
                 --- right. apply in_or_app. right. left. reflexivity.
                 --- destruct Hin as [Hz|Hin]; [left; exact Hz|right].
                     apply in_or_app. left. exact Hin.
              ** rewrite list_lookup_insert_ne in Hm by congruence.
                 destruct (H1 _ _ Hm) as [Hb Hin]. split; [exact Hb|].
                 destruct Hin as [Hz|Hin]; [left; exact Hz|right].
                 apply in_or_app. left. exact Hin.
           ++ intros r0 Hr0. apply in_app_or in Hr0 as [Hr0|[<-|[]]].
              ** destruct (H2 r0 Hr0) as (t & m & Hm & Hle).
                 destruct (Nat.eq_dec t (Z.to_nat (f_thread f))) as [->|Hne].
                 --- exists (Z.to_nat (f_thread f)), (fmax a (f_r f)).
                     split; [apply list_lookup_insert_eq;
                             eapply lookup_lt_Some; exact Ha|].
                     assert (m = a) as -> by congruence.
                     destruct (H1 _ _ Ha) as [Hb _].
                     eapply not_ltb_trans;
                       [apply radius_bound_number; exact Hb
                       |apply fmax_ge_l|exact Hle].
                 --- exists t, m. split; [|exact Hle].
                     rewrite list_lookup_insert_ne by congruence. exact Hm.
              ** exists (Z.to_nat (f_thread f)), (fmax a (f_r f)).
                 split; [apply list_lookup_insert_eq;
                         eapply lookup_lt_Some; exact Ha|apply fmax_ge_r].
           ++ intros r0 Hr0. destruct (H3 r0 Hr0) as [Hd|(f0 & Hf0 & Hfr)].
              ** left. apply in_or_app. left. exact Hd.
              ** apply list_elem_of_In, list_elem_of_lookup_1 in Hf0 as [k0 Hk0].
                 destruct (Nat.eq_dec k0 k) as [->|Hne].
                 --- left. apply in_or_app. right. left. congruence.
                 --- right. exists f0. split; [|exact Hfr].
                     apply list_elem_of_In.
                     eapply elem_of_delete_other; eassumption.
           ++ intros r0 Hr0. apply in_app_or in Hr0 as [Hr0|[<-|[]]].
              ** apply H4. exact Hr0.
              ** apply H6. exact Hf.
           ++ intros f0 Hf0. apply H6.
              apply list_elem_of_In. eapply list_elem_of_delete_inv.
              apply list_elem_of_In. exact Hf0.
           ++ intros f0 Hf0. rewrite length_insert. apply H5.
              apply list_elem_of_In. eapply list_elem_of_delete_inv.
              apply list_elem_of_In. exact Hf0.
        -- apply Hth'. cbn [max_r c1]. apply length_insert.
        -- cbn [con c1]. rewrite list_fmap_delete. exact Hrun.
        -- exists c', fl', D'. split; [exact Hprun|].
           split; [exact Hcon|]. split; [exact Hfl|]. split; [exact Hmax|].
           split; [rewrite Hlen; cbn [max_r c1]; apply length_insert|].
           unfold poly_calls_of. cbn [omap list_omap]. exact Hinv'.
      * injection Estep as <- <-.
        destruct (IH c fl R D s' ofl' Hg Hinv (Hth' c eq_refl) Hrun) as
          (c' & fl' & D' & Hprun & Hrest).
        exists c', fl', D'. split; [exact Hprun|].
        unfold poly_calls_of. cbn [omap list_omap]. exact Hrest.
Qed.

Lemma calls_of_erase (sched : list poly_action) :
  calls_of (erase <$> sched) = to_call <$> poly_calls_of sched.
Proof.
  induction sched as [|a sched IH]; [reflexivity|].
  unfold calls_of, poly_calls_of in *. cbn [fmap list_fmap omap list_omap].
  destruct a as [t i x y r|k]; cbn [erase]; [|exact IH].
  cbn [fmap list_fmap]. f_equal. exact IH.
Qed.

Lemma radii_Permutation (g : geometry) (pcs pcs' : list poly_call) :
  pcs ≡ₚ pcs' -> forall r, In r (radii g pcs) <-> In r (radii g pcs').
Proof.
  intros H r. unfold radii.
  assert (Hp : omap (fun pc => match put_remap g (pc_x pc) (pc_y pc) with
                               | Some _ => Some (pc_r pc)
                               | None => None
                               end) pcs
               ≡ₚ omap (fun pc => match put_remap g (pc_x pc) (pc_y pc) with
                                  | Some _ => Some (pc_r pc)
                                  | None => None
                                  end) pcs') by (now rewrite H).
  split; intros Hin.
  - eapply Permutation_in; [exact Hp|exact Hin].
  - eapply Permutation_in; [symmetry; exact Hp|exact Hin].
Qed.

(** A whole poly batch ends on the storage state of the storage batch, with
    per-thread maxima whose fold is the greatest of [max_radius] and the
    accepted radii. *)
Lemma poly_batch_spec (c : container_poly) (sched : list poly_action) :
  poly_wf c -> complete (geo (con c)) (erase <$> sched) ->
  threads_ok (length (max_r c)) sched ->
  exists c1 L,
    poly_run_schedule sched (c, []) = Ok (c1, []) /\
    run_schedule (erase <$> sched) (con c, []) = Ok (con c1, []) /\
    par_inv (con c) (calls_of (erase <$> sched)) L (con c1) [] /\
    length (max_r c1) = length (max_r c) /\
    top (max_radius c) (radii (geo (con c)) (poly_calls_of sched))
        (fold_left fmax (max_r c1) (max_radius c1)).
Proof.
  intros Hwf Hc Hth.
  destruct (complete_batch (con c) _ (pw_con _ Hwf) Hc) as (s1 & L & Hrun & Hinv).
  assert (Hinit : poly_batch_inv [] [] c []).
  { split; try (intros ? []).
    intros t m Hm. apply list_elem_of_lookup_2, list_elem_of_In in Hm.
    rewrite (pw_max_r _ Hwf m Hm). split; left; reflexivity. }
  destruct (poly_run_schedule_inv (geo (con c)) sched c [] [] [] s1 []
              eq_refl Hinit Hth Hrun)
    as (c1 & fl' & D' & Hprun & Hcon & Hfl & Hmax & Hlen & Hpinv).
  destruct fl'; [|discriminate]. subst s1.
  exists c1, L. split; [exact Hprun|]. split; [exact Hrun|].
  split; [exact Hinv|]. split; [exact Hlen|].
  cbn [app] in Hpinv. rewrite Hmax.
  destruct (fold_fmax_top (max_r c1) (max_radius c) (pw_max _ Hwf))
    as (Hb & Hin & Hge & Hall).
  split; [exact Hb|]. split; [|split; [exact Hge|]].
  - destruct Hin as [Hin|Hin]; [left; exact Hin|].
    apply list_elem_of_In, list_elem_of_lookup_1 in Hin as [t Ht].
    destruct (pb_maxes _ _ _ _ Hpinv t _ Ht) as [_ [Hz|Hd]].
    + left. rewrite Hz in *.
      destruct (pw_max _ Hwf) as [->|Hpos]; [reflexivity|congruence].
    + right. apply (pb_done _ _ _ _ Hpinv). exact Hd.
  - intros r Hr.
    destruct (pb_flight _ _ _ _ Hpinv r Hr) as [Hd|(f & [] & _)].
    destruct (pb_cover _ _ _ _ Hpinv r Hd) as (t & m & Hm & Hle).
    destruct (pb_maxes _ _ _ _ Hpinv t m Hm) as [Hbm _].
    eapply not_ltb_trans; [apply radius_bound_number; exact Hbm| |exact Hle].
    apply Hall. apply list_elem_of_In. eapply list_elem_of_lookup_2. exact Hm.
Qed.

Lemma poly_serial_parallel_agree (c0 : container_poly)
    (pcs : list poly_call) (sched : list poly_action) :
  poly_wf c0 -> complete (geo (con c0)) (erase <$> sched) ->
  threads_ok (length (max_r c0)) sched ->
  poly_calls_of sched ≡ₚ pcs ->
  exists c1, poly_run_schedule sched (c0, []) = Ok (c1, []) /\
    agree (fun a b => same_contents (con a) (con b) /\
                      max_radius a = max_radius b)
          (poly_serial_puts c0 pcs)
          (container_poly_2d_put_reconcile_overflow c1).
Proof.
  intros Hwf Hc Hth Hperm.
  destruct (poly_batch_spec c0 sched Hwf Hc Hth)
    as (c1 & L & Hprun & Hrun & _ & _ & Htop).
  exists c1. split; [exact Hprun|].
  destruct (serial_parallel_agree (con c0) (to_call <$> pcs) (erase <$> sched)
              (pw_con _ Hwf) Hc) as (s1 & Hrun' & Hagree).
  { rewrite calls_of_erase. now rewrite Hperm. }
  assert (s1 = con c1) as -> by congruence.
  rewrite poly_serial_puts_con. unfold container_poly_2d_put_reconcile_overflow.
  unfold agree in *.
  destruct (serial_puts (con c0) (to_call <$> pcs)) as [a| | |];
    destruct (put_reconcile_overflow (con c1)) as [b| | |];
    cbn [obind]; try exact Hagree.
  cbn [con max_radius]. split; [exact Hagree|].
  eapply top_unique; [|apply fold_fmax_top; exact (pw_max _ Hwf)|exact Htop].
  intros r. apply radii_Permutation. symmetry. exact Hperm.
Qed.

(** C1: from a state on which every batch has been reconciled, a run of
    serial puts and a whole batch of the same calls followed by
    [put_reconcile_overflow] end alike, whatever the interleaving of the
    batch: both stop on the memory ceiling, or both return, and then every
    block has the same count, the same capacity and the same entries up to
    their order; in the poly class [max_radius] is the same too. *)
Theorem serial_parallel_same_state :
  (forall s0 cs sched,
     wf s0 -> complete (geo s0) sched -> calls_of sched ≡ₚ cs ->
     exists s1, run_schedule sched (s0, []) = Ok (s1, []) /\
       agree same_contents (serial_puts s0 cs) (put_reconcile_overflow s1)) /\
  (forall c0 pcs sched,
     poly_wf c0 -> complete (geo (con c0)) (erase <$> sched) ->
     threads_ok (length (max_r c0)) sched ->
     poly_calls_of sched ≡ₚ pcs ->
     exists c1, poly_run_schedule sched (c0, []) = Ok (c1, []) /\
       agree (fun a b => same_contents (con a) (con b) /\
                         max_radius a = max_radius b)
             (poly_serial_puts c0 pcs)
             (container_poly_2d_put_reconcile_overflow c1)).
Proof.
  split.
  - intros s0 cs sched. apply serial_parallel_agree.
  - intros c0 pcs sched. apply poly_serial_parallel_agree.
Qed.

(** Two poly calls on a one-block container with two threads. *)
Definition two_threads : container_poly :=
  container_poly_2d_new 0 1 0 1 1 1 false false 1 2.

Lemma two_threads_wf : poly_wf two_threads.
Proof.
  split.
  - apply new_container_wf; lia.
  - intros m [<-|[<-|[]]]; reflexivity.
  - left. reflexivity.
Qed.

Lemma serial_parallel_same_state_witness :
  exists c1 a b,
    poly_run_schedule
      [PReserve 0 1 0.5 0.5 0.25; PReserve 1 2 0.25 0.5 0.125;
       PCommit 1; PCommit 0] (two_threads, []) = Ok (c1, []) /\
    poly_serial_puts two_threads
      [{| pc_id := 2; pc_x := 0.25; pc_y := 0.5; pc_r := 0.125 |};
       {| pc_id := 1; pc_x := 0.5; pc_y := 0.5; pc_r := 0.25 |}] = Ok a /\
    container_poly_2d_put_reconcile_overflow c1 = Ok b /\
    same_contents (con a) (con b) /\ max_radius a = max_radius b.
Proof.
  destruct serial_parallel_same_state as [_ H].
  destruct (H two_threads
              [{| pc_id := 2; pc_x := 0.25; pc_y := 0.5; pc_r := 0.125 |};
               {| pc_id := 1; pc_x := 0.5; pc_y := 0.5; pc_r := 0.25 |}]
              [PReserve 0 1 0.5 0.5 0.25; PReserve 1 2 0.25 0.5 0.125;
               PCommit 1; PCommit 0]) as (c1 & Hrun & Hag).
  - exact two_threads_wf.
  - reflexivity.
  - intros t i x y r [E|[E|[E|[E|[]]]]]; try discriminate;
      injection E as <- _ _ _ _;
      change (Z.of_nat (length (max_r two_threads))) with 2; lia.
  - apply perm_swap.
  - exists c1.
    destruct (poly_serial_puts two_threads _) as [a| | |] eqn:Ea;
      try (vm_compute in Ea; discriminate).
    destruct (container_poly_2d_put_reconcile_overflow c1) as [b| | |] eqn:Eb.
    + exists a, b. split; [exact Hrun|]. split; [reflexivity|].
      split; [reflexivity|]. exact Hag.
    + destruct Hag.
    + destruct Hag.
    + destruct Hag.
Defined.

(** ** Reachable states of the poly container *)

Inductive poly_op : Type :=
| OpPut (pc : poly_call)
| OpRound (sched : list poly_action)
| OpClear.

Definition poly_step (c : container_poly) (op : poly_op)
  : outcome container_poly :=
  match op with
  | OpPut pc =>
    container_poly_2d_put c (pc_id pc) (pc_x pc) (pc_y pc) (pc_r pc)
  | OpRound sched => poly_round c sched
  | OpClear => Ok (container_poly_2d_clear c)
  end.

(** A round is a whole batch run by the threads of the container. *)
Definition op_ok (c : container_poly) (op : poly_op) : Prop :=
  match op with
  | OpRound sched =>
    complete (geo (con c)) (erase <$> sched) /\
    threads_ok (length (max_r c)) sched
  | _ => True
  end.

(** The states reached from a fresh container by serial puts, reconciled
    batches and [clear]. *)
Inductive reachable : container_poly -> Prop :=
| reach_new ax_ bx_ ay_ by__ nx_ ny_ x_prd_ y_prd_ init_mem number_thread :
    0 < nx_ -> 0 < ny_ -> 1 <= init_mem ->
    reachable (container_poly_2d_new ax_ bx_ ay_ by__ nx_ ny_ x_prd_ y_prd_
                                     init_mem number_thread)
| reach_step c op c' :
    reachable c -> op_ok c op -> poly_step c op = Ok c' -> reachable c'.

(** [r] is the radius of a stored particle. *)
Definition stored_radius (c : container_poly) (r : float) : Prop :=
  exists ij b m n x y,
    blk (con c) ij = Some b /\ 0 <= m < co b /\
    slot b m = Some (n, [x; y; r]).

Record poly_inv (c : container_poly) : Prop := {
  pv_wf : poly_wf c;
  pv_entries : forall ij b e, blk (con c) ij = Some b -> In e (entries b) ->
    exists n x y r, e = Some (n, [x; y; r]) /\
                    (max_radius c <? r)%float = false
}.

Lemma routed_radii (g : geometry) (ij : Z) (pcs : list poly_call)
    (e : Z * list float) :
  In e (routed g ij (to_call <$> pcs)) ->
  exists n x y r, e = (n, [x; y; r]) /\ In r (radii g pcs).
Proof.
  induction pcs as [|pc pcs IH]; [intros []|].
  cbn [fmap list_fmap]. rewrite routed_cons, radii_cons. unfold route.
  cbn [to_call c_x c_y c_id c_rest]. intros H.
  apply in_app_or in H as [H|H].
  - destruct (put_remap g (pc_x pc) (pc_y pc)) as [[[b x'] y']|]; [|destruct H].
    destruct (b =? ij); [|destruct H]. destruct H as [<-|[]].
    exists (pc_id pc), x', y', (pc_r pc). split; [reflexivity|].
    left. reflexivity.
  - destruct (IH H) as (n & x & y & r & He & Hr).
    exists n, x, y, r. split; [exact He|]. apply in_or_app. right. exact Hr.
Qed.

(** Calls added to a state of the invariant, with [max_radius] raised to the
    greatest of its value and their radii. *)
Lemma poly_inv_extend (c c' : container_poly) (pcs : list poly_call) :
  poly_inv c -> wf (con c') -> geo (con c') = geo (con c) ->
  (forall m, In m (max_r c') -> m = 0%float) ->
  top (max_radius c) (radii (geo (con c)) pcs) (max_radius c') ->
  (forall ij b0, blk (con c) ij = Some b0 ->
     exists b', blk (con c') ij = Some b' /\
       entries b' = entries b0
                    ++ (Some <$> routed (geo (con c)) ij (to_call <$> pcs))) ->
  poly_inv c' /\ (max_radius c <=? max_radius c')%float = true.
Proof.
  intros [Hwf Hent] Hwf' Hgeo Hmr (Hb & Hin & Hge & Hall) Hblocks.
  pose proof (radius_bound_number _ (pw_max _ Hwf)) as Hn.
  split.
  - split; [split; assumption|].
    intros ij b' e Hb' He.
    pose proof (block_at_Some _ _ _ Hb') as [Hr _].
    rewrite (wf_len _ Hwf'), Hgeo, <- (wf_len _ (pw_con _ Hwf)) in Hr.
    destruct (block_at_inside _ _ Hr) as [b0 Hb0].
    destruct (Hblocks ij b0 Hb0) as (b'' & Hb'' & Heq).
    assert (b'' = b') as -> by congruence.
    rewrite Heq in He. apply in_app_or in He as [He|He].
    + destruct (Hent ij b0 e Hb0 He) as (n & x & y & r & -> & Hle).
      exists n, x, y, r. split; [reflexivity|].
      eapply not_ltb_trans; eassumption.
    + apply list_elem_of_In, list_elem_of_fmap in He as (p0 & -> & Hp).
      apply list_elem_of_In, routed_radii in Hp as (n & x & y & r & -> & Hr').
      exists n, x, y, r. split; [reflexivity|]. apply Hall. exact Hr'.
  - apply leb_of_not_ltb; [apply radius_bound_number; exact Hb|exact Hn|exact Hge].
Qed.

Lemma poly_inv_new (ax_ bx_ ay_ by__ : float) (nx_ ny_ : Z)
    (x_prd_ y_prd_ : bool) (init_mem number_thread : Z) :
  0 < nx_ -> 0 < ny_ -> 1 <= init_mem ->
  poly_inv (container_poly_2d_new ax_ bx_ ay_ by__ nx_ ny_ x_prd_ y_prd_
                                  init_mem number_thread).
Proof.
  intros Hnx Hny Hmem. split; [split|].
  - apply new_container_wf; assumption.
  - cbn [max_r container_poly_2d_new]. intros m Hm.
    apply list_elem_of_In, elem_of_replicate in Hm as [-> _]. reflexivity.
  - left. reflexivity.
  - intros ij b e Hb He. unfold blk in Hb. cbn in Hb.
    apply block_at_Some in Hb as [_ Hb].
    apply lookup_replicate_1 in Hb as [-> _]. destruct He.
Qed.

Lemma poly_inv_clear (c : container_poly) :
  poly_inv c -> poly_inv (container_poly_2d_clear c).
Proof.
  intros [[Hwf Hmr Hmax] Hent].
  assert (Hblk : forall ij b, blk (clear (con c)) ij = Some b ->
            exists b0, blk (con c) ij = Some b0 /\ b = set_co b0 0).
  { intros ij b H. unfold blk, clear, block_at in *.
    cbn [blocks set_blocks] in H.
    destruct (0 <=? ij); [|discriminate].
    change (map (fun b0 => set_co b0 0) (blocks (con c)))
      with ((fun b0 => set_co b0 0) <$> blocks (con c)) in H.
    rewrite list_lookup_fmap in H.
    destruct (blocks (con c) !! Z.to_nat ij) as [b0|]; [|discriminate].
    injection H as <-. eauto. }
  split; [split|]; cbn [con max_r max_radius container_poly_2d_clear].
  - destruct Hwf as [H1 H2 H3 H4 H5 H6 H7]. split; try assumption.
    + unfold clear. cbn [blocks set_blocks geo]. rewrite length_map. exact H3.
    + intros ij b Hb. destruct (Hblk ij b Hb) as (b0 & Hb0 & ->).
      destruct (H4 ij b0 Hb0) as [Hok _].
      split; [apply block_ok_set_co; [exact Hok|lia]|].
      cbn [co mem set_co]. pose proof (ok_mem _ Hok). lia.
  - exact Hmr.
  - left. reflexivity.
  - intros ij b e Hb He. destruct (Hblk ij b Hb) as (b0 & _ & ->).
    destruct He.
Qed.

Lemma poly_put_inv (c c' : container_poly) (pc : poly_call) :
  poly_inv c ->
  container_poly_2d_put c (pc_id pc) (pc_x pc) (pc_y pc) (pc_r pc) = Ok c' ->
  poly_inv c' /\ (max_radius c <=? max_radius c')%float = true.
Proof.
  intros Hinv Hput.
  assert (Hs : poly_serial_puts c [pc] = Ok c').
  { cbn [poly_serial_puts]. rewrite Hput. reflexivity. }
  rewrite poly_serial_puts_con in Hs. cbn [fmap list_fmap] in Hs.
  destruct (serial_puts (con c) [to_call pc]) as [s'| | |] eqn:Es;
    try discriminate.
  cbn [obind] in Hs. injection Hs as <-.
  destruct (serial_puts_spec [to_call pc] (con c) (pw_con _ (pv_wf _ Hinv)))
    as [_ Hok].
  destruct (Hok s' Es) as (Hwf' & Hgeo & _ & Hblocks).
  apply (poly_inv_extend c _ [pc]); cbn [con max_r max_radius]; try assumption.
  - exact (pw_max_r _ (pv_wf _ Hinv)).
  - apply fold_fmax_top. exact (pw_max _ (pv_wf _ Hinv)).
  - intros ij b0 Hb0. destruct (Hblocks ij b0 Hb0) as (b' & Hb' & _ & He & _).
    exists b'. split; assumption.
Qed.

Lemma poly_round_inv (c c' : container_poly) (sched : list poly_action) :
  poly_inv c -> complete (geo (con c)) (erase <$> sched) ->
  threads_ok (length (max_r c)) sched ->
  poly_round c sched = Ok c' ->
  poly_inv c' /\ (max_radius c <=? max_radius c')%float = true.
Proof.
  intros Hinv Hc Hth Hround.
  destruct (poly_batch_spec c sched (pv_wf _ Hinv) Hc Hth)
    as (c1 & L & Hprun & _ & Hpar & _ & Htop).
  unfold poly_round in Hround. rewrite Hprun in Hround.
  cbn [obind fst] in Hround.
  unfold container_poly_2d_put_reconcile_overflow in Hround.
  destruct (put_reconcile_overflow (con c1)) as [s'| | |] eqn:Er;
    try discriminate.
  cbn [obind] in Hround. injection Hround as <-.
  destruct (round_reconcile _ _ _ _ Hpar) as [_ Hok].
  destruct (Hok s' Er) as (Hwf' & Hgeo & _ & Hblocks).
  rewrite calls_of_erase in Hblocks.
  apply (poly_inv_extend c _ (poly_calls_of sched));
    cbn [con max_r max_radius]; try assumption.
  - intros m Hm. apply list_elem_of_In, elem_of_replicate in Hm as [-> _].
    reflexivity.
  - intros ij b0 Hb0. destruct (Hblocks ij b0 Hb0) as (b' & Hb' & _ & He & _).
    exists b'. split; assumption.
Qed.

(** Every reachable state satisfies the invariant. *)
Lemma reachable_inv (c : container_poly) : reachable c -> poly_inv c.
Proof.
  induction 1 as [ax_ bx_ ay_ by__ nx_ ny_ xp yp im nt Hnx Hny Hmem
                 |c op c' Hr IH Hop Hstep].
  - apply poly_inv_new; assumption.
  - destruct op as [pc|sched|]; cbn [poly_step op_ok] in *.
    + apply (poly_put_inv c c' pc IH Hstep).
    + destruct Hop as [Hc Hth]. apply (poly_round_inv c c' sched IH Hc Hth Hstep).
    + injection Hstep as <-. apply poly_inv_clear. exact IH.
Qed.

(** The parts of a batch leave [max_radius] alone. *)
Lemma poly_run_schedule_max_radius (sched : list poly_action) :
  forall st st', poly_run_schedule sched st = Ok st' ->
  max_radius (fst st') = max_radius (fst st).
Proof.
  induction sched as [|a sched IH]; intros st st' H; cbn in H.
  - now injection H as <-.
  - destruct (poly_par_step a st) as [st1| | |] eqn:E; try discriminate.
    cbn [obind] in H. rewrite (IH _ _ H). clear H IH.
    destruct a as [t i x y r|k]; cbn [poly_par_step] in E.
    + destruct (put_parallel_reserve _ _ _ _ _) as [sr| | |]; try discriminate.
      cbn [obind] in E. injection E as <-. destruct (fst st); reflexivity.
    + destruct (snd st !! k) as [f|]; [|now injection E as <-].
      destruct (put_parallel_commit _ _) as [s'| | |]; try discriminate.
      cbn [obind] in E.
      destruct (update_max_r _ _ _) as [mr| | |]; try discriminate.
      cbn [obind] in E. injection E as <-. reflexivity.
Qed.

Lemma stored_radius_entry (c : container_poly) (r : float) :
  stored_radius c r ->
  exists ij b n x y, blk (con c) ij = Some b /\
                     In (Some (n, [x; y; r])) (entries b).
Proof.
  intros (ij & b & m & n & x & y & Hb & Hm & Hs).
  exists ij, b, n, x, y. split; [exact Hb|].
  apply list_elem_of_In. unfold entries. rewrite <- Hs.
  apply list_elem_of_fmap. exists m. split; [reflexivity|].
  apply elem_of_seqZ. lia.
Qed.

Lemma reconcile_max_radius (c c' : container_poly) :
  radius_bound (max_radius c) ->
  container_poly_2d_put_reconcile_overflow c = Ok c' ->
  (max_radius c <=? max_radius c')%float = true.
Proof.
  intros Hb H. unfold container_poly_2d_put_reconcile_overflow in H.
  destruct (put_reconcile_overflow (con c)) as [s| | |]; try discriminate.
  cbn [obind] in H. injection H as <-. cbn [max_radius].
  destruct (fold_fmax_top (max_r c) (max_radius c) Hb) as (Hb' & _ & Hge & _).
  apply leb_of_not_ltb; [apply radius_bound_number; exact Hb'
                        |apply radius_bound_number; exact Hb|exact Hge].
Qed.

(** C8: in every state reached from a fresh poly container by serial puts,
    reconciled batches and [clear], [max_radius] is never below the radius of
    a stored particle, and is greater than or equal to it when that radius is
    not a NaN; [max_radius] does not decrease across a serial put or a
    reconciled batch, is left alone by the parts of a batch, and does not
    decrease across the reconciliation that follows them. *)
Theorem max_radius_bounds_stored (c : container_poly) :
  reachable c ->
  (forall r, stored_radius c r ->
     (max_radius c <? r)%float = false /\
     (is_number r -> (r <=? max_radius c)%float = true)) /\
  (forall op c', op_ok c op -> op <> OpClear -> poly_step c op = Ok c' ->
     (max_radius c <=? max_radius c')%float = true) /\
  (forall sched fl c1 fl1,
     poly_run_schedule sched (c, fl) = Ok (c1, fl1) ->
     max_radius c1 = max_radius c /\
     forall c', container_poly_2d_put_reconcile_overflow c1 = Ok c' ->
       (max_radius c <=? max_radius c')%float = true).
Proof.
  intros Hr. pose proof (reachable_inv c Hr) as Hinv.
  pose proof (pw_max _ (pv_wf _ Hinv)) as Hb.
  split; [|split].
  - intros r Hs.
    destruct (stored_radius_entry c r Hs) as (ij & b & n & x & y & Hblk & Hin).
    destruct (pv_entries _ Hinv ij b _ Hblk Hin) as (n' & x' & y' & r' & E & Hle).
    injection E as _ _ _ <-. split; [exact Hle|].
    intros Hn. apply leb_of_not_ltb;
      [apply radius_bound_number; exact Hb|exact Hn|exact Hle].
  - intros op c' Hop Hne Hstep. destruct op as [pc|sched|]; [| |congruence];
      cbn [poly_step op_ok] in *.
    + apply (poly_put_inv c c' pc Hinv Hstep).
    + destruct Hop as [Hc Hth].
      apply (poly_round_inv c c' sched Hinv Hc Hth Hstep).
  - intros sched fl c1 fl1 Hrun.
    pose proof (poly_run_schedule_max_radius _ _ _ Hrun) as Hm.
    cbn [fst] in Hm. split; [exact Hm|]. intros c' Hrec. rewrite <- Hm.
    apply reconcile_max_radius; [rewrite Hm; exact Hb|exact Hrec].
Qed.

(** A particle of radius 0.25 put into the one-block poly container. *)
Lemma max_radius_bounds_stored_witness :
  exists c, poly_step one_block_poly
              (OpPut {| pc_id := 7; pc_x := 0.5; pc_y := 0.5; pc_r := 0.25 |})
            = Ok c /\
    reachable c /\ stored_radius c 0.25 /\
    (max_radius c <? 0.25)%float = false /\
    (0.25 <=? max_radius c)%float = true.
Proof.
  destruct (poly_step one_block_poly
              (OpPut {| pc_id := 7; pc_x := 0.5; pc_y := 0.5; pc_r := 0.25 |}))
    as [c| | |] eqn:E; try (vm_compute in E; discriminate).
  exists c. split; [reflexivity|].
  assert (Hr : reachable c).
  { refine (reach_step one_block_poly (OpPut _) c _ I E).
    apply (reach_new 0 1 0 1 1 1 false false 1 1); lia. }
  assert (Hs : stored_radius c 0.25).
  { vm_compute in E. injection E as <-.
    eexists 0, _, 0, 7, 0.5%float, 0.5%float.
    split; [reflexivity|]. split; [cbn; lia|reflexivity]. }
  split; [exact Hr|]. split; [exact Hs|].
  destruct (max_radius_bounds_stored c Hr) as [H _].
  destruct (H 0.25%float Hs) as [H1 H2]. split; [exact H1|].
  apply H2. vm_compute. discriminate.
Defined.

(** A particle whose radius is a NaN is stored and leaves [max_radius] at 0,
    which is not greater than or equal to a NaN. *)
Lemma nan_radius_not_below_max_radius :
  exists c,
    poly_step (container_poly_2d_clear one_block_poly)
      (OpPut {| pc_id := 7; pc_x := 0.5; pc_y := 0.5; pc_r := nan |}) = Ok c /\
    reachable c /\ stored_radius c nan /\
    max_radius c = 0%float /\ (nan <=? max_radius c)%float = false.
Proof.
  destruct (poly_step (container_poly_2d_clear one_block_poly)
              (OpPut {| pc_id := 7; pc_x := 0.5; pc_y := 0.5; pc_r := nan |}))
    as [c| | |] eqn:E; try (vm_compute in E; discriminate).
  exists c. split; [reflexivity|]. split.
  - refine (reach_step (container_poly_2d_clear one_block_poly) (OpPut _) c
                       _ I E).
    refine (reach_step one_block_poly OpClear _ _ I eq_refl).
    apply (reach_new 0 1 0 1 1 1 false false 1 1); lia.
  - vm_compute in E. injection E as <-. split; [|split; reflexivity].
    eexists 0, _, 0, 7, 0.5%float, 0.5%float.
    split; [reflexivity|]. split; [cbn; lia|reflexivity].
Qed.

(** ** Point location *)

(** What [remap] decides, in terms of the two raw indices. *)
Lemma remap_cases (g : geometry) (x y : float) :
  0 < nx g -> 0 < ny g ->
  let ci := axis_index (ax g) (xsp g) x in
  let cj := axis_index (ay g) (ysp g) y in
  match remap g x y with
  | None => (x_prd g = false /\ ~ (0 <= ci < nx g)) \/
            (y_prd g = false /\ ~ (0 <= cj < ny g))
  | Some r => (x_prd g = false -> 0 <= ci < nx g /\ r_ai r = 0) /\
              (y_prd g = false -> 0 <= cj < ny g /\ r_aj r = 0) /\
              0 <= r_ci r < nx g /\ 0 <= r_cj r < ny g
  end.
Proof.
  intros Hnx Hny ci cj.
  assert (Hci : 0 <= ci - ci / nx g * nx g < nx g).
  { pose proof (Z.mod_pos_bound ci (nx g) Hnx).
    pose proof (Z.div_mod ci (nx g)). lia. }
  assert (Hcj : 0 <= cj - cj / ny g * ny g < ny g).
  { pose proof (Z.mod_pos_bound cj (ny g) Hny).
    pose proof (Z.div_mod cj (ny g)). lia. }
  unfold remap, step_div. fold (axis_index (ax g) (xsp g) x).
  fold (axis_index (ay g) (ysp g) y). fold ci cj.
  destruct ((ci <? 0) || (ci >=? nx g)) eqn:Ei;
    [apply range_test_true in Ei | apply range_test_false in Ei];
    (destruct ((cj <? 0) || (cj >=? ny g)) eqn:Ej;
     [apply range_test_true in Ej | apply range_test_false in Ej]);
    destruct (x_prd g), (y_prd g); simpl;
    try (left; split; [reflexivity|lia]);
    try (right; split; [reflexivity|lia]);
    repeat split; try discriminate; try lia.
Qed.

Lemma image_shift_cases (prd : bool) (a c d n : Z) :
  (prd = false -> image_shift prd a c d n = a) /\
  (0 <= c < n -> d = 0 -> image_shift prd a c d n = a).
Proof.
  unfold image_shift. split.
  - intros ->. reflexivity.
  - intros Hc ->. destruct prd; [|reflexivity]. cbv zeta.
    replace ((c + 0 <? 0) || (c + 0 >=? n)) with false; [reflexivity|].
    symmetry. apply range_test_false. lia.
Qed.


(** The unit square, periodic in both directions, as one block. *)
Definition periodic_block : container :=
  container_2d_new 0 1 0 1 1 1 true true 1.

(** A search that always names slot 0 of block 0, found one block column
    to the right of the query. *)
Definition first_slot (s : container) (x y : float) (ci cj ij : Z)
  : particle_record_2d :=
  {| w_ij := 0; w_l := 0; w_di := 1; w_dj := 0 |}.



(** * Further properties of the container code *)

(** ** Serial insertion into a block that a batch has overfilled *)

(** X1: between a batch of [put_parallel] calls that sent a block beyond its
    capacity and the next [put_reconcile_overflow], a serial [put] into that
    block (of either class) writes [id[ij][co[ij]]] outside the arrays of the
    block: [put_locate_block] only tests [co[ij]==mem[ij]]. *)
Theorem put_into_overfilled_block (s : container) (c : container_poly)
    (n : Z) (x y r : float) :
  (forall ij x' y' b,
     put_remap (geo s) x y = Some (ij, x', y') ->
     blk s ij = Some b -> block_ok b -> mem b < co b ->
     container_2d_put s n x y = Undefined) /\
  (forall ij x' y' b,
     put_remap (geo (con c)) x y = Some (ij, x', y') ->
     blk (con c) ij = Some b -> block_ok b -> mem b < co b ->
     container_poly_2d_put c n x y r = Undefined).
Proof.
  assert (H : forall s0 rest ij x' y' b,
             put_remap (geo s0) x y = Some (ij, x', y') ->
             blk s0 ij = Some b -> block_ok b -> mem b < co b ->
             put_coords s0 n x y rest = Undefined).
  { intros s0 rest ij x' y' b Hr Hb Hok Hlt.
    rewrite put_coords_unfold, Hr.
    apply get_block_Ok in Hb. rewrite Hb. cbn [obind].
    unfold block_put.
    replace (co b =? mem b) with false by (symmetry; apply Z.eqb_neq; lia).
    cbn [obind]. rewrite store_outside; [reflexivity|exact Hok|lia]. }
  split; intros ij x' y' b Hr Hb Hok Hlt.
  - unfold container_2d_put, outcome_map.
    rewrite (H s [] ij x' y' b Hr Hb Hok Hlt). reflexivity.
  - unfold container_poly_2d_put.
    rewrite (H (con c) [r] ij x' y' b Hr Hb Hok Hlt). reflexivity.
Qed.

(** Two calls of a batch on [one_block], then a serial put. *)
Lemma put_into_overfilled_block_witness :
  exists s, run_schedule [Reserve 7 0.5 0.5 []; Reserve 8 0.25 0.5 [];
                          Commit 0; Commit 0] (one_block, []) = Ok (s, []) /\
            container_2d_put s 9 0.75 0.5 = Undefined.
Proof.
  let t := eval vm_compute in
      (run_schedule [Reserve 7 0.5 0.5 []; Reserve 8 0.25 0.5 [];
                     Commit 0; Commit 0] (one_block, [])) in
  match t with Ok (?s, _) => pose (s0 := s) end.
  exists s0. split; [vm_compute; reflexivity|].
  destruct (put_into_overfilled_block s0 one_block_poly 9 0.75 0.5 0)
    as [H _].
  refine (H 0 0.75%float 0.5%float
            {| co := 2; mem := 1; id := [Some 7];
               p := [Some [0.5%float; 0.5%float]] |} _ _ _ _).
  - vm_compute. reflexivity.
  - vm_compute. reflexivity.
  - split; vm_compute; try reflexivity; discriminate.
  - vm_compute. reflexivity.
Defined.

(** ** Reconciliation with nothing to reconcile *)

Lemma fold_fmax_zeros (l : list float) (M : float) :
  radius_bound M -> (forall m, In m l -> m = 0%float) ->
  fold_left fmax l M = M.
Proof.
  intros HM. induction l as [|a l IH]; intros Hl; [reflexivity|].
  cbn [fold_left]. rewrite (Hl a (or_introl eq_refl)).
  replace (fmax M 0) with M.
  - apply IH. intros m Hm. apply Hl. right. exact Hm.
  - unfold fmax. destruct (M <? 0)%float eqn:E; [|reflexivity].
    destruct HM as [->|HM]; [reflexivity|].
    pose proof (ltb_trans _ _ _ HM E) as H. now rewrite ltb_irrefl in H.
Qed.

Lemma replicate_zeros (l : list float) :
  (forall m, In m l -> m = 0%float) -> replicate (length l) 0%float = l.
Proof.
  induction l as [|a l IH]; intros Hl; [reflexivity|].
  cbn [length replicate]. rewrite (Hl a (or_introl eq_refl)). f_equal.
  apply IH. intros m Hm. apply Hl. right. exact Hm.
Qed.

Lemma reconcile_noop (s : container) :
  overflowPtCt s = 0 -> put_reconcile_overflow s = Ok s.
Proof.
  intros Hc. unfold put_reconcile_overflow. rewrite Hc.
  replace (0 <=? alen (overflow s)) with true
    by (symmetry; apply Z.leb_le; unfold alen; lia).
  cbn [Z.to_nat take reconcile_loop obind]. destruct s; cbn in *.
  subst. reflexivity.
Qed.

Lemma poly_reconcile_noop (c : container_poly) :
  overflowPtCt (con c) = 0 ->
  (forall m, In m (max_r c) -> m = 0%float) ->
  radius_bound (max_radius c) ->
  container_poly_2d_put_reconcile_overflow c = Ok c.
Proof.
  intros Hc Hz Hb. unfold container_poly_2d_put_reconcile_overflow.
  rewrite (reconcile_noop _ Hc). cbn [obind].
  rewrite (fold_fmax_zeros _ _ Hb Hz), (replicate_zeros _ Hz).
  destruct c; reflexivity.
Qed.

(** X2: [put_reconcile_overflow] with an overflow count of 0 returns the
    container as it is, so a second call in a row changes nothing: every
    successful call leaves the count at 0, and keeps the overflow arrays and
    their capacity.  In the poly class the same holds once the per-thread
    maxima are 0 and [max_radius] is 0 or positive, as they are after a
    call. *)
Theorem reconcile_nothing_pending :
  (forall s, overflowPtCt s = 0 -> put_reconcile_overflow s = Ok s) /\
  (forall s s', put_reconcile_overflow s = Ok s' ->
     overflowPtCt s' = 0 /\ overflow s' = overflow s /\
     overflow_mem_numPt s' = overflow_mem_numPt s /\ geo s' = geo s /\
     put_reconcile_overflow s' = Ok s') /\
  (forall c, overflowPtCt (con c) = 0 ->
     (forall m, In m (max_r c) -> m = 0%float) ->
     radius_bound (max_radius c) ->
     container_poly_2d_put_reconcile_overflow c = Ok c) /\
  (forall c c', radius_bound (max_radius c) ->
     container_poly_2d_put_reconcile_overflow c = Ok c' ->
     container_poly_2d_put_reconcile_overflow c' = Ok c').
Proof.
  pose proof reconcile_noop as H0.
  assert (H1 : forall s s', put_reconcile_overflow s = Ok s' ->
            overflowPtCt s' = 0 /\ overflow s' = overflow s /\
            overflow_mem_numPt s' = overflow_mem_numPt s /\ geo s' = geo s).
  { intros s s' H. unfold put_reconcile_overflow in H.
    destruct (overflowPtCt s <=? alen (overflow s)); [|discriminate].
    destruct (reconcile_loop _ _) as [bs| | |]; try discriminate.
    cbn [obind] in H. injection H as <-. repeat split. }
  pose proof poly_reconcile_noop as H2.
  split; [exact H0|]. split; [|split; [exact H2|]].
  - intros s s' H. destruct (H1 s s' H) as (Hc & Ho & Hm & Hg).
    repeat (split; [assumption|]). apply H0. exact Hc.
  - intros c c' Hb H. pose proof H as H'.
    unfold container_poly_2d_put_reconcile_overflow in H.
    destruct (put_reconcile_overflow (con c)) as [s'| | |] eqn:E;
      try discriminate.
    cbn [obind] in H. injection H as <-. apply H2; cbn [con max_r max_radius].
    + apply (H1 _ _ E).
    + intros m Hm. apply list_elem_of_In, elem_of_replicate in Hm as [-> _].
      reflexivity.
    + apply fold_fmax_top. exact Hb.
Qed.

Lemma reconcile_nothing_pending_witness :
  container_poly_2d_put_reconcile_overflow one_block_poly = Ok one_block_poly.
Proof.
  destruct reconcile_nothing_pending as (_ & _ & H & _).
  apply H.
  - reflexivity.
  - intros m [<-|[]]. reflexivity.
  - left. reflexivity.
Defined.

(** ** Capacity after insertion *)

Lemma least_doubling (a c m : Z) (j : nat) :
  1 <= a -> m = a * 2 ^ Z.of_nat j -> c <= m ->
  m = a \/ m <= 2 * (c - 1) ->
  exists j0 : nat, m = a * 2 ^ Z.of_nat j0 /\
    forall j' : nat, c <= a * 2 ^ Z.of_nat j' -> (j0 <= j')%nat.
Proof.
  intros Ha Hm Hc [Heq|Hle].
  - exists 0%nat. split; [change (2 ^ Z.of_nat 0) with 1; lia|intros; lia].
  - exists j. split; [exact Hm|]. intros j' Hj'.
    destruct (le_lt_dec j j') as [H|H]; [exact H|exfalso].
    assert (Hlt : a * 2 ^ Z.of_nat j' < a * 2 ^ Z.of_nat j).
    { apply Z.mul_lt_mono_pos_l; [lia|].
      apply Z.pow_lt_mono_r; lia. }
    pose proof (chain_lt_double a j' j Ha Hlt). lia.
Qed.

(** X3: after a run of serial puts, and after a whole batch followed by
    [put_reconcile_overflow], the capacity of every block is its former
    capacity doubled the least number of times that makes room for its new
    count; a block whose count still fits is not reallocated. *)
Theorem capacity_least_doubling (s : container) :
  wf s ->
  (forall cs s', serial_puts s cs = Ok s' ->
     forall ij b0, blk s ij = Some b0 ->
       exists b' (j : nat), blk s' ij = Some b' /\
         co b' = co b0 + Z.of_nat (length (routed (geo s) ij cs)) /\
         co b' <= mem b' /\ mem b' = mem b0 * 2 ^ Z.of_nat j /\
         forall j' : nat, co b' <= mem b0 * 2 ^ Z.of_nat j' -> (j <= j')%nat) /\
  (forall sched s', complete (geo s) sched ->
     parallel_round s sched = Ok s' ->
     forall ij b0, blk s ij = Some b0 ->
       exists b' (j : nat), blk s' ij = Some b' /\
         co b' = co b0
                 + Z.of_nat (length (routed (geo s) ij (calls_of sched))) /\
         co b' <= mem b' /\ mem b' = mem b0 * 2 ^ Z.of_nat j /\
         forall j' : nat, co b' <= mem b0 * 2 ^ Z.of_nat j' -> (j <= j')%nat).
Proof.
  intros Hwf.
  assert (Hgen : forall s' (l : list (Z * list float)) ij b0,
            wf s' -> blk s ij = Some b0 ->
            (exists b', blk s' ij = Some b' /\
               co b' = co b0 + Z.of_nat (length l) /\
               entries b' = entries b0 ++ (Some <$> l) /\
               (exists j : nat, mem b' = mem b0 * 2 ^ Z.of_nat j) /\
               (mem b' = mem b0 \/
                (mem b' <= max_particle_memory /\ mem b' <= 2 * (co b' - 1)))) ->
            exists b' (j : nat), blk s' ij = Some b' /\
              co b' = co b0 + Z.of_nat (length l) /\
              co b' <= mem b' /\ mem b' = mem b0 * 2 ^ Z.of_nat j /\
              forall j' : nat, co b' <= mem b0 * 2 ^ Z.of_nat j' -> (j <= j')%nat).
  { intros s' l ij b0 Hwf' Hb0 (b' & Hb' & Hco & _ & (j & Hj) & Hm).
    destruct (wf_blocks _ Hwf ij b0 Hb0) as [Hok0 _].
    destruct (wf_blocks _ Hwf' ij b' Hb') as [_ Hle].
    destruct (least_doubling (mem b0) (co b') (mem b') j (ok_mem _ Hok0) Hj Hle)
      as (j0 & Hj0 & Hleast); [tauto|].
    exists b', j0. repeat (split; [assumption|]). exact Hleast. }
  split.
  - intros cs s' Hrun ij b0 Hb0.
    destruct (serial_puts_spec cs s Hwf) as [_ Hok].
    destruct (Hok s' Hrun) as (Hwf' & _ & _ & Hblocks).
    apply Hgen; [assumption..|]. apply Hblocks. exact Hb0.
  - intros sched s' Hc Hrun ij b0 Hb0.
    destruct (complete_batch s sched Hwf Hc) as (s1 & L & Hrun1 & Hinv).
    unfold parallel_round in Hrun. rewrite Hrun1 in Hrun.
    cbn [obind fst] in Hrun.
    destruct (round_reconcile _ _ _ _ Hinv) as [_ Hok].
    destruct (Hok s' Hrun) as (Hwf' & _ & _ & Hblocks).
    apply Hgen; [assumption..|]. apply Hblocks. exact Hb0.
Qed.

(** Three particles put into [one_block]: the capacity goes from 1 to 4. *)
Lemma capacity_least_doubling_witness :
  exists s' b', serial_puts one_block
                  [{| c_id := 1; c_x := 0.5; c_y := 0.5; c_rest := [] |};
                   {| c_id := 2; c_x := 0.25; c_y := 0.5; c_rest := [] |};
                   {| c_id := 3; c_x := 0.75; c_y := 0.5; c_rest := [] |}]
                = Ok s' /\
    blk s' 0 = Some b' /\ co b' = 3 /\ mem b' = 4.
Proof.
  destruct (serial_puts one_block _) as [s'| | |] eqn:E;
    try (vm_compute in E; discriminate).
  exists s'.
  destruct (capacity_least_doubling one_block) as [H _].
  { apply new_container_wf; lia. }
  destruct (H _ s' E 0 (new_block 1) eq_refl) as (b' & j & Hb & Hco & _ & Hm & _).
  exists b'. split; [reflexivity|]. split; [exact Hb|].
  vm_compute in E. injection E as <-. vm_compute in Hb. injection Hb as <-.
  split; reflexivity.
Defined.

(** ** Slot order *)

Lemma entries_app_slot (b' b0 : block) (l : list (Z * list float)) (k : nat)
    (e : Z * list float) :
  0 <= co b0 -> entries b' = entries b0 ++ (Some <$> l) ->
  l !! k = Some e -> slot b' (co b0 + Z.of_nat k) = Some e.
Proof.
  intros Hco He Hk.
  pose proof (f_equal (fun t => t !! (Z.to_nat (co b0) + k)%nat) He) as H.
  cbn beta in H.
  rewrite lookup_app_r in H by (rewrite length_entries; lia).
  rewrite length_entries in H.
  replace (Z.to_nat (co b0) + k - Z.to_nat (co b0))%nat with k in H by lia.
  rewrite list_lookup_fmap, Hk in H. cbn in H.
  rewrite entries_lookup in H.
  destruct (decide _) as [_|_]; [|discriminate].
  injection H as H. rewrite <- H. f_equal. lia.
Qed.

(** X4: the slots of a block follow the order of the calls.  After a run of
    serial puts the k-th accepted particle sent to a block sits k slots after
    the former count.  After a whole batch and [put_reconcile_overflow] the
    same holds for the order in which the calls did their atomic increment
    [m=co[ij]++], whatever the order in which they then wrote. *)
Theorem slots_follow_call_order (s : container) :
  wf s ->
  (forall cs s', serial_puts s cs = Ok s' ->
     forall ij b0, blk s ij = Some b0 ->
       exists b', blk s' ij = Some b' /\
         entries b' = entries b0 ++ (Some <$> routed (geo s) ij cs) /\
         forall (k : nat) e, routed (geo s) ij cs !! k = Some e ->
           slot b' (co b0 + Z.of_nat k) = Some e) /\
  (forall sched s', complete (geo s) sched ->
     parallel_round s sched = Ok s' ->
     forall ij b0, blk s ij = Some b0 ->
       exists b', blk s' ij = Some b' /\
         entries b' = entries b0
                      ++ (Some <$> routed (geo s) ij (calls_of sched)) /\
         forall (k : nat) e, routed (geo s) ij (calls_of sched) !! k = Some e ->
           slot b' (co b0 + Z.of_nat k) = Some e).
Proof.
  intros Hwf. split.
  - intros cs s' Hrun ij b0 Hb0.
    destruct (serial_puts_spec cs s Hwf) as [_ Hok].
    destruct (Hok s' Hrun) as (_ & _ & _ & Hblocks).
    destruct (Hblocks ij b0 Hb0) as (b' & Hb' & _ & He & _).
    exists b'. split; [exact Hb'|]. split; [exact He|].
    intros k e Hk. eapply entries_app_slot; [|exact He|exact Hk].
    apply (ok_co _ (proj1 (wf_blocks _ Hwf ij b0 Hb0))).
  - intros sched s' Hc Hrun ij b0 Hb0.
    destruct (complete_batch s sched Hwf Hc) as (s1 & L & Hrun1 & Hinv).
    unfold parallel_round in Hrun. rewrite Hrun1 in Hrun.
    cbn [obind fst] in Hrun.
    destruct (round_reconcile _ _ _ _ Hinv) as [_ Hok].
    destruct (Hok s' Hrun) as (_ & _ & _ & Hblocks).
    destruct (Hblocks ij b0 Hb0) as (b' & Hb' & _ & He & _).
    exists b'. split; [exact Hb'|]. split; [exact He|].
    intros k e Hk. eapply entries_app_slot; [|exact He|exact Hk].
    apply (ok_co _ (proj1 (wf_blocks _ Hwf ij b0 Hb0))).
Qed.

(** The call with id 8 increments first and writes last: it holds slot 0. *)
Lemma slots_follow_call_order_witness :
  exists s' b',
    parallel_round one_block
      [Reserve 8 0.25 0.5 []; Reserve 7 0.5 0.5 []; Commit 1; Commit 0]
    = Ok s' /\
    blk s' 0 = Some b' /\
    slot b' 0 = Some (8, [0.25%float; 0.5%float]) /\
    slot b' 1 = Some (7, [0.5%float; 0.5%float]).
Proof.
  destruct (parallel_round one_block _) as [s'| | |] eqn:E;
    try (vm_compute in E; discriminate).
  exists s'.
  destruct (slots_follow_call_order one_block) as [_ H].
  { apply new_container_wf; lia. }
  destruct (H [Reserve 8 0.25 0.5 []; Reserve 7 0.5 0.5 []; Commit 1;
                Commit 0] s' eq_refl E 0 (new_block 1) eq_refl)
    as (b' & Hb & _ & Hs).
  exists b'. split; [reflexivity|]. split; [exact Hb|]. split.
  - apply (Hs 0%nat). vm_compute. reflexivity.
  - apply (Hs 1%nat). vm_compute. reflexivity.
Defined.

(** ** The two remapping routines *)

(** X5: [remap], used by the point queries, and [put_remap], used by the
    insertions, accept the same positions and send an accepted position to
    the same block; on an axis that is not periodic both leave the
    coordinate as it is. *)
Theorem remap_agrees_with_put_remap (g : geometry) (x y : float) :
  0 < nx g -> 0 < ny g ->
  (put_remap g x y = None <-> remap g x y = None) /\
  (forall ij x' y' r,
     put_remap g x y = Some (ij, x', y') -> remap g x y = Some r ->
     r_ij r = ij /\
     r_ci r = ij mod nx g /\ r_cj r = ij / nx g /\
     (x_prd g = false -> x' = x /\ r_x r = x) /\
     (y_prd g = false -> y' = y /\ r_y r = y)).
Proof.
  intros Hnx Hny. rewrite put_remap_cases. cbv zeta.
  unfold remap, step_div. fold (axis_index (ax g) (xsp g) x).
  fold (axis_index (ay g) (ysp g) y).
  set (ci := axis_index (ax g) (xsp g) x).
  set (cj := axis_index (ay g) (ysp g) y).
  pose proof (Z.mod_pos_bound ci (nx g) Hnx) as Hi.
  pose proof (Z.mod_pos_bound cj (ny g) Hny) as Hj.
  pose proof (Z.mod_eq ci (nx g) ltac:(lia)) as Ei.
  pose proof (Z.mod_eq cj (ny g) ltac:(lia)) as Ej.
  assert (Hdm : forall a b, 0 <= a < nx g ->
            (a + nx g * b) mod nx g = a /\ (a + nx g * b) / nx g = b).
  { intros a b Ha. split.
    - rewrite Z.mul_comm, Z.mod_add by lia. apply Z.mod_small. exact Ha.
    - rewrite Z.mul_comm, Z.div_add by lia. rewrite Z.div_small by exact Ha.
      reflexivity. }
  destruct ((ci <? 0) || (ci >=? nx g)) eqn:Ti;
    [apply range_test_true in Ti | apply range_test_false in Ti];
    (destruct ((cj <? 0) || (cj >=? ny g)) eqn:Tj;
     [apply range_test_true in Tj | apply range_test_false in Tj]);
    destruct (x_prd g), (y_prd g); cbn [negb andb];
    (split; [split; intros H; (discriminate || reflexivity)|]);
    intros ij x' y' r H1 H2; try discriminate;
    injection H1 as <- <- <-; injection H2 as <-;
    cbn [r_ij r_ci r_cj r_x r_y];
    rewrite ?(Z.mod_small ci (nx g)), ?(Z.mod_small cj (ny g)) by lia;
    repeat match goal with
           | |- context [(?a + nx g * ?b) mod nx g] =>
             rewrite (proj1 (Hdm a b ltac:(lia)))
           | |- context [(?a + nx g * ?b) / nx g] =>
             rewrite (proj2 (Hdm a b ltac:(lia)))
           end;
    repeat split; try discriminate; try lia.
Qed.

Lemma remap_agrees_with_put_remap_witness :
  exists r, remap (mk_geometry 0 1 0 1 4 4 true false) 1.5 0.5 = Some r /\
            r_ij r = 10 /\ r_ci r = 2 /\ r_cj r = 2.
Proof.
  destruct (remap (mk_geometry 0 1 0 1 4 4 true false) 1.5 0.5) as [r|] eqn:E;
    [|vm_compute in E; discriminate].
  exists r. split; [reflexivity|].
  destruct (remap_agrees_with_put_remap
              (mk_geometry 0 1 0 1 4 4 true false) 1.5 0.5) as [_ H].
  - reflexivity.
  - reflexivity.
  - destruct (H 10 0.5%float 0.5%float r) as (H1 & H2 & H3 & _).
    + vm_compute. reflexivity.
    + exact E.
    + split; [exact H1|]. split; [exact H2|exact H3].
Defined.

(** ** The domain test *)

Lemma SFleb_not_lt (a b : spec_float) :
  SFleb b a = true -> SFltb a b = false.
Proof.
  destruct a as [[]|[]| |[] ma ea], b as [[]|[]| |[] mb eb]; intros H;
    cbn [SFltb SFleb SFcompare CompOpp] in *; try discriminate;
    try reflexivity;
    sf_compare; cbn [CompOpp] in *; subst; try discriminate;
    try reflexivity; try lia.
Qed.

Lemma not_ltb_iff_leb (a b : float) :
  is_number a -> is_number b ->
  (a <? b)%float = false <-> (b <=? a)%float = true.
Proof.
  intros Ha Hb. split.
  - apply leb_of_not_ltb; assumption.
  - rewrite ltb_spec, leb_spec. apply SFleb_not_lt.
Qed.

Lemma ltb_nan (a b : float) :
  ~ is_number a -> (a <? b)%float = false /\ (b <? a)%float = false.
Proof.
  intros Ha. rewrite !ltb_spec.
  assert (E : Prim2SF a = S754_nan).
  { destruct (Prim2SF a) eqn:E; try reflexivity; exfalso; apply Ha;
      unfold is_number; rewrite E; discriminate. }
  rewrite E. split; [reflexivity|].
  destruct (Prim2SF b) as [[]|[]| |[] m e]; reflexivity.
Qed.

(** X6: [point_inside], in a container without walls, accepts exactly the
    closed rectangle [ax,bx] x [ay,by], its four faces included; every
    comparison with a NaN is false, so a position whose coordinates are both
    NaN is reported as inside. *)
Theorem point_inside_closed_box (g : geometry) (x y : float) :
  (is_number (ax g) -> is_number (bx g) -> is_number (ay g) ->
   is_number (by_ g) -> is_number x -> is_number y ->
   (point_inside g x y = true <->
    (ax g <=? x)%float = true /\ (x <=? bx g)%float = true /\
    (ay g <=? y)%float = true /\ (y <=? by_ g)%float = true)) /\
  (~ is_number x -> ~ is_number y -> point_inside g x y = true).
Proof.
  split.
  - intros Hax Hbx Hay Hby Hx Hy.
    rewrite <- (not_ltb_iff_leb x (ax g) Hx Hax).
    rewrite <- (not_ltb_iff_leb (bx g) x Hbx Hx).
    rewrite <- (not_ltb_iff_leb y (ay g) Hy Hay).
    rewrite <- (not_ltb_iff_leb (by_ g) y Hby Hy).
    unfold point_inside.
    destruct (x <? ax g)%float, (bx g <? x)%float, (y <? ay g)%float,
      (by_ g <? y)%float; cbn; intuition congruence.
  - intros Hx Hy. unfold point_inside.
    rewrite (proj1 (ltb_nan x (ax g) Hx)), (proj2 (ltb_nan x (bx g) Hx)).
    rewrite (proj1 (ltb_nan y (ay g) Hy)), (proj2 (ltb_nan y (by_ g) Hy)).
    reflexivity.
Qed.

(** The corner (bx,by) of the unit square. *)
Lemma point_inside_closed_box_witness :
  point_inside (mk_geometry 0 1 0 1 4 4 false false) 1 1 = true.
Proof.
  destruct (point_inside_closed_box (mk_geometry 0 1 0 1 4 4 false false) 1 1)
    as [H _].
  apply H; try (vm_compute; discriminate).
  repeat split; vm_compute; reflexivity.
Defined.

(** ** Printing a vector of positions ([common_2d.hh]) *)

(** [v[k]] of a [std::vector<double>]: outside the vector the read is
    undefined. *)
Definition vec_get (v : list float) (k : Z) : outcome float :=
  match (if 0 <=? k then v !! Z.to_nat k else None) with
  | Some a => Ok a
  | None => Undefined
  end.

(** The positions of a vector, two entries each; a last entry without a
    partner is left out. *)
Fixpoint pair_up (v : list float) : list (float * float) :=
  match v with
  | a :: b :: v' => (a, b) :: pair_up v'
  | _ => []
  end.

Definition flatten (ps : list (float * float)) : list float :=
  flat_map (fun ab => [fst ab; snd ab]) ps.

Lemma pair_up_flatten (ps : list (float * float)) : pair_up (flatten ps) = ps.
Proof.
  induction ps as [|[a b] ps IH]; [reflexivity|].
  cbn [flatten flat_map fst snd app pair_up]. fold (flatten ps).
  rewrite IH. reflexivity.
Qed.

Lemma vec_get_app (pre rest : list float) (a : float) (k : nat) :
  rest !! k = Some a ->
  vec_get (pre ++ rest) (Z.of_nat (length pre) + Z.of_nat k) = Ok a.
Proof.
  intros H. unfold vec_get.
  replace (0 <=? Z.of_nat (length pre) + Z.of_nat k) with true
    by (symmetry; apply Z.leb_le; lia).
  replace (Z.to_nat (Z.of_nat (length pre) + Z.of_nat k))
    with (length pre + k)%nat by lia.
  rewrite lookup_app_r by lia.
  replace (length pre + k - length pre)%nat with k by lia.
  rewrite H. reflexivity.
Qed.

Lemma vec_get_end (v : list float) :
  vec_get v (Z.of_nat (length v)) = Undefined.
Proof.
  unfold vec_get.
  replace (0 <=? Z.of_nat (length v)) with true
    by (symmetry; apply Z.leb_le; lia).
  rewrite Nat2Z.id, lookup_ge_None_2 by lia. reflexivity.
Qed.

Section PrintPositions.

(** The characters that the [%g] conversion of [fprintf] writes for a
    double (six significant digits by default, so that different doubles
    can give the same characters).  The conversion belongs to the C library:
    it is a parameter. *)
Variable text : Type.
Variable format_g : float -> text.

(** What [voro_print_positions_2d] sends to the stream: the characters of
    one [(%g,%g)] conversion, or the blank that separates two of them. *)
Inductive token : Type :=
| Pair (a b : text)
| Blank.

(** [for(...;(unsigned int) k<v.size();k+=2) fprintf(fp," (%g,%g)",v[k],v[k+1]);]
    for vectors of fewer than 2^31 entries. *)
Fixpoint print_pairs_from (fuel : nat) (v : list float) (k : Z)
  : outcome (list token) :=
  if k <? Z.of_nat (length v) then
    match fuel with
    | O => Diverges
    | S f =>
      a <-- vec_get v k ;;
      b <-- vec_get v (k + 1) ;;
      rest <-- print_pairs_from f v (k + 2) ;;
      Ok (Blank :: Pair (format_g a) (format_g b) :: rest)
    end
  else Ok [].

(** [voro_print_positions_2d(v,fp)] *)
Definition voro_print_positions_2d (v : list float) : outcome (list token) :=
  if 0 <? Z.of_nat (length v) then
    a <-- vec_get v 0 ;;
    b <-- vec_get v 1 ;;
    rest <-- print_pairs_from (length v) v 2 ;;
    Ok (Pair (format_g a) (format_g b) :: rest)
  else Ok [].

(** The pairs, each with a blank before it. *)
Definition blank_before (ps : list (float * float)) : list token :=
  flat_map (fun ab => [Blank; Pair (format_g (fst ab)) (format_g (snd ab))])
           ps.

(** The loop from an even index on: the pairs of the rest of the vector when
    an even number of entries is left, a read beyond the end otherwise. *)
Lemma print_pairs_from_spec (n : nat) :
  forall fuel pre rest,
  (length rest <= fuel)%nat ->
  (length rest = 2 * n ->
   exists ps, flatten ps = rest /\
     print_pairs_from fuel (pre ++ rest) (Z.of_nat (length pre))
     = Ok (blank_before ps))%nat /\
  (length rest = 2 * n + 1 ->
   print_pairs_from fuel (pre ++ rest) (Z.of_nat (length pre)) = Undefined)%nat.
Proof.
  induction n as [|n IH]; intros fuel pre rest Hfuel.
  - split; intros Hlen.
    + destruct rest; [|discriminate]. exists []. split; [reflexivity|].
      rewrite app_nil_r. destruct fuel; cbn [print_pairs_from];
        rewrite (proj2 (Z.ltb_ge _ _)) by lia; reflexivity.
    + destruct rest as [|a [|b rest]]; try discriminate.
      destruct fuel as [|fuel]; [cbn in Hfuel; lia|].
      cbn [print_pairs_from].
      rewrite (proj2 (Z.ltb_lt _ _)) by (rewrite length_app; cbn; lia).
      pose proof (vec_get_app pre [a] a 0 eq_refl) as Ha.
      rewrite Z.add_0_r in Ha. rewrite Ha. cbn [obind].
      replace (Z.of_nat (length pre) + 1)
        with (Z.of_nat (length (pre ++ [a]))) by (rewrite length_app; cbn; lia).
      rewrite vec_get_end. reflexivity.
  - assert (Hstep : forall a b rest',
              rest = a :: b :: rest' ->
              print_pairs_from fuel (pre ++ rest) (Z.of_nat (length pre))
              = (r <-- print_pairs_from (pred fuel)
                         ((pre ++ [a; b]) ++ rest')
                         (Z.of_nat (length (pre ++ [a; b]))) ;;
                 Ok (Blank :: Pair (format_g a) (format_g b) :: r))).
    { intros a b rest' ->. destruct fuel as [|fuel]; [cbn in Hfuel; lia|].
      cbn [print_pairs_from pred].
      rewrite (proj2 (Z.ltb_lt _ _)) by (rewrite length_app; cbn; lia).
      pose proof (vec_get_app pre (a :: b :: rest') a 0 eq_refl) as Ha.
      rewrite Z.add_0_r in Ha. rewrite Ha. cbn [obind].
      pose proof (vec_get_app pre (a :: b :: rest') b 1 eq_refl) as Hb.
      change (Z.of_nat 1) with 1 in Hb. rewrite Hb. cbn [obind].
      rewrite <- app_assoc. cbn [app].
      replace (Z.of_nat (length pre) + 2)
        with (Z.of_nat (length (pre ++ [a; b])))
        by (rewrite length_app; cbn; lia).
      reflexivity. }
    split; intros Hlen; destruct rest as [|a [|b rest']];
      try (cbn in Hlen; lia); rewrite (Hstep a b rest' eq_refl);
      cbn in Hlen, Hfuel;
      destruct (IH (pred fuel) (pre ++ [a; b]) rest' ltac:(lia)) as [He Ho].
    + destruct (He ltac:(lia)) as (ps & Hps & ->). cbn [obind].
      exists ((a, b) :: ps). split; [rewrite <- Hps|]; reflexivity.
    + rewrite (Ho ltac:(lia)). reflexivity.
Qed.

(** X7: [voro_print_positions_2d] prints nothing for an empty vector; for a
    vector of an even number of entries it prints the [%g] conversions of
    the entries two by two, in the order of the vector, each pair but the
    first with a blank before it and no blank at the end; for a vector of an
    odd number of entries it reads [v[k+1]] one entry beyond the end. *)
Theorem voro_print_positions_2d_spec (v : list float) :
  (v = [] -> voro_print_positions_2d v = Ok []) /\
  (Nat.Even (length v) ->
   voro_print_positions_2d v = Ok (drop 1 (blank_before (pair_up v)))) /\
  (Nat.Odd (length v) -> voro_print_positions_2d v = Undefined).
Proof.
  split; [intros ->; reflexivity|]. split.
  - intros [n Hn]. destruct v as [|a [|b rest]].
    + reflexivity.
    + cbn in Hn. lia.
    + destruct n as [|n]; [cbn in Hn; lia|].
      destruct (print_pairs_from_spec n (length (a :: b :: rest)) [a; b] rest)
        as [He _]; [cbn; lia|].
      destruct He as (ps & Hps & Hrun); [cbn in Hn; lia|].
      unfold voro_print_positions_2d.
      rewrite (proj2 (Z.ltb_lt _ _)) by (cbn [length]; lia).
      change (vec_get (a :: b :: rest) 0) with (Ok a).
      change (vec_get (a :: b :: rest) 1) with (Ok b).
      cbn [obind]. change (a :: b :: rest) with ([a; b] ++ rest) at 2.
      change 2 with (Z.of_nat (length [a; b])). rewrite Hrun.
      cbn [obind pair_up app]. rewrite <- Hps, pair_up_flatten. reflexivity.
  - intros [n Hn]. destruct v as [|a [|b rest]].
    + cbn in Hn. lia.
    + reflexivity.
    + destruct n as [|n]; [cbn in Hn; lia|].
      destruct (print_pairs_from_spec n (length (a :: b :: rest)) [a; b] rest)
        as [_ Ho]; [cbn; lia|].
      unfold voro_print_positions_2d.
      rewrite (proj2 (Z.ltb_lt _ _)) by (cbn [length]; lia).
      change (vec_get (a :: b :: rest) 0) with (Ok a).
      change (vec_get (a :: b :: rest) 1) with (Ok b).
      cbn [obind]. change (a :: b :: rest) with ([a; b] ++ rest) at 2.
      change 2 with (Z.of_nat (length [a; b])). rewrite Ho; [reflexivity|].
      cbn in Hn. lia.
Qed.

End PrintPositions.

Arguments Pair {text} a b.
Arguments Blank {text}.

(** With a conversion that keeps the integer part only. *)
Lemma voro_print_positions_2d_spec_witness :
  voro_print_positions_2d Z step_int [1.5; 2.25; 3.5; 4.75]%float
  = Ok [Pair 1 2; Blank; Pair 3 4] /\
  voro_print_positions_2d Z step_int [1.5; 2.25; 3.5]%float = Undefined.
Proof.
  destruct (voro_print_positions_2d_spec Z step_int
              [1.5; 2.25; 3.5; 4.75]%float) as (_ & H & _).
  destruct (voro_print_positions_2d_spec Z step_int
              [1.5; 2.25; 3.5]%float) as (_ & _ & H').
  split.
  - rewrite H; [vm_compute; reflexivity|exists 2%nat; reflexivity].
  - apply H'. exists 1%nat. reflexivity.
Defined.

(** ** Changing the number of threads *)

(** [container_poly_2d::change_number_thread(number_thread)], for
    [number_thread >= 1]: the per-thread maxima are a new array of
    [number_thread] cells, each set to 0 by its thread; the searchers [vc]
    are not part of the model. *)
Definition container_poly_2d_change_number_thread (c : container_poly)
    (number_thread : Z) : container_poly :=
  {| con := con c;
     max_r := replicate (Z.to_nat number_thread) 0%float;
     max_radius := max_radius c |}.

(** X8: [change_number_thread] of the poly class keeps the storage and
    [max_radius] and zeroes the per-thread maxima without folding them into
    [max_radius].  On a reconciled state nothing is lost and the state stays
    one in which [max_radius] bounds the stored radii; between a batch and
    its [put_reconcile_overflow] the maxima of the batch are dropped, and the
    reconciliation then returns the old [max_radius], which can be below a
    stored radius. *)
Theorem change_number_thread_drops_maxima :
  (forall c n, 1 <= n -> poly_inv c ->
     poly_inv (container_poly_2d_change_number_thread c n) /\
     length (max_r (container_poly_2d_change_number_thread c n))
     = Z.to_nat n) /\
  (forall c n c', 1 <= n -> radius_bound (max_radius c) ->
     container_poly_2d_put_reconcile_overflow
       (container_poly_2d_change_number_thread c n) = Ok c' ->
     max_radius c' = max_radius c) /\
  (exists c1 c2,
     poly_run_schedule [PReserve 0 7 0.5 0.5 0.25; PCommit 0]
                       (one_block_poly, []) = Ok (c1, []) /\
     container_poly_2d_put_reconcile_overflow
       (container_poly_2d_change_number_thread c1 1) = Ok c2 /\
     stored_radius c2 0.25 /\ max_radius c2 = 0%float /\
     (max_radius c2 <? 0.25)%float = true).
Proof.
  split; [|split].
  - intros c n Hn [[Hwf Hmr Hmax] Hent].
    split; [|apply length_replicate].
    split; [split|]; try assumption.
    cbn [max_r container_poly_2d_change_number_thread]. intros m Hm.
    apply list_elem_of_In, elem_of_replicate in Hm as [-> _]. reflexivity.
  - intros c n c' Hn Hb H.
    unfold container_poly_2d_put_reconcile_overflow in H.
    cbn [con max_r max_radius container_poly_2d_change_number_thread] in H.
    destruct (put_reconcile_overflow (con c)) as [s| | |]; try discriminate.
    cbn [obind] in H. injection H as <-. cbn [max_radius].
    apply fold_fmax_zeros; [exact Hb|].
    intros m Hm. apply list_elem_of_In, elem_of_replicate in Hm as [-> _].
    reflexivity.
  - let t := eval vm_compute in
        (poly_run_schedule [PReserve 0 7 0.5 0.5 0.25; PCommit 0]
                           (one_block_poly, [])) in
    match t with Ok (?c, _) => pose (c1 := c) end.
    let t := eval vm_compute in
        (container_poly_2d_put_reconcile_overflow
           (container_poly_2d_change_number_thread c1 1)) in
    match t with Ok ?c => pose (c2 := c) end.
    exists c1, c2. split; [vm_compute; reflexivity|].
    split; [vm_compute; reflexivity|]. split; [|split; reflexivity].
    eexists 0, _, 0, 7, 0.5%float, 0.5%float.
    split; [reflexivity|]. split; [cbn; lia|reflexivity].
Qed.

Lemma change_number_thread_drops_maxima_witness :
  poly_inv (container_poly_2d_change_number_thread one_block_poly 4) /\
  exists c',
    container_poly_2d_put_reconcile_overflow
      (container_poly_2d_change_number_thread one_block_poly 4) = Ok c' /\
    max_radius c' = 0%float.
Proof.
  destruct change_number_thread_drops_maxima as (H1 & H2 & _). split.
  - apply H1; [lia|]. apply poly_inv_new; lia.
  - destruct (container_poly_2d_put_reconcile_overflow
                (container_poly_2d_change_number_thread one_block_poly 4))
      as [c'| | |] eqn:E; try (vm_compute in E; discriminate).
    exists c'. split; [reflexivity|].
    apply (H2 one_block_poly 4 c'); [lia|left; reflexivity|exact E].
Defined.

(** ** Insertion with an ordering record *)

(** Modelled from the spec: [particle_order] is declared in a header that is
    not part of this development; the spec gives it as a growable list of
    (block, slot) pairs whose only operation used here, [add], appends. *)
Definition particle_order : Type := list (Z * Z).

Definition particle_order_add (vo : particle_order) (ijk q : Z)
  : particle_order := vo ++ [(ijk, q)].

(** The body shared by [container_2d::put(vo,n,x,y)] and
    [container_poly_2d::put(vo,n,x,y,r)]: the body of [put] with
    [vo.add(ij,co[ij])] before the count is incremented. *)
Definition put_coords_order (vo : particle_order) (s : container) (n : Z)
    (x y : float) (rest : list float)
  : outcome (particle_order * container * bool) :=
  r <-- put_locate_block s x y ;;
  match r with
  | Some (s', ij, x, y) =>
    b <-- get_block (blocks s') ij ;;
    b' <-- store b (co b) n (x :: y :: rest) ;;
    Ok (particle_order_add vo ij (co b),
        set_blocks s' (put_block (blocks s') ij (set_co b' (co b + 1))), true)
  | None => Ok (vo, s, false)
  end.

(** [container_2d::put(vo,n,x,y)] *)
Definition container_2d_put_order (vo : particle_order) (s : container)
    (n : Z) (x y : float) : outcome (particle_order * container) :=
  outcome_map fst (put_coords_order vo s n x y []).

(** [container_poly_2d::put(vo,n,x,y,r)] *)
Definition container_poly_2d_put_order (vo : particle_order)
    (c : container_poly) (n : Z) (x y r : float)
  : outcome (particle_order * container_poly) :=
  vsa <-- put_coords_order vo (con c) n x y [r] ;;
  Ok (fst (fst vsa),
      {| con := snd (fst vsa); max_r := max_r c;
         max_radius := if snd vsa then fmax (max_radius c) r
                       else max_radius c |}).

(** The calls inserted one after the other with the ordered [put]. *)
Fixpoint serial_puts_order (vo : particle_order) (s : container)
    (cs : list call) : outcome (particle_order * container) :=
  match cs with
  | [] => Ok (vo, s)
  | c :: cs' =>
    vsa <-- put_coords_order vo s (c_id c) (c_x c) (c_y c) (c_rest c) ;;
    serial_puts_order (fst (fst vsa)) (snd (fst vsa)) cs'
  end.

(** Slot [q] of block [ij] is in use and holds particle [e]. *)
Definition located (s : container) (ij q : Z) (e : Z * list float) : Prop :=
  exists b, blk s ij = Some b /\ 0 <= q < co b /\ slot b q = Some e.

(** The ordered put is the plain put with one record added on acceptance. *)
Lemma put_coords_order_unfold (vo : particle_order) (s : container) (n : Z)
    (x y : float) (rest : list float) :
  put_coords_order vo s n x y rest =
  (sa <-- put_coords s n x y rest ;;
   Ok (match put_remap (geo s) x y, blk s
               (match put_remap (geo s) x y with
                | Some (ij, _, _) => ij
                | None => 0
                end) with
       | Some (ij, _, _), Some b => particle_order_add vo ij (co b)
       | _, _ => vo
       end, fst sa, snd sa)).
Proof.
  unfold put_coords_order, put_coords, put_locate_block.
  destruct (put_remap (geo s) x y) as [[[ij x'] y']|]; [|reflexivity].
  unfold blk. destruct (get_block_cases (blocks s) ij)
    as [(b & -> & Hb)|[-> Hb]]; [|reflexivity].
  rewrite Hb. cbn [obind].
  destruct (co b =? mem b).
  - unfold add_particle_memory.
    destruct (Z.shiftl (mem b) 1 >? max_particle_memory); [reflexivity|].
    destruct (arr_copy _ (id b) (co b)) as [idp| | |]; try reflexivity.
    cbn [obind].
    destruct (arr_copy _ (p b) (co b)) as [pp| | |]; try reflexivity.
    cbn [obind blocks set_blocks].
    assert (Hget : get_block (put_block (blocks s) ij
                      {| co := co b; mem := Z.shiftl (mem b) 1;
                         id := idp; p := pp |}) ij
                   = Ok {| co := co b; mem := Z.shiftl (mem b) 1;
                           id := idp; p := pp |}).
    { apply get_block_Ok. apply block_at_put_eq.
      apply block_at_Some in Hb as [Hr _]. exact Hr. }
    rewrite Hget. cbn [obind co].
    destruct (store _ _ _ _) as [b'| | |]; reflexivity.
  - cbn [obind]. apply get_block_Ok in Hb. rewrite Hb. cbn [obind].
    destruct (store _ _ _ _) as [b'| | |]; reflexivity.
Qed.

Lemma put_order_step (vo : particle_order) (s : container) (c : call) :
  wf s ->
  put_coords_order vo s (c_id c) (c_x c) (c_y c) (c_rest c) =
  (sa <-- put_coords s (c_id c) (c_x c) (c_y c) (c_rest c) ;;
   Ok (match route (geo s) c with
       | Some (ij, _) =>
         match blk s ij with
         | Some b => particle_order_add vo ij (co b)
         | None => vo
         end
       | None => vo
       end, fst sa, snd sa)).
Proof.
  intros Hwf. rewrite put_coords_order_unfold. unfold route.
  destruct (put_remap (geo s) (c_x c) (c_y c)) as [[[ij x'] y']|];
    reflexivity.
Qed.

Lemma entries_prefix_slot (b : block) (l l' : list (option (Z * list float)))
    (k : nat) (o : option (Z * list float)) :
  entries b = l ++ l' -> l !! k = Some o ->
  slot b (Z.of_nat k) = o /\ Z.of_nat k < co b.
Proof.
  intros He Hk.
  assert (H : entries b !! k = Some o).
  { rewrite He. apply lookup_app_l_Some. exact Hk. }
  rewrite entries_lookup in H.
  destruct (decide (Z.of_nat k < co b)) as [Hlt|]; [|discriminate].
  injection H as <-. split; [reflexivity|exact Hlt].
Qed.

(** The ordered puts store what the plain puts store. *)
Lemma serial_puts_order_storage (cs : list call) :
  forall vo s, wf s ->
  outcome_map snd (serial_puts_order vo s cs) = serial_puts s cs.
Proof.
  induction cs as [|c cs IH]; intros vo s Hwf; [reflexivity|].
  cbn [serial_puts_order serial_puts].
  rewrite (put_order_step vo s c Hwf).
  pose proof (serial_put_step s c Hwf) as Hstep.
  destruct (route (geo s) c) as [[ij e]|].
  - destruct Hstep as (b0 & Hb0 & [(s1 & b1 & Hput & Hwf1 & _)|(Hput & _)]);
      rewrite Hput; cbn [obind fst snd]; [|reflexivity].
    apply IH. exact Hwf1.
  - rewrite Hstep. cbn [obind fst snd]. apply IH. exact Hwf.
Qed.

(** Each record of the ordering names the slot of its particle. *)
Lemma serial_puts_order_locates (cs : list call) :
  forall vo s, wf s ->
  forall vo' s', serial_puts_order vo s cs = Ok (vo', s') ->
    exists locs, vo' = vo ++ locs /\
      Forall2 (fun loc r => fst loc = fst r /\
                            located s' (fst loc) (snd loc) (snd r))
              locs (omap (route (geo s)) cs).
Proof.
  induction cs as [|c cs IH]; intros vo s Hwf.
  - intros vo' s' [= <- <-]. exists [].
    split; [now rewrite app_nil_r|constructor].
  - cbn [serial_puts_order omap list_omap].
    rewrite (put_order_step vo s c Hwf).
    pose proof (serial_put_step s c Hwf) as Hstep.
    destruct (route (geo s) c) as [[ij e]|] eqn:Er.
    + destruct Hstep as (b0 & Hb0 & [(s1 & b1 & Hput & Hwf1 & Hgeo & Hb1 & _
                                      & Hco & Hent & _)|(Hput & _)]);
        rewrite Hput; cbn [obind fst snd]; [|discriminate].
      rewrite Hb0. unfold particle_order_add.
      intros vo' s' Hrun.
      destruct (IH (vo ++ [(ij, co b0)]) s1 Hwf1 vo' s' Hrun)
        as (locs & -> & Hall).
      exists ((ij, co b0) :: locs). split; [now rewrite <- app_assoc|].
      rewrite Hgeo in Hall. constructor; [|exact Hall].
      split; [reflexivity|]. cbn [fst snd].
      assert (Hser : serial_puts s1 cs = Ok s').
      { rewrite <- (serial_puts_order_storage cs (vo ++ [(ij, co b0)]) s1 Hwf1).
        rewrite Hrun. reflexivity. }
      destruct (serial_puts_spec cs s1 Hwf1) as [_ Hok].
      destruct (Hok s' Hser) as (_ & _ & _ & Hblocks).
      destruct (Hblocks ij b1 Hb1) as (b' & Hb' & _ & Hent' & _).
      pose proof (ok_co _ (proj1 (wf_blocks _ Hwf ij b0 Hb0))) as Hge.
      destruct (entries_prefix_slot b' (entries b1) _ (Z.to_nat (co b0))
                  (Some e) Hent') as [Hs Hlt].
      { rewrite Hent. rewrite lookup_app_r by (rewrite length_entries; lia).
        rewrite length_entries, Nat.sub_diag. reflexivity. }
      rewrite Z2Nat.id in Hs, Hlt by exact Hge.
      exists b'. split; [exact Hb'|]. split; [lia|exact Hs].
    + rewrite Hstep. cbn [obind fst snd]. apply IH. exact Hwf.
Qed.

(** X9: the ordered [put] of either class stores what the plain [put]
    stores, and appends to the ordering one (block, slot) record for each
    accepted particle, in call order; after any further ordered puts each
    record still names a slot in use that holds the id and the remapped
    position of its particle. *)
Theorem ordered_put_locates :
  (forall vo s n x y,
     outcome_map snd (container_2d_put_order vo s n x y)
     = container_2d_put s n x y) /\
  (forall vo c n x y r,
     outcome_map snd (container_poly_2d_put_order vo c n x y r)
     = container_poly_2d_put c n x y r) /\
  (forall cs vo s, wf s ->
     outcome_map snd (serial_puts_order vo s cs) = serial_puts s cs /\
     forall vo' s', serial_puts_order vo s cs = Ok (vo', s') ->
       exists locs, vo' = vo ++ locs /\
         Forall2 (fun loc r => fst loc = fst r /\
                               located s' (fst loc) (snd loc) (snd r))
                 locs (omap (route (geo s)) cs)).
Proof.
  split; [|split].
  - intros vo s n x y. unfold container_2d_put_order, container_2d_put.
    rewrite put_coords_order_unfold. unfold outcome_map.
    destruct (put_coords s n x y []) as [sa| | |]; reflexivity.
  - intros vo c n x y r.
    unfold container_poly_2d_put_order, container_poly_2d_put.
    rewrite put_coords_order_unfold. unfold outcome_map.
    destruct (put_coords (con c) n x y [r]) as [sa| | |]; reflexivity.
  - intros cs vo s Hwf. split.
    + apply serial_puts_order_storage. exact Hwf.
    + apply serial_puts_order_locates. exact Hwf.
Qed.

(** Two ordered puts into [one_block]; the second doubles the block. *)
Lemma ordered_put_locates_witness :
  exists s',
    serial_puts_order [] one_block
      [{| c_id := 7; c_x := 0.5; c_y := 0.5; c_rest := [] |};
       {| c_id := 8; c_x := 0.25; c_y := 0.5; c_rest := [] |}]
    = Ok ([(0, 0); (0, 1)], s') /\
    located s' 0 0 (7, [0.5%float; 0.5%float]) /\
    located s' 0 1 (8, [0.25%float; 0.5%float]).
Proof.
  destruct (serial_puts_order [] one_block _) as [[vo' s']| | |] eqn:E;
    try (vm_compute in E; discriminate).
  destruct ordered_put_locates as (_ & _ & H0).
  destruct (H0 [{| c_id := 7; c_x := 0.5; c_y := 0.5; c_rest := [] |};
                {| c_id := 8; c_x := 0.25; c_y := 0.5; c_rest := [] |}]
               [] one_block) as [_ H].
  { apply new_container_wf; lia. }
  destruct (H vo' s' E) as (locs & -> & Hall).
  assert (Hvo : locs = [(0, 0); (0, 1)]).
  { vm_compute in E. injection E as <- _. reflexivity. }
  subst locs. exists s'. split; [reflexivity|].
  apply Forall2_cons_1 in Hall as [[_ H1] Hall].
  apply Forall2_cons_1 in Hall as [[_ H2] _].
  split; [exact H1|exact H2].
Defined.

(** ** Region counts *)

(** One line of [region_count]: [Region (i,j): n particles]. *)
Definition region_line : Type := (Z * Z * Z)%type.

(** The inner loop of [region_count] over [i], reading [*(cop++)]; the
    pointer [cop] is the index of the block it points to. *)
Fixpoint region_row (j : Z) (cols : list Z) (cop : Z) (bs : list block)
  : outcome (list region_line * Z) :=
  match cols with
  | [] => Ok ([], cop)
  | i :: cols' =>
    b <-- get_block bs cop ;;
    r <-- region_row j cols' (cop + 1) bs ;;
    Ok ((i, j, co b) :: fst r, snd r)
  end.

(** The outer loop over [j]. *)
Fixpoint region_rows (js : list Z) (n : Z) (cop : Z) (bs : list block)
  : outcome (list region_line) :=
  match js with
  | [] => Ok []
  | j :: js' =>
    r <-- region_row j (seqZ 0 n) cop bs ;;
    rest <-- region_rows js' n (snd r) bs ;;
    Ok (fst r ++ rest)
  end.

(** [container_base_2d::region_count()]: the lines it prints. *)
Definition region_count (s : container) : outcome (list region_line) :=
  region_rows (seqZ 0 (ny (geo s))) (nx (geo s)) 0 (blocks s).

Lemma region_row_spec (j : Z) (bs : list block) (cols : list Z) :
  forall cop, 0 <= cop -> cop + Z.of_nat (length cols) <= Z.of_nat (length bs) ->
  exists l, region_row j cols cop bs = Ok (l, cop + Z.of_nat (length cols)) /\
    length l = length cols /\
    forall (k : nat) i, cols !! k = Some i ->
      exists b, block_at bs (cop + Z.of_nat k) = Some b /\
                l !! k = Some (i, j, co b).
Proof.
  induction cols as [|i cols IH]; intros cop Hcop Hlen.
  - exists []. cbn. rewrite Z.add_0_r. split; [reflexivity|].
    split; [reflexivity|]. intros k i H. discriminate.
  - cbn [length] in Hlen. cbn [region_row].
    destruct (block_at_inside bs cop) as [b Hb]; [lia|].
    rewrite (proj2 (get_block_Ok _ _ _) Hb). cbn [obind].
    destruct (IH (cop + 1)) as (l & Hrun & Hl & Hall); [lia..|].
    rewrite Hrun. cbn [obind fst snd]. exists ((i, j, co b) :: l).
    split; [f_equal; f_equal; cbn [length]; lia|].
    split; [cbn; now rewrite Hl|].
    intros [|k] i' Hk.
    + injection Hk as <-. exists b. rewrite Z.add_0_r. split; [exact Hb|].
      reflexivity.
    + destruct (Hall k i' Hk) as (b' & Hb' & Hk').
      exists b'. split; [|exact Hk'].
      replace (cop + Z.of_nat (S k)) with (cop + 1 + Z.of_nat k) by lia.
      exact Hb'.
Qed.

Lemma region_rows_spec (n : Z) (bs : list block) (js : list Z) :
  0 <= n ->
  forall cop, 0 <= cop ->
  cop + Z.of_nat (length js) * n <= Z.of_nat (length bs) ->
  exists l, region_rows js n cop bs = Ok l /\
    Z.of_nat (length l) = Z.of_nat (length js) * n /\
    forall (r : nat) j i, js !! r = Some j -> 0 <= i < n ->
      exists b, block_at bs (cop + Z.of_nat r * n + i) = Some b /\
                l !! Z.to_nat (Z.of_nat r * n + i) = Some (i, j, co b).
Proof.
  intros Hn. induction js as [|j js IH]; intros cop Hcop Hlen.
  - exists []. split; [reflexivity|]. split; [reflexivity|].
    intros r j i H. discriminate.
  - cbn [length] in Hlen. cbn [region_rows].
    destruct (region_row_spec j bs (seqZ 0 n) cop Hcop)
      as (l1 & Hrun1 & Hl1 & Hall1); [rewrite length_seqZ; nia|].
    rewrite length_seqZ, Z2Nat.id in Hrun1 by lia.
    rewrite length_seqZ in Hl1.
    rewrite Hrun1. cbn [obind fst snd].
    destruct (IH (cop + n)) as (l2 & Hrun2 & Hl2 & Hall2); [lia|nia|].
    rewrite Hrun2. cbn [obind]. exists (l1 ++ l2).
    split; [reflexivity|]. split; [rewrite length_app; cbn [length]; nia|].
    intros [|r] j' i Hr Hi.
    + injection Hr as <-. cbn [Z.of_nat Z.mul]. rewrite Z.add_0_r.
      destruct (Hall1 (Z.to_nat i) i) as (b & Hb & Hk).
      { rewrite lookup_seqZ_lt by lia. f_equal. lia. }
      rewrite Z2Nat.id in Hb by lia. exists b. split; [exact Hb|].
      change (Z.of_nat 0 * n + i) with (0 * n + i).
      rewrite Z.mul_0_l, Z.add_0_l.
      apply lookup_app_l_Some. exact Hk.
    + destruct (Hall2 r j' i Hr Hi) as (b & Hb & Hk).
      exists b. split.
      * replace (cop + Z.of_nat (S r) * n + i)
          with (cop + n + Z.of_nat r * n + i) by lia. exact Hb.
      * assert (Hr0 : 0 <= Z.of_nat r * n + i) by nia.
        replace (Z.to_nat (Z.of_nat (S r) * n + i))
          with (length l1 + Z.to_nat (Z.of_nat r * n + i))%nat.
        -- rewrite lookup_app_r by apply Nat.le_add_r.
           rewrite (Nat.add_comm (length l1)), Nat.add_sub. exact Hk.
        -- rewrite Hl1, <- Z2Nat.inj_add by lia. f_equal.
           rewrite Nat2Z.inj_succ. ring.
Qed.

(** X10: on a container whose batches have been reconciled, [region_count]
    prints one line for each of the nx*ny blocks, row by row, and the line
    of region (i,j) is line i + nx*j and gives the count of block
    i + nx*j, the block that [put_remap] computes for that column and row. *)
Theorem region_count_lines (s : container) :
  wf s ->
  exists lines, region_count s = Ok lines /\
    Z.of_nat (length lines) = nx (geo s) * ny (geo s) /\
    forall i j, 0 <= i < nx (geo s) -> 0 <= j < ny (geo s) ->
      exists b, blk s (i + nx (geo s) * j) = Some b /\
        lines !! Z.to_nat (i + nx (geo s) * j) = Some (i, j, co b).
Proof.
  intros Hwf. pose proof (wf_nx _ Hwf) as Hnx. pose proof (wf_ny _ Hwf) as Hny.
  pose proof (wf_len _ Hwf) as Hlen. unfold region_count.
  destruct (region_rows_spec (nx (geo s)) (blocks s) (seqZ 0 (ny (geo s))))
    with (cop := 0) as (l & Hrun & Hl & Hall); [lia|lia| |].
  { rewrite length_seqZ. nia. }
  rewrite length_seqZ, Z2Nat.id in Hl by lia.
  exists l. split; [exact Hrun|]. split; [lia|].
  intros i j Hi Hj.
  destruct (Hall (Z.to_nat j) j i) as (b & Hb & Hk); [|exact Hi|].
  { rewrite lookup_seqZ_lt by lia. f_equal. lia. }
  rewrite Z2Nat.id in Hb, Hk by lia.
  exists b. split.
  - unfold blk. replace (i + nx (geo s) * j) with (0 + j * nx (geo s) + i)
      by lia. exact Hb.
  - replace (i + nx (geo s) * j) with (j * nx (geo s) + i) by lia. exact Hk.
Qed.

Lemma region_count_lines_witness :
  exists s, container_2d_put (container_2d_new 0 1 0 1 2 2 false false 1)
                             7 0.75 0.75 = Ok s /\
    region_count s = Ok [(0, 0, 0); (1, 0, 0); (0, 1, 0); (1, 1, 1)].
Proof.
  destruct (container_2d_put (container_2d_new 0 1 0 1 2 2 false false 1)
                             7 0.75 0.75) as [s| | |] eqn:E;
    try (vm_compute in E; discriminate).
  exists s. split; [reflexivity|].
  destruct (region_count_lines s) as (lines & Hrun & _ & _).
  - destruct (serial_puts_spec
                [{| c_id := 7; c_x := 0.75; c_y := 0.75; c_rest := [] |}]
                (container_2d_new 0 1 0 1 2 2 false false 1)) as [_ H].
    { apply new_container_wf; lia. }
    apply H. cbn [serial_puts c_id c_x c_y c_rest].
    unfold container_2d_put, outcome_map in E.
    destruct (put_coords _ 7 0.75 0.75 []) as [sa| | |]; try discriminate.
    cbn [obind] in E |- *. injection E as ->. reflexivity.
  - rewrite Hrun. vm_compute in E. injection E as <-.
    vm_compute in Hrun. injection Hrun as <-. reflexivity.
Defined.

(** ** The overflow buffer during a batch *)

(** The total by which the counts exceed the capacities. *)
Definition excess (bs : list block) : Z :=
  foldr (fun b acc => Z.max 0 (co b - mem b) + acc) 0 bs.

(** A reserved slot that lies beyond the capacity [ms] of its block. *)
Definition over (ms : list Z) (r : overflow_rec) : bool :=
  match (if 0 <=? o_ij r then ms !! Z.to_nat (o_ij r) else None) with
  | Some m => m <=? o_m r
  | None => false
  end.

Fixpoint count_over (ms : list Z) (fl : list overflow_rec) : Z :=
  match fl with
  | [] => 0
  | r :: fl' => (if over ms r then 1 else 0) + count_over ms fl'
  end.

Lemma count_over_app (ms : list Z) (fl fl' : list overflow_rec) :
  count_over ms (fl ++ fl') = count_over ms fl + count_over ms fl'.
Proof. induction fl as [|r fl IH]; cbn; [reflexivity|]. rewrite IH. lia. Qed.

Lemma count_over_delete (ms : list Z) (fl : list overflow_rec) :
  forall k r, fl !! k = Some r ->
  count_over ms (delete k fl)
  = count_over ms fl - (if over ms r then 1 else 0).
Proof.
  induction fl as [|a fl IH]; intros [|k] r H; try discriminate.
  - injection H as ->. cbn. lia.
  - change (delete (S k) (a :: fl)) with (a :: delete k fl).
    cbn [count_over]. rewrite (IH k r H). lia.
Qed.

Lemma excess_put (bs : list block) (ij : Z) (b b' : block) :
  block_at bs ij = Some b ->
  excess (put_block bs ij b')
  = excess bs - Z.max 0 (co b - mem b) + Z.max 0 (co b' - mem b').
Proof.
  intros H. apply block_at_Some in H as [_ H]. unfold put_block.
  revert H. generalize (Z.to_nat ij) as k.
  induction bs as [|a bs IH]; intros k H; [discriminate|].
  destruct k as [|k].
  - cbn in H. injection H as ->. cbn. lia.
  - change (excess (<[S k:=b']> (a :: bs)))
      with (Z.max 0 (co a - mem a) + excess (<[k:=b']> bs)).
    change (excess (a :: bs)) with (Z.max 0 (co a - mem a) + excess bs).
    rewrite (IH k H). lia.
Qed.

Lemma mems_put (bs : list block) (ij : Z) (b b' : block) :
  block_at bs ij = Some b -> mem b' = mem b ->
  mem <$> put_block bs ij b' = mem <$> bs.
Proof.
  intros H Hm. apply block_at_Some in H as [_ H]. unfold put_block.
  rewrite list_fmap_insert, Hm. apply list_insert_id.
  rewrite list_lookup_fmap, H. reflexivity.
Qed.

Lemma over_block (bs : list block) (r : overflow_rec) (b : block) :
  block_at bs (o_ij r) = Some b -> over (mem <$> bs) r = (mem b <=? o_m r).
Proof.
  unfold block_at, over. destruct (0 <=? o_ij r); [|discriminate].
  rewrite list_lookup_fmap. intros ->. reflexivity.
Qed.

(** The state of the overflow buffer inside a batch: the records appended
    and the calls in flight that will append one make up the excess of the
    counts; the capacity is the capacity [cap0] at the start of the batch,
    doubled only when an append found the arrays full. *)
Record ovf_inv (cap0 : Z) (s : container) (fl : list overflow_rec)
  : Prop := {
  oi_count : overflowPtCt s + count_over (mem <$> blocks s) fl
             = excess (blocks s);
  oi_le : 0 <= overflowPtCt s <= overflow_mem_numPt s;
  oi_cap : 1 <= overflow_mem_numPt s;
  oi_chain : exists j : nat, overflow_mem_numPt s = cap0 * 2 ^ Z.of_nat j;
  oi_least : overflow_mem_numPt s = cap0 \/
             overflow_mem_numPt s <= 2 * (overflowPtCt s - 1)
}.

Lemma ovf_inv_step (cap0 : Z) (a : action) (s : container)
    (fl : list overflow_rec) (s' : container) (fl' : list overflow_rec) :
  ovf_inv cap0 s fl -> par_step a (s, fl) = Ok (s', fl') ->
  ovf_inv cap0 s' fl'.
Proof.
  intros [Hc Hle Hcap Hch Hl] Hstep. destruct a as [i x y rest|k];
    cbn [par_step fst snd] in Hstep.
  - unfold put_parallel_reserve in Hstep.
    destruct (put_remap (geo s) x y) as [[[ij x'] y']|].
    + destruct (get_block_cases (blocks s) ij) as [(b & Hg & Hb)|[Hg _]];
        rewrite Hg in Hstep; [|discriminate].
      cbn [obind fst snd] in Hstep. injection Hstep as <- <-.
      split; cbn [blocks set_blocks overflowPtCt overflow_mem_numPt];
        try assumption.
      rewrite (mems_put _ _ b) by (assumption || reflexivity).
      rewrite count_over_app, (excess_put _ _ b) by assumption.
      cbn [count_over co mem set_co].
      rewrite (over_block (blocks s) _ b) by exact Hb. cbn [o_m].
      destruct (mem b <=? co b) eqn:E;
        [apply Z.leb_le in E|apply Z.leb_gt in E]; lia.
    + cbn [obind fst snd] in Hstep. injection Hstep as <- <-.
      split; assumption.
  - destruct (fl !! k) as [r|] eqn:Ek; [|injection Hstep as <- <-; split;
                                          assumption].
    unfold put_parallel_commit in Hstep.
    destruct (get_block_cases (blocks s) (o_ij r)) as [(b & Hg & Hb)|[Hg _]];
      rewrite Hg in Hstep; [|discriminate].
    cbn [obind] in Hstep.
    pose proof (count_over_delete (mem <$> blocks s) fl k r Ek) as Hdel.
    rewrite (over_block (blocks s) r b Hb) in Hdel.
    destruct (o_m r <? mem b) eqn:E;
      [apply Z.ltb_lt in E|apply Z.ltb_ge in E].
    + destruct (store b (o_m r) (o_id r) (o_p r)) as [b'| | |] eqn:Es;
        try discriminate.
      cbn [obind] in Hstep. injection Hstep as <- <-.
      assert (Hb' : co b' = co b /\ mem b' = mem b).
      { unfold store in Es.
        destruct (arr_set (id b) _ _); try discriminate. cbn [obind] in Es.
        destruct (arr_set (p b) _ _); try discriminate. cbn [obind] in Es.
        injection Es as <-. split; reflexivity. }
      destruct Hb' as [Hco Hmem].
      split; cbn [blocks set_blocks overflowPtCt overflow_mem_numPt];
        try assumption.
      rewrite (mems_put _ _ b) by assumption.
      rewrite (excess_put _ _ b) by assumption.
      rewrite Hdel, Hco, Hmem.
      replace (mem b <=? o_m r) with false by (symmetry; apply Z.leb_gt; lia).
      lia.
    + replace (mem b <=? o_m r) with true in Hdel
        by (symmetry; apply Z.leb_le; lia).
      unfold overflow_append in Hstep.
      destruct (overflowPtCt s + 1 >? overflow_mem_numPt s) eqn:Ef.
      * destruct (arr_copy _ (overflow s) _) as [o| | |]; try discriminate.
        cbn [obind fst snd] in Hstep.
        destruct (arr_set o _ r) as [o'| | |]; try discriminate.
        cbn [obind] in Hstep. injection Hstep as <- <-.
        assert (Hfull : overflow_mem_numPt s < overflowPtCt s + 1) by lia.
        split; cbn [blocks set_overflow overflowPtCt overflow_mem_numPt].
        -- lia.
        -- lia.
        -- lia.
        -- destruct Hch as [j Hj]. exists (S j).
           rewrite Nat2Z.inj_succ, Z.pow_succ_r by lia. lia.
        -- right. lia.
      * cbn [obind fst snd] in Hstep.
        destruct (arr_set (overflow s) _ r) as [o'| | |]; try discriminate.
        cbn [obind fst snd] in Hstep. injection Hstep as <- <-.
        assert (Hroom : overflowPtCt s + 1 <= overflow_mem_numPt s) by lia.
        split; cbn [blocks set_overflow overflowPtCt overflow_mem_numPt].
        -- lia.
        -- lia.
        -- lia.
        -- exact Hch.
        -- destruct Hl as [Hl|Hl]; [left; exact Hl|right; lia].
Qed.

Lemma ovf_inv_run (cap0 : Z) (sched : list action) :
  forall s fl s' fl',
  ovf_inv cap0 s fl -> run_schedule sched (s, fl) = Ok (s', fl') ->
  ovf_inv cap0 s' fl'.
Proof.
  induction sched as [|a sched IH]; intros s fl s' fl' Hinv Hrun.
  - cbn in Hrun. injection Hrun as <- <-. exact Hinv.
  - cbn [run_schedule] in Hrun.
    destruct (par_step a (s, fl)) as [[s1 fl1]| | |] eqn:E; try discriminate.
    cbn [obind] in Hrun.
    apply (IH s1 fl1 s' fl'); [|exact Hrun].
    apply (ovf_inv_step cap0 a s fl); assumption.
Qed.

Lemma excess_wf (s : container) : wf s -> excess (blocks s) = 0.
Proof.
  intros Hwf.
  assert (H : forall b, b ∈ blocks s -> co b <= mem b).
  { intros b Hb. apply list_elem_of_lookup_1 in Hb as [k Hk].
    apply (wf_blocks _ Hwf (Z.of_nat k)). unfold blk, block_at.
    replace (0 <=? Z.of_nat k) with true by (symmetry; apply Z.leb_le; lia).
    rewrite Nat2Z.id. exact Hk. }
  revert H. generalize (blocks s) as bs.
  induction bs as [|b bs IH]; intros H; [reflexivity|].
  change (excess (b :: bs)) with (Z.max 0 (co b - mem b) + excess bs).
  rewrite IH.
  - pose proof (H b ltac:(left)). lia.
  - intros b' Hb'. apply H. right. exact Hb'.
Qed.

Lemma ovf_inv_init (s : container) :
  wf s -> ovf_inv (overflow_mem_numPt s) s [].
Proof.
  intros Hwf. pose proof (wf_cnt _ Hwf) as Hc. pose proof (wf_cap _ Hwf) as Hp.
  split.
  - rewrite Hc, (excess_wf s Hwf). reflexivity.
  - lia.
  - exact Hp.
  - exists 0%nat. change (2 ^ Z.of_nat 0) with 1. lia.
  - left. reflexivity.
Qed.

Lemma count_over_nonneg (ms : list Z) (fl : list overflow_rec) :
  0 <= count_over ms fl.
Proof.
  induction fl as [|r fl IH]; cbn [count_over]; [lia|].
  destruct (over ms r); lia.
Qed.

(** X11: inside a batch started on a reconciled container the number of
    overflow records never exceeds the total by which the counts exceed
    the capacities, and once every call of the batch has finished the two
    are equal, whatever the interleaving: a call goes to the overflow
    buffer exactly when its atomic increment found the block full or
    overfull.  The capacities are those at the start of the batch, and the
    count of a block is its former count plus the number of accepted calls
    sent to it. *)
Theorem overflow_count_is_excess (s0 : container) :
  wf s0 ->
  (forall sched s fl, run_schedule sched (s0, []) = Ok (s, fl) ->
     0 <= overflowPtCt s <= excess (blocks s)) /\
  (forall sched, complete (geo s0) sched ->
     exists s1, run_schedule sched (s0, []) = Ok (s1, []) /\
       overflowPtCt s1 = excess (blocks s1) /\
       forall ij b0, blk s0 ij = Some b0 ->
         exists b1, blk s1 ij = Some b1 /\ mem b1 = mem b0 /\
           co b1 = co b0
                   + Z.of_nat (length (routed (geo s0) ij (calls_of sched)))).
Proof.
  intros Hwf. split.
  - intros sched s fl Hrun.
    destruct (ovf_inv_run _ sched s0 [] s fl (ovf_inv_init s0 Hwf) Hrun)
      as [Hc Hle _ _ _].
    pose proof (count_over_nonneg (mem <$> blocks s) fl). lia.
  - intros sched Hcomp.
    destruct (complete_batch s0 sched Hwf Hcomp) as (s1 & L & Hrun & Hinv).
    exists s1. split; [exact Hrun|].
    destruct (ovf_inv_run _ sched s0 [] s1 [] (ovf_inv_init s0 Hwf) Hrun)
      as [Hc _ _ _ _].
    split; [cbn [count_over] in Hc; lia|].
    intros ij b0 Hb0.
    destruct (pi_block _ _ _ _ _ Hinv ij b0 Hb0) as (b1 & Hb1 & _ & Hm & Hco & _).
    exists b1. split; [exact Hb1|]. split; [exact Hm|].
    rewrite Hco, <- (pi_routed _ _ _ _ _ Hinv ij), length_fmap. reflexivity.
Qed.

(** Three calls into [one_block], of capacity 1: two overflow records. *)
Lemma overflow_count_is_excess_witness :
  exists s1,
    run_schedule [Reserve 7 0.5 0.5 []; Reserve 8 0.25 0.5 [];
                  Reserve 9 0.75 0.5 []; Commit 2; Commit 0; Commit 0]
                 (one_block, []) = Ok (s1, []) /\
    overflowPtCt s1 = 2.
Proof.
  destruct (overflow_count_is_excess one_block) as [_ H].
  { apply new_container_wf; lia. }
  destruct (H [Reserve 7 0.5 0.5 []; Reserve 8 0.25 0.5 [];
               Reserve 9 0.75 0.5 []; Commit 2; Commit 0; Commit 0])
    as (s1 & Hrun & Hc & _); [reflexivity|].
  exists s1. split; [exact Hrun|]. rewrite Hc.
  vm_compute in Hrun. injection Hrun as <-. reflexivity.
Defined.

(** X12: the overflow arrays are doubled only by an append that finds them
    full.  After any part of a batch started on a reconciled container
    their capacity is the capacity before the batch doubled the least
    number of times that holds the overflow records; it is 64 on a new
    container and [put_reconcile_overflow] does not shrink it. *)
Theorem overflow_capacity_least_doubling (s0 : container) :
  wf s0 ->
  forall sched s fl, run_schedule sched (s0, []) = Ok (s, fl) ->
    exists j : nat,
      overflow_mem_numPt s = overflow_mem_numPt s0 * 2 ^ Z.of_nat j /\
      overflowPtCt s <= overflow_mem_numPt s /\
      (forall j' : nat,
         overflowPtCt s <= overflow_mem_numPt s0 * 2 ^ Z.of_nat j' ->
         (j <= j')%nat) /\
      forall s', put_reconcile_overflow s = Ok s' ->
        overflow_mem_numPt s' = overflow_mem_numPt s.
Proof.
  intros Hwf sched s fl Hrun.
  destruct (ovf_inv_run _ sched s0 [] s fl (ovf_inv_init s0 Hwf) Hrun)
    as [_ Hle _ [j Hj] Hl].
  destruct (least_doubling (overflow_mem_numPt s0) (overflowPtCt s)
              (overflow_mem_numPt s) j (wf_cap _ Hwf) Hj (proj2 Hle) Hl)
    as (j0 & Hj0 & Hleast).
  exists j0. split; [exact Hj0|]. split; [lia|]. split; [exact Hleast|].
  intros s' H. unfold put_reconcile_overflow in H.
  destruct (overflowPtCt s <=? alen (overflow s)); [|discriminate].
  destruct (reconcile_loop _ _) as [bs| | |]; try discriminate.
  cbn [obind] in H. injection H as <-. reflexivity.
Qed.

Lemma overflow_capacity_least_doubling_witness :
  exists s1,
    run_schedule [Reserve 7 0.5 0.5 []; Reserve 8 0.25 0.5 [];
                  Commit 0; Commit 0] (one_block, []) = Ok (s1, []) /\
    overflow_mem_numPt s1 = 64.
Proof.
  destruct (run_schedule [Reserve 7 0.5 0.5 []; Reserve 8 0.25 0.5 [];
                          Commit 0; Commit 0] (one_block, []))
    as [[s1 fl]| | |] eqn:E; try (vm_compute in E; discriminate).
  assert (Hwf : wf one_block) by (apply new_container_wf; lia).
  destruct (overflow_capacity_least_doubling one_block Hwf _ s1 fl E)
    as (j & Hj & _ & Hleast & _).
  assert (Hfl : fl = []) by (vm_compute in E; injection E as _ <-; reflexivity).
  subst fl. exists s1. split; [reflexivity|].
  assert (Hj0 : (j <= 0)%nat).
  { apply Hleast. vm_compute in E. injection E as <-. vm_compute. discriminate. }
  replace j with 0%nat in Hj by lia. rewrite Hj. reflexivity.
Defined.

(** ** Insertion from an array of points *)

(** The body of the loop of [container_2d::put_parallel(pt_list,num_pt,
    num_thread)] up to its call: iteration [i] reads [pt_list[2*i]] and
    [pt_list[2*i+1]] and calls [put_parallel(i,x,y)]. *)
Definition point_call (pt_list : list float) (i : Z) : outcome call :=
  x <-- vec_get pt_list (2 * i) ;;
  y <-- vec_get pt_list (2 * i + 1) ;;
  Ok {| c_id := i; c_x := x; c_y := y; c_rest := [] |}.

(** The same for [container_poly_2d::put_parallel(pt_r_list,num_pt,
    num_thread)], which reads three doubles per point. *)
Definition point_call_poly (pt_r_list : list float) (i : Z) : outcome call :=
  x <-- vec_get pt_r_list (3 * i) ;;
  y <-- vec_get pt_r_list (3 * i + 1) ;;
  r <-- vec_get pt_r_list (3 * i + 2) ;;
  Ok {| c_id := i; c_x := x; c_y := y; c_rest := [r] |}.

Fixpoint collect_calls (f : Z -> outcome call) (ids : list Z)
  : outcome (list call) :=
  match ids with
  | [] => Ok []
  | i :: ids' =>
    c <-- f i ;; cs <-- collect_calls f ids' ;; Ok (c :: cs)
  end.

(** The calls of the iterations [0 <= i < num_pt]. *)
Definition loop_calls (f : Z -> outcome call) (num_pt : Z)
  : outcome (list call) :=
  collect_calls f (seqZ 0 num_pt).

(** A run of the parallel loop: each iteration's call is started once, the
    parts of the calls are interleaved in any way, and every call has
    finished when the loop ends. *)
Definition loop_run (g : geometry) (cs : list call) (sched : list action)
  : Prop :=
  complete g sched /\ calls_of sched ≡ₚ cs.

Lemma collect_calls_elem (f : Z -> outcome call) (ids : list Z) :
  forall cs, collect_calls f ids = Ok cs ->
  forall i, In i ids -> exists c, f i = Ok c /\ In c cs.
Proof.
  induction ids as [|k ids IH]; intros cs H i Hi; [destruct Hi|].
  cbn [collect_calls] in H.
  destruct (f k) as [c| | |] eqn:Ef; try discriminate. cbn [obind] in H.
  destruct (collect_calls f ids) as [cs'| | |]; try discriminate.
  cbn [obind] in H. injection H as <-.
  destruct Hi as [<-|Hi].
  - exists c. split; [exact Ef|left; reflexivity].
  - destruct (IH cs' eq_refl i Hi) as (c' & Hc' & Hin).
    exists c'. split; [exact Hc'|right; exact Hin].
Qed.

Lemma collect_calls_undefined (f : Z -> outcome call) (ids : list Z) (i : Z) :
  (forall k, In k ids -> f k = Undefined \/ exists c, f k = Ok c) ->
  In i ids -> f i = Undefined -> collect_calls f ids = Undefined.
Proof.
  induction ids as [|k ids IH]; intros Hf Hi Hu; [destruct Hi|].
  cbn [collect_calls].
  destruct (Hf k (or_introl eq_refl)) as [->|[c Hc]]; [reflexivity|].
  rewrite Hc. cbn [obind].
  destruct Hi as [->|Hi]; [congruence|].
  rewrite IH; [reflexivity| |exact Hi|exact Hu].
  intros k' Hk'. apply Hf. right. exact Hk'.
Qed.

Lemma routed_elem (g : geometry) (ij : Z) (cs : list call) (c : call)
    (e : Z * list float) :
  In c cs -> route g c = Some (ij, e) -> In e (routed g ij cs).
Proof.
  intros Hc Hr. apply list_elem_of_In. unfold routed.
  apply list_elem_of_omap. exists c. split; [apply list_elem_of_In; exact Hc|].
  rewrite Hr, Z.eqb_refl. reflexivity.
Qed.

Lemma entries_located (s : container) (ij : Z) (b : block)
    (e : Z * list float) :
  blk s ij = Some b -> In (Some e) (entries b) -> exists q, located s ij q e.
Proof.
  intros Hb He. apply list_elem_of_In in He. unfold entries in He.
  apply list_elem_of_fmap in He as (q & Hq & Hin).
  apply elem_of_seqZ in Hin. exists q, b.
  split; [exact Hb|]. split; [lia|]. symmetry. exact Hq.
Qed.

Lemma vec_get_cases (v : list float) (k : Z) :
  (0 <= k < Z.of_nat (length v) /\ exists a, vec_get v k = Ok a /\
     v !! Z.to_nat k = Some a) \/
  (~ (0 <= k < Z.of_nat (length v)) /\ vec_get v k = Undefined).
Proof.
  unfold vec_get. destruct (0 <=? k) eqn:E;
    [apply Z.leb_le in E|apply Z.leb_gt in E; right; split; [lia|reflexivity]].
  destruct (v !! Z.to_nat k) as [a|] eqn:El.
  - left. apply lookup_lt_Some in El as Hlt. split; [lia|]. eauto.
  - right. apply lookup_ge_None in El. split; [lia|reflexivity].
Qed.

(** The calls of a loop over an array that holds all its points. *)
Lemma loop_calls_total (f : Z -> outcome call) (ids : list Z) :
  (forall k, In k ids -> exists c, f k = Ok c) ->
  exists cs, collect_calls f ids = Ok cs.
Proof.
  induction ids as [|k ids IH]; intros Hf; [exists []; reflexivity|].
  destruct (Hf k (or_introl eq_refl)) as [c Hc].
  destruct IH as [cs Hcs]; [intros k' Hk'; apply Hf; right; exact Hk'|].
  exists (c :: cs). cbn [collect_calls]. rewrite Hc, Hcs. reflexivity.
Qed.

Lemma vec_get_lookup (v : list float) (k : Z) (a : float) :
  0 <= k -> v !! Z.to_nat k = Some a -> vec_get v k = Ok a.
Proof.
  intros Hk H. unfold vec_get.
  replace (0 <=? k) with true by (symmetry; apply Z.leb_le; exact Hk).
  rewrite H. reflexivity.
Qed.

(** What a run of the loop followed by [put_reconcile_overflow] leaves in
    the container, for any way [f] of reading the calls. *)
Lemma loop_round_located (s0 : container) (cs : list call)
    (sched : list action) (s' : container) :
  wf s0 -> loop_run (geo s0) cs sched -> parallel_round s0 sched = Ok s' ->
  total_co s' = total_co s0 + accepted (geo s0) cs /\
  forall c ij e, In c cs -> route (geo s0) c = Some (ij, e) ->
    exists q, located s' ij q e.
Proof.
  intros Hwf [Hcomp Hperm] Hrun.
  destruct (complete_batch s0 sched Hwf Hcomp) as (s1 & L & Hrun1 & Hinv).
  unfold parallel_round in Hrun. rewrite Hrun1 in Hrun. cbn [obind fst] in Hrun.
  destruct (round_reconcile _ _ _ _ Hinv) as [_ Hok].
  destruct (Hok s' Hrun) as (_ & _ & Htot & Hblocks).
  split.
  - rewrite Htot. f_equal. unfold accepted. f_equal.
    apply Permutation_length. now rewrite Hperm.
  - intros c ij e Hc Hr.
    assert (Hij : 0 <= ij < nx (geo s0) * ny (geo s0)).
    { unfold route in Hr.
      destruct (put_remap (geo s0) (c_x c) (c_y c)) as [[[ij' x'] y']|] eqn:E;
        [|discriminate].
      injection Hr as <- _.
      apply (put_remap_range _ _ _ _ _ _ (wf_nx _ Hwf) (wf_ny _ Hwf) E). }
    destruct (wf_block_inside s0 ij Hwf Hij) as [b0 Hb0].
    destruct (Hblocks ij b0 Hb0) as (b' & Hb' & _ & He & _).
    apply (entries_located s' ij b' e Hb'). rewrite He.
    apply in_or_app. right. apply list_elem_of_In, list_elem_of_fmap.
    exists e. split; [reflexivity|].
    rewrite (routed_Permutation _ ij _ _ Hperm).
    apply list_elem_of_In. eapply routed_elem; eassumption.
Qed.

(** X13: the array form of [put_parallel] reads two doubles per point (three
    in the poly class) and reads beyond an array that is shorter than
    [num_pt] points.  On an array that holds the points, however the
    iterations of the loop are interleaved, after the following
    [put_reconcile_overflow] the total count has grown by the number of
    accepted points and every accepted point [i] is stored, in the block and
    at the position that [put_remap] gives, under the id [i]. *)
Theorem array_put_parallel_stores_points (s0 : container)
    (pt_list : list float) (num_pt : Z) :
  wf s0 -> 0 <= num_pt ->
  (Z.of_nat (length pt_list) < 2 * num_pt ->
   loop_calls (point_call pt_list) num_pt = Undefined) /\
  (Z.of_nat (length pt_list) < 3 * num_pt ->
   loop_calls (point_call_poly pt_list) num_pt = Undefined) /\
  (2 * num_pt <= Z.of_nat (length pt_list) ->
   exists cs, loop_calls (point_call pt_list) num_pt = Ok cs /\
     forall sched s', loop_run (geo s0) cs sched ->
       parallel_round s0 sched = Ok s' ->
       total_co s' = total_co s0 + accepted (geo s0) cs /\
       forall i x y ij x' y',
         0 <= i < num_pt ->
         pt_list !! Z.to_nat (2 * i) = Some x ->
         pt_list !! Z.to_nat (2 * i + 1) = Some y ->
         put_remap (geo s0) x y = Some (ij, x', y') ->
         exists q, located s' ij q (i, [x'; y'])) /\
  (3 * num_pt <= Z.of_nat (length pt_list) ->
   exists cs, loop_calls (point_call_poly pt_list) num_pt = Ok cs /\
     forall sched s', loop_run (geo s0) cs sched ->
       parallel_round s0 sched = Ok s' ->
       total_co s' = total_co s0 + accepted (geo s0) cs /\
       forall i x y r ij x' y',
         0 <= i < num_pt ->
         pt_list !! Z.to_nat (3 * i) = Some x ->
         pt_list !! Z.to_nat (3 * i + 1) = Some y ->
         pt_list !! Z.to_nat (3 * i + 2) = Some r ->
         put_remap (geo s0) x y = Some (ij, x', y') ->
         exists q, located s' ij q (i, [x'; y'; r])).
Proof.
  intros Hwf Hn.
  assert (Hseq : forall i, In i (seqZ 0 num_pt) <-> 0 <= i < num_pt).
  { intros i. rewrite <- list_elem_of_In, elem_of_seqZ. lia. }
  assert (H2 : forall k, point_call pt_list k = Undefined \/
                         exists c, point_call pt_list k = Ok c).
  { intros k. unfold point_call.
    destruct (vec_get_cases pt_list (2 * k)) as [(_ & a & -> & _)|[_ ->]];
      [|left; reflexivity]. cbn [obind].
    destruct (vec_get_cases pt_list (2 * k + 1)) as [(_ & b & -> & _)|[_ ->]];
      [|left; reflexivity]. right. eexists. reflexivity. }
  assert (H3 : forall k, point_call_poly pt_list k = Undefined \/
                         exists c, point_call_poly pt_list k = Ok c).
  { intros k. unfold point_call_poly.
    destruct (vec_get_cases pt_list (3 * k)) as [(_ & a & -> & _)|[_ ->]];
      [|left; reflexivity]. cbn [obind].
    destruct (vec_get_cases pt_list (3 * k + 1)) as [(_ & b & -> & _)|[_ ->]];
      [|left; reflexivity]. cbn [obind].
    destruct (vec_get_cases pt_list (3 * k + 2)) as [(_ & c & -> & _)|[_ ->]];
      [|left; reflexivity]. right. eexists. reflexivity. }
  split; [|split; [|split]].
  - intros Hshort. unfold loop_calls.
    apply (collect_calls_undefined _ _ (num_pt - 1)).
    + intros k _. apply H2.
    + apply Hseq. lia.
    + unfold point_call.
      destruct (vec_get_cases pt_list (2 * (num_pt - 1)))
        as [(_ & a & -> & _)|[_ ->]]; [|reflexivity]. cbn [obind].
      destruct (vec_get_cases pt_list (2 * (num_pt - 1) + 1))
        as [(Hr & _)|[_ ->]]; [lia|reflexivity].
  - intros Hshort. unfold loop_calls.
    apply (collect_calls_undefined _ _ (num_pt - 1)).
    + intros k _. apply H3.
    + apply Hseq. lia.
    + unfold point_call_poly.
      destruct (vec_get_cases pt_list (3 * (num_pt - 1)))
        as [(_ & a & -> & _)|[_ ->]]; [|reflexivity]. cbn [obind].
      destruct (vec_get_cases pt_list (3 * (num_pt - 1) + 1))
        as [(_ & b & -> & _)|[_ ->]]; [|reflexivity]. cbn [obind].
      destruct (vec_get_cases pt_list (3 * (num_pt - 1) + 2))
        as [(Hr & _)|[_ ->]]; [lia|reflexivity].
  - intros Hlong.
    destruct (loop_calls_total (point_call pt_list) (seqZ 0 num_pt))
      as [cs Hcs].
    { intros k Hk. apply Hseq in Hk. unfold point_call.
      destruct (vec_get_cases pt_list (2 * k)) as [(_ & a & -> & _)|[Hr _]];
        [|lia]. cbn [obind].
      destruct (vec_get_cases pt_list (2 * k + 1)) as [(_ & b & -> & _)|[Hr _]];
        [|lia]. eexists. reflexivity. }
    exists cs. split; [exact Hcs|]. intros sched s' Hloop Hrun.
    destruct (loop_round_located s0 cs sched s' Hwf Hloop Hrun) as [Htot Hloc].
    split; [exact Htot|].
    intros i x y ij x' y' Hi Hx Hy Hr.
    destruct (collect_calls_elem _ _ cs Hcs i (proj2 (Hseq i) Hi))
      as (c & Hc & Hin).
    unfold point_call in Hc.
    rewrite (vec_get_lookup _ _ x) in Hc by (lia || exact Hx).
    rewrite (vec_get_lookup _ _ y) in Hc by (lia || exact Hy).
    cbn [obind] in Hc. injection Hc as <-.
    apply (Hloc _ ij _ Hin). unfold route. cbn [c_x c_y c_id c_rest].
    rewrite Hr. reflexivity.
  - intros Hlong.
    destruct (loop_calls_total (point_call_poly pt_list) (seqZ 0 num_pt))
      as [cs Hcs].
    { intros k Hk. apply Hseq in Hk. unfold point_call_poly.
      destruct (vec_get_cases pt_list (3 * k)) as [(_ & a & -> & _)|[Hr _]];
        [|lia]. cbn [obind].
      destruct (vec_get_cases pt_list (3 * k + 1)) as [(_ & b & -> & _)|[Hr _]];
        [|lia]. cbn [obind].
      destruct (vec_get_cases pt_list (3 * k + 2)) as [(_ & c & -> & _)|[Hr _]];
        [|lia]. eexists. reflexivity. }
    exists cs. split; [exact Hcs|]. intros sched s' Hloop Hrun.
    destruct (loop_round_located s0 cs sched s' Hwf Hloop Hrun) as [Htot Hloc].
    split; [exact Htot|].
    intros i x y r ij x' y' Hi Hx Hy Hrr Hr.
    destruct (collect_calls_elem _ _ cs Hcs i (proj2 (Hseq i) Hi))
      as (c & Hc & Hin).
    unfold point_call_poly in Hc.
    rewrite (vec_get_lookup _ _ x) in Hc by (lia || exact Hx).
    rewrite (vec_get_lookup _ _ y) in Hc by (lia || exact Hy).
    rewrite (vec_get_lookup _ _ r) in Hc by (lia || exact Hrr).
    cbn [obind] in Hc. injection Hc as <-.
    apply (Hloc _ ij _ Hin). unfold route. cbn [c_x c_y c_id c_rest].
    rewrite Hr. reflexivity.
Qed.

(** Two points on [one_block], the second call incrementing first. *)
Lemma array_put_parallel_stores_points_witness :
  exists s' q,
    parallel_round one_block
      [Reserve 1 0.25 0.5 []; Reserve 0 0.5 0.5 []; Commit 0; Commit 0]
    = Ok s' /\
    located s' 0 q (1, [0.25%float; 0.5%float]).
Proof.
  destruct (parallel_round one_block _) as [s'| | |] eqn:E;
    try (vm_compute in E; discriminate).
  exists s'.
  destruct (array_put_parallel_stores_points one_block
              [0.5; 0.5; 0.25; 0.5]%float 2) as (_ & _ & H & _).
  { apply new_container_wf; lia. }
  { lia. }
  destruct H as (cs & Hcs & H); [cbn; lia|].
  vm_compute in Hcs. injection Hcs as <-.
  assert (Hloop : loop_run (geo one_block)
            [{| c_id := 0; c_x := 0.5; c_y := 0.5; c_rest := [] |};
             {| c_id := 1; c_x := 0.25; c_y := 0.5; c_rest := [] |}]
            [Reserve 1 0.25 0.5 []; Reserve 0 0.5 0.5 []; Commit 0; Commit 0]).
  { split; [reflexivity|apply perm_swap]. }
  destruct (H _ s' Hloop E) as [_ Hloc].
  destruct (Hloc 1 0.25%float 0.5%float 0 0.25%float 0.5%float) as [q Hq];
    try reflexivity; [lia|].
  exists q. split; [reflexivity|exact Hq].
Defined.

(** ** Import from a file *)

(** How the loop [while((j=fscanf(fp,...))==3)] ends: the call of [fscanf]
    that ends it returns [EOF], or it returns the number of fields it could
    convert, fewer than asked for. *)
Inductive scan_end : Type :=
| ScanEOF
| ScanShort (fields : Z).

(** [if(j!=EOF) voro_fatal_error("File import error",VOROPP_FILE_ERROR);] *)
Definition check_eof {A} (e : scan_end) (a : A) : outcome A :=
  match e with
  | ScanEOF => Ok a
  | ScanShort _ => Fatal
  end.

(** The call [put(i,x,y)] for a record that [fscanf] converted. *)
Definition scanned_call (r : Z * float * float) : call :=
  {| c_id := fst (fst r); c_x := snd (fst r); c_y := snd r; c_rest := [] |}.

(** [container_2d::import(fp)], on a file whose records [recs] are read by
    the calls of [fscanf] that return 3. *)
Definition container_2d_import (s : container)
    (recs : list (Z * float * float)) (e : scan_end) : outcome container :=
  s1 <-- serial_puts s (scanned_call <$> recs) ;;
  s2 <-- put_reconcile_overflow s1 ;;
  check_eof e s2.

(** [container_2d::import(vo,fp)]: the ordered puts, and no
    reconciliation. *)
Definition container_2d_import_order (vo : particle_order) (s : container)
    (recs : list (Z * float * float)) (e : scan_end)
  : outcome (particle_order * container) :=
  vs <-- serial_puts_order vo s (scanned_call <$> recs) ;;
  check_eof e vs.

(** [container_poly_2d::import(fp)] *)
Definition container_poly_2d_import (c : container_poly)
    (recs : list poly_call) (e : scan_end) : outcome container_poly :=
  c1 <-- poly_serial_puts c recs ;;
  c2 <-- container_poly_2d_put_reconcile_overflow c1 ;;
  check_eof e c2.

(** X14: on a reconciled container, [import] of a file that ends at [EOF]
    is the run of serial puts of its records, in file order: the
    [put_reconcile_overflow] it ends with changes nothing, in either class,
    and the ordered import stores the same.  When the file ends in a record
    that [fscanf] cannot convert, the records before it are put and the
    import then stops with the fatal error. *)
Theorem import_is_serial_puts :
  (forall s recs, wf s ->
     container_2d_import s recs ScanEOF
     = serial_puts s (scanned_call <$> recs)) /\
  (forall s recs n, wf s ->
     container_2d_import s recs (ScanShort n)
     = (s' <-- serial_puts s (scanned_call <$> recs) ;; Fatal)) /\
  (forall vo s recs, wf s ->
     outcome_map snd (container_2d_import_order vo s recs ScanEOF)
     = container_2d_import s recs ScanEOF) /\
  (forall c recs, poly_wf c ->
     container_poly_2d_import c recs ScanEOF = poly_serial_puts c recs) /\
  (forall c recs n, poly_wf c ->
     container_poly_2d_import c recs (ScanShort n)
     = (c' <-- poly_serial_puts c recs ;; Fatal)).
Proof.
  assert (Hplain : forall s recs e, wf s ->
            container_2d_import s recs e
            = (s' <-- serial_puts s (scanned_call <$> recs) ;; check_eof e s')).
  { intros s recs e Hwf. unfold container_2d_import.
    destruct (serial_puts_spec (scanned_call <$> recs) s Hwf) as [_ Hok].
    destruct (serial_puts s (scanned_call <$> recs)) as [s1| | |];
      try reflexivity.
    destruct (Hok s1 eq_refl) as (Hwf1 & _). cbn [obind].
    rewrite (reconcile_noop s1 (wf_cnt _ Hwf1)). reflexivity. }
  assert (Hpoly : forall c recs e, poly_wf c ->
            container_poly_2d_import c recs e
            = (c' <-- poly_serial_puts c recs ;; check_eof e c')).
  { intros c recs e [Hwf Hz Hb]. unfold container_poly_2d_import.
    rewrite poly_serial_puts_con.
    destruct (serial_puts_spec (to_call <$> recs) (con c) Hwf) as [_ Hok].
    destruct (serial_puts (con c) (to_call <$> recs)) as [s1| | |];
      try reflexivity.
    destruct (Hok s1 eq_refl) as (Hwf1 & _). cbn [obind].
    rewrite poly_reconcile_noop; [reflexivity|exact (wf_cnt _ Hwf1)|exact Hz|].
    apply fold_fmax_top. exact Hb. }
  split; [|split; [|split; [|split]]].
  - intros s recs Hwf. rewrite (Hplain s recs ScanEOF Hwf).
    destruct (serial_puts s _); reflexivity.
  - intros s recs n Hwf. apply (Hplain s recs (ScanShort n) Hwf).
  - intros vo s recs Hwf. rewrite (Hplain s recs ScanEOF Hwf).
    rewrite <- (serial_puts_order_storage _ vo s Hwf).
    unfold container_2d_import_order, outcome_map.
    destruct (serial_puts_order vo s _) as [[vo' s']| | |]; reflexivity.
  - intros c recs Hwf. rewrite (Hpoly c recs ScanEOF Hwf).
    destruct (poly_serial_puts c recs); reflexivity.
  - intros c recs n Hwf. apply (Hpoly c recs (ScanShort n) Hwf).
Qed.

Lemma import_is_serial_puts_witness :
  exists s', container_2d_import one_block [(7, 0.5%float, 0.5%float)] ScanEOF
             = Ok s' /\
             located s' 0 0 (7, [0.5%float; 0.5%float]) /\
  container_2d_import one_block [(7, 0.5%float, 0.5%float)] (ScanShort 1)
  = Fatal.
Proof.
  destruct import_is_serial_puts as (H1 & H2 & _).
  assert (Hwf : wf one_block) by (apply new_container_wf; lia).
  destruct (container_2d_import one_block [(7, 0.5%float, 0.5%float)] ScanEOF)
    as [s'| | |] eqn:E; try (vm_compute in E; discriminate).
  exists s'. split; [reflexivity|]. split.
  - rewrite (H1 one_block _ Hwf) in E. vm_compute in E. injection E as <-.
    eexists. split; [reflexivity|]. split; [cbn; lia|reflexivity].
  - rewrite (H2 one_block _ 1 Hwf).
    destruct (serial_puts one_block _) as [s1| | |] eqn:E1;
      try (vm_compute in E1; discriminate). reflexivity.
Defined.

(** ** Reuse after [clear] *)

Lemma blk_clear (s : container) (ij : Z) :
  blk (clear s) ij = (fun b => set_co b 0) <$> blk s ij.
Proof.
  unfold blk, clear, block_at. cbn [blocks set_blocks].
  destruct (0 <=? ij); [|reflexivity].
  change (map (fun b0 => set_co b0 0) (blocks s))
    with ((fun b0 => set_co b0 0) <$> blocks s).
  apply list_lookup_fmap.
Qed.

Lemma clear_wf (s : container) : wf s -> wf (clear s).
Proof.
  intros [H1 H2 H3 H4 H5 H6 H7]. split; try assumption.
  - unfold clear. cbn [blocks set_blocks geo]. rewrite length_map. exact H3.
  - intros ij b Hb. rewrite blk_clear in Hb.
    destruct (blk s ij) as [b0|] eqn:E; [|discriminate].
    injection Hb as <-. destruct (H4 ij b0 E) as [Hok _].
    split; [apply block_ok_set_co; [exact Hok|lia]|].
    cbn [co mem set_co]. pose proof (ok_mem _ Hok). lia.
Qed.

(** X15: [clear] on a reconciled container gives a reconciled container
    with no particle that keeps the memory of every block: after serial
    puts into it a block holds exactly the particles sent to it since, from
    slot 0 on and in call order, and a block whose new count fits its old
    capacity keeps that capacity. *)
Theorem clear_then_put_reuses_memory (s : container) :
  wf s ->
  wf (clear s) /\ total_co (clear s) = 0 /\
  forall cs s', serial_puts (clear s) cs = Ok s' ->
    forall ij b0, blk s ij = Some b0 ->
      exists b', blk s' ij = Some b' /\
        co b' = Z.of_nat (length (routed (geo s) ij cs)) /\
        entries b' = Some <$> routed (geo s) ij cs /\
        (co b' <= mem b0 -> mem b' = mem b0).
Proof.
  intros Hwf. pose proof (clear_wf s Hwf) as Hwfc.
  split; [exact Hwfc|]. split.
  - unfold total_co, clear. cbn [blocks set_blocks].
    induction (blocks s) as [|b bs IH]; [reflexivity|].
    cbn [map sum_co foldr co set_co]. unfold sum_co in IH. rewrite IH.
    reflexivity.
  - intros cs s' Hrun ij b0 Hb0.
    destruct (serial_puts_spec cs (clear s) Hwfc) as [_ Hok].
    destruct (Hok s' Hrun) as (Hwf' & _ & _ & Hblocks).
    assert (Hbc : blk (clear s) ij = Some (set_co b0 0))
      by (rewrite blk_clear, Hb0; reflexivity).
    destruct (Hblocks ij _ Hbc) as (b' & Hb' & Hco & Hent & (j & Hj) & Hm).
    change (geo (clear s)) with (geo s) in Hco, Hent.
    cbn [co mem set_co] in Hco, Hj, Hm.
    exists b'. split; [exact Hb'|]. split; [lia|]. split; [exact Hent|].
    intros Hfit. destruct (wf_blocks _ Hwf ij b0 Hb0) as [Hok0 _].
    destruct (wf_blocks _ Hwf' ij b' Hb') as [_ Hle].
    destruct (least_doubling (mem b0) (co b') (mem b') j (ok_mem _ Hok0) Hj Hle)
      as (j0 & Hj0 & Hleast); [tauto|].
    assert (H0 : (j0 <= 0)%nat).
    { apply Hleast. change (2 ^ Z.of_nat 0) with 1. lia. }
    replace j0 with 0%nat in Hj0 by lia.
    change (2 ^ Z.of_nat 0) with 1 in Hj0. lia.
Qed.

Lemma clear_then_put_reuses_memory_witness :
  exists s1 s2 b',
    serial_puts one_block
      [{| c_id := 1; c_x := 0.5; c_y := 0.5; c_rest := [] |};
       {| c_id := 2; c_x := 0.25; c_y := 0.5; c_rest := [] |}] = Ok s1 /\
    serial_puts (clear s1)
      [{| c_id := 3; c_x := 0.75; c_y := 0.5; c_rest := [] |}] = Ok s2 /\
    blk s2 0 = Some b' /\ co b' = 1 /\ mem b' = 2 /\
    entries b' = [Some (3, [0.75%float; 0.5%float])].
Proof.
  destruct (serial_puts one_block _) as [s1| | |] eqn:E1;
    try (vm_compute in E1; discriminate).
  assert (Hwf0 : wf one_block) by (apply new_container_wf; lia).
  assert (Hwf1 : wf s1).
  { eapply serial_puts_spec; [exact Hwf0|exact E1]. }
  destruct (serial_puts (clear s1)
              [{| c_id := 3; c_x := 0.75; c_y := 0.5; c_rest := [] |}])
    as [s2| | |] eqn:E2;
    try (vm_compute in E1; injection E1 as <-; vm_compute in E2; discriminate).
  destruct (clear_then_put_reuses_memory s1 Hwf1) as (_ & _ & H).
  vm_compute in E1. injection E1 as <-.
  destruct (H _ s2 E2 0 {| co := 2; mem := 2; id := [Some 1; Some 2];
                           p := [Some [0.5%float; 0.5%float];
                                 Some [0.25%float; 0.5%float]] |} eq_refl)
    as (b' & Hb' & Hco & Hent & Hm).
  eexists; exists s2, b'. split; [vm_compute; reflexivity|]. split; [exact E2|].
  split; [exact Hb'|]. split; [exact Hco|]. split; [|exact Hent].
  apply Hm. rewrite Hco. vm_compute. discriminate.
Defined.

(** ** A container built with no initial memory *)

Lemma double_until_zero (fuel : nat) (m : Z) :
  0 <= m -> double_until fuel m 0 = None.
Proof.
  intros Hm. induction fuel as [|fuel IH]; cbn [double_until];
    replace (m >=? 0) with true by (symmetry; apply Z.geb_le; lia);
    [reflexivity|exact IH].
Qed.

(** An accepted position whose block has no memory. *)
Lemma zero_memory_block (s : container) (n : Z) (x y : float)
    (rest : list float) (ij : Z) (x' y' : float) :
  put_remap (geo s) x y = Some (ij, x', y') ->
  block_at (blocks s) ij = Some (new_block 0) ->
  overflowPtCt s = 0 -> 1 <= overflow_mem_numPt s ->
  alen (overflow s) = overflow_mem_numPt s ->
  put_coords s n x y rest = Undefined /\
  exists s1, put_parallel_coords s n x y rest = Ok s1 /\
             overflowPtCt s1 = 1 /\
             put_reconcile_overflow s1 = Diverges.
Proof.
  intros Hr Hb Hcnt Hcap Hlen.
  pose proof (block_at_Some _ _ _ Hb) as [Hij _].
  split.
  - rewrite put_coords_unfold, Hr.
    rewrite (proj2 (get_block_Ok _ _ _) Hb). reflexivity.
  - unfold put_parallel_coords, put_parallel_reserve. rewrite Hr.
    rewrite (proj2 (get_block_Ok _ _ _) Hb). cbn [obind fst snd].
    set (b1 := set_co (new_block 0) (co (new_block 0) + 1)).
    set (r := {| o_ij := ij; o_m := co (new_block 0); o_id := n;
                 o_p := x' :: y' :: rest |}).
    assert (Hb1 : block_at (put_block (blocks s) ij b1) ij = Some b1)
      by (apply block_at_put_eq; exact Hij).
    unfold put_parallel_commit. cbn [blocks set_blocks].
    change (o_ij r) with ij.
    rewrite (proj2 (get_block_Ok _ _ _) Hb1). cbn [obind].
    change (o_m r <? mem b1) with false. cbv iota.
    unfold overflow_append.
    cbn [overflowPtCt overflow_mem_numPt overflow set_blocks].
    rewrite Hcnt.
    replace (0 + 1 >? overflow_mem_numPt s) with false
      by (symmetry; rewrite Z.gtb_ltb; apply Z.ltb_ge; lia).
    cbn [obind fst snd]. unfold arr_set, in_range.
    replace ((0 <=? 0) && (0 <? alen (overflow s))) with true
      by (symmetry; apply andb_true_iff; split;
          [reflexivity|apply Z.ltb_lt; lia]).
    cbn [obind]. eexists. split; [reflexivity|]. split; [reflexivity|].
    unfold put_reconcile_overflow.
    cbn [overflowPtCt overflow set_overflow set_blocks blocks].
    destruct (overflow s) as [|o l] eqn:Eo;
      [unfold alen in Hlen; cbn [length] in Hlen; lia|].
    change (<[Z.to_nat 0:=Some r]> (o :: l)) with (Some r :: l).
    replace (0 + 1 <=? alen (Some r :: l)) with true
      by (symmetry; apply Z.leb_le; unfold alen; cbn [length]; lia).
    change (take (Z.to_nat (0 + 1)) (Some r :: l)) with [Some r].
    cbn [reconcile_loop]. unfold reconcile_record. change (o_ij r) with ij.
    rewrite (proj2 (get_block_Ok _ _ _) Hb1). reflexivity.
Qed.

(** X16: on a container built with [init_mem = 0] the doubling of a
    capacity of 0 gives 0 again.  A serial [put] of an accepted position
    then writes slot 0 of an array of no entry; a [put_parallel] call goes
    to the overflow buffer, and the loop [while(m>=nmem) nmem=2*nmem] of
    the following [put_reconcile_overflow] never exits. *)
Theorem zero_initial_memory (ax_ bx_ ay_ by__ : float) (nx_ ny_ : Z)
    (x_prd_ y_prd_ : bool) (ps_ : Z) (n : Z) (x y : float)
    (rest : list float) (ij : Z) (x' y' : float) :
  0 < nx_ -> 0 < ny_ ->
  let s0 := new_container ax_ bx_ ay_ by__ nx_ ny_ x_prd_ y_prd_ 0 ps_ in
  put_remap (geo s0) x y = Some (ij, x', y') ->
  put_coords s0 n x y rest = Undefined /\
  (exists s1, put_parallel_coords s0 n x y rest = Ok s1 /\
              overflowPtCt s1 = 1 /\
              put_reconcile_overflow s1 = Diverges) /\
  (forall fuel m, 0 <= m -> double_until fuel m (2 * 0) = None).
Proof.
  intros Hnx Hny s0 Hr.
  assert (Hij : 0 <= ij < nx_ * ny_).
  { apply (put_remap_range (geo s0) x y ij x' y' Hnx Hny Hr). }
  assert (Hb : block_at (blocks s0) ij = Some (new_block 0)).
  { unfold block_at, s0. cbn [blocks new_container].
    replace (0 <=? ij) with true by (symmetry; apply Z.leb_le; lia).
    apply lookup_replicate_2. lia. }
  destruct (zero_memory_block s0 n x y rest ij x' y' Hr Hb) as [H1 H2];
    [reflexivity|unfold s0; cbn; lia|reflexivity|].
  split; [exact H1|]. split; [exact H2|].
  intros fuel m Hm. apply double_until_zero. exact Hm.
Qed.

Lemma zero_initial_memory_witness :
  container_2d_put (container_2d_new 0 1 0 1 1 1 false false 0) 7 0.5 0.5
  = Undefined.
Proof.
  destruct (zero_initial_memory 0 1 0 1 1 1 false false 2 7 0.5 0.5 []
              0 0.5 0.5) as [H _].
  - lia.
  - lia.
  - vm_compute. reflexivity.
  - unfold container_2d_put, container_2d_new, outcome_map. rewrite H.
    reflexivity.
Defined.

(** ** The thread number of a poly call *)

(** X17: [container_poly_2d::put_parallel] indexes the per-thread maxima
    with the number of the calling thread and never compares it with their
    length [nt]: a call that is accepted and stored by a thread whose number
    is not below [nt] reads [max_r] outside the array, while a call whose
    position is rejected does not touch [max_r] at all. *)
Theorem put_parallel_thread_out_of_range (c : container_poly)
    (ithread i : Z) (x y r : float) :
  ~ (0 <= ithread < Z.of_nat (length (max_r c))) ->
  (put_remap (geo (con c)) x y = None ->
   container_poly_2d_put_parallel c ithread i x y r = Ok c) /\
  (forall ij x' y' b,
     put_remap (geo (con c)) x y = Some (ij, x', y') ->
     blk (con c) ij = Some b -> block_ok b -> 0 <= co b < mem b ->
     container_poly_2d_put_parallel c ithread i x y r = Undefined).
Proof.
  intros Ht. unfold container_poly_2d_put_parallel.
  cbn [poly_run_schedule poly_par_step fst snd].
  unfold put_parallel_reserve. split.
  - intros ->. cbn [obind fst snd lookup]. destruct c; reflexivity.
  - intros ij x' y' b -> Hb Hok Hco.
    rewrite (proj2 (get_block_Ok _ _ _) Hb). cbn [obind fst snd app].
    change (([{| f_thread := ithread; f_r := r;
                 f_rec := {| o_ij := ij; o_m := co b; o_id := i;
                             o_p := [x'; y'; r] |} |}] : list in_flight)
              !! 0%nat)
      with (Some {| f_thread := ithread; f_r := r;
                    f_rec := {| o_ij := ij; o_m := co b; o_id := i;
                                o_p := [x'; y'; r] |} |}).
    cbv iota. cbn [f_rec f_thread f_r con set_con max_r].
    unfold put_parallel_commit. cbn [o_ij o_m o_id o_p blocks set_blocks].
    pose proof (block_at_Some _ _ _ Hb) as [Hij _].
    rewrite (proj2 (get_block_Ok _ _ _)
               (block_at_put_eq (blocks (con c)) ij (set_co b (co b + 1)) Hij)).
    cbn [obind mem set_co].
    replace (co b <? mem b) with true by (symmetry; apply Z.ltb_lt; lia).
    destruct (store_inside (set_co b (co b + 1)) (co b) i [x'; y'; r])
      as [b' ->].
    { apply block_ok_set_co; [exact Hok|lia]. }
    { cbn [mem set_co]. lia. }
    cbn [obind]. unfold update_max_r.
    destruct (0 <=? ithread) eqn:E; [|reflexivity].
    apply Z.leb_le in E.
    rewrite lookup_ge_None_2 by lia. reflexivity.
Qed.

(** Thread 1 calls into a container built for one thread. *)
Lemma put_parallel_thread_out_of_range_witness :
  container_poly_2d_put_parallel one_block_poly 1 7 0.5 0.5 0.25 = Undefined.
Proof.
  destruct (put_parallel_thread_out_of_range one_block_poly 1 7 0.5 0.5 0.25)
    as [_ H].
  - change (Z.of_nat (length (max_r one_block_poly))) with 1. lia.
  - apply (H 0 0.5%float 0.5%float (new_block 1)).
    + vm_compute. reflexivity.
    + reflexivity.
    + apply new_block_ok. lia.
    + cbn. lia.
Defined.

(** ** A parallel call that finds room *)

Lemma store_set_co (b : block) (c m n : Z) (cs : list float) :
  store (set_co b c) m n cs = (b' <-- store b m n cs ;; Ok (set_co b' c)).
Proof.
  unfold store. cbn [id p co mem set_co].
  destruct (arr_set (id b) m n) as [idp| | |]; try reflexivity. cbn [obind].
  destruct (arr_set (p b) m cs) as [pp| | |]; reflexivity.
Qed.

(** X18: when the block of the position is not full, a [put_parallel] call
    that no other thread interrupts leaves exactly the state that the serial
    [put] of the same particle leaves; a position that [put_remap] rejects
    leaves the container as it is on both paths. *)
Theorem put_parallel_with_room_is_put (s : container) (i : Z) (x y : float) :
  (put_remap (geo s) x y = None ->
   container_2d_put_parallel s i x y = Ok s /\
   container_2d_put s i x y = Ok s) /\
  (forall ij x' y' b,
     put_remap (geo s) x y = Some (ij, x', y') ->
     blk s ij = Some b -> co b < mem b ->
     container_2d_put_parallel s i x y = container_2d_put s i x y).
Proof.
  unfold container_2d_put_parallel, container_2d_put, outcome_map,
    put_parallel_coords, put_parallel_reserve.
  rewrite put_coords_unfold. split.
  - intros ->. split; reflexivity.
  - intros ij x' y' b -> Hb Hlt.
    pose proof (block_at_Some _ _ _ Hb) as [Hij _].
    rewrite (proj2 (get_block_Ok _ _ _) Hb). cbn [obind fst snd].
    unfold put_parallel_commit. cbn [o_ij o_m o_id o_p blocks set_blocks].
    rewrite (proj2 (get_block_Ok _ _ _)
               (block_at_put_eq (blocks s) ij (set_co b (co b + 1)) Hij)).
    cbn [obind mem set_co].
    replace (co b <? mem b) with true by (symmetry; apply Z.ltb_lt; lia).
    unfold block_put.
    replace (co b =? mem b) with false by (symmetry; apply Z.eqb_neq; lia).
    cbn [obind]. rewrite store_set_co.
    destruct (store b (co b) i [x'; y']) as [b'| | |]; try reflexivity.
    cbn [obind fst]. rewrite put_block_twice. reflexivity.
Qed.

Lemma put_parallel_with_room_is_put_witness :
  exists s', container_2d_put_parallel one_block 7 0.5 0.5 = Ok s' /\
             container_2d_put one_block 7 0.5 0.5 = Ok s'.
Proof.
  destruct (put_parallel_with_room_is_put one_block 7 0.5 0.5) as [_ H].
  destruct (container_2d_put one_block 7 0.5 0.5) as [s'| | |] eqn:E;
    try (vm_compute in E; discriminate).
  exists s'. split; [|reflexivity].
  apply (H 0 0.5%float 0.5%float (new_block 1)).
  - vm_compute. reflexivity.
  - reflexivity.
  - cbn. lia.
Defined.
